(** * Reef identifier allocation (04-allocate-ReefIDs.py)

    A shallow embedding of the identifier allocator of the Coral Sea
    features repository: the base-N symbol codec, the geographic grid
    encoder, the counter encoder and [process_shapefile], followed by the
    properties of the allocation scheme.

    Python values are modelled as follows.
    - [int] is [Z]; [str] is [string]; [None]/NaN in the ReefID column is
      [None : option string].
    - [float] is IEEE 754 binary64.  Every finite binary64 value is an
      integer multiple of 2^-1074, so a finite float is the integer [k]
      with value [k * 2^-1074]; the sign of zero is not recorded (the
      program never observes it).
    - dictionaries are [gmap], sets are [gset], the data frame is the list
      of its rows, indexed by position (the RangeIndex that reading a file
      produces).
    - an uncaught exception is [Raise]; a loop that never exits is
      [Diverge]. *)

From Stdlib Require Import ZArith Lia Ascii String Permutation.
From stdpp Require Import gmap strings list fin_maps sorting.

Local Open Scope Z_scope.
Set Warnings "-clear-no-such-hyp".

(** ** Outcomes of a Python computation *)

Inductive exn :=
  ValueError | IndexError | KeyError | OverflowError | ZeroDivisionError | AssertionError.

Inductive result (A : Type) : Type :=
| Ok (a : A)
| Raise (e : exn)
| Diverge.
Arguments Ok {A} a.
Arguments Raise {A} e.
Arguments Diverge {A}.

Global Instance result_ret : MRet result := λ A a, Ok a.

Global Instance result_bind : MBind result := λ A B k c,
  match c with
  | Ok a => k a
  | Raise e => Raise e
  | Diverge => Diverge
  end.

Global Instance exn_eq_dec : EqDecision exn.
Proof. solve_decision. Defined.

Global Instance result_eq_dec {A} `{EqDecision A} : EqDecision (result A).
Proof. solve_decision. Defined.

(** ** Python floats: IEEE 754 binary64 *)

Module PyFloat.

Inductive float :=
| Finite (k : Z)            (* the value k * 2^-1074 *)
| Infinity (negative : bool)
| NaN.

(** 1.0, and the first magnitude that overflows (2^1024), in units. *)
Definition one : Z := Eval vm_compute in 2 ^ 1074.
Definition overflow_threshold : Z := Eval vm_compute in 2 ^ 2098.

(** Spacing of the floats around a magnitude [n]: 53 significant bits,
    that is 2 ^ max(0, log2 n - 52). *)
Definition quantum (n : Z) : Z := Z.shiftl 1 (Z.max 0 (Z.log2 n - 52)).

(** [k] is the integer of a finite binary64 value. *)
Definition representable (k : Z) : Prop :=
  Z.abs k < overflow_threshold ∧ k mod quantum (Z.abs k) = 0.

(** Number of trailing zero bits. *)
Fixpoint pos_ctz (p : positive) : Z :=
  match p with
  | xO p' => Z.succ (pos_ctz p')
  | _ => 0
  end.

Definition ctz (k : Z) : Z :=
  match k with
  | Z0 => 0
  | Zpos p | Zneg p => pos_ctz p
  end.

(** Round-to-nearest, ties-to-even, of the rational [a / b] (in units),
    for [0 ≤ a] and [0 < b]: with [n] the integer part and [2^s] the
    spacing of the floats around it, [m = a / (b * 2^s)] rounded down
    and [r] the remainder of that division. *)
Definition round_ratio (a b : Z) : Z :=
  let n := a / b in
  let s := Z.max 0 (Z.log2 n - 52) in
  let m := Z.shiftr n s in
  let d := Z.shiftl b s in
  let r := a - m * d in
  let up := match 2 * r ?= d with
            | Lt => false
            | Gt => true
            | Eq => Z.odd m
            end in
  Z.shiftl (if up then m + 1 else m) s.

(** [round_ratio (x * one) y], computed after cancelling the power of
    two that [one] and [y] share. *)
Definition round_quotient (x y : Z) : Z :=
  let g := Z.min 1074 (ctz y) in
  round_ratio (Z.shiftl x (1074 - g)) (Z.shiftr y g).

Definition round_signed (a b : Z) : Z :=
  if a <? 0 then - round_ratio (- a) b else round_ratio a b.

Definition pack (k : Z) : float :=
  if overflow_threshold <=? Z.abs k then Infinity (k <? 0) else Finite k.

(** int -> float conversion. *)
Definition of_int (n : Z) : float := pack (round_signed (n * one) 1).

Definition add (x y : float) : float :=
  match x, y with
  | Finite a, Finite b => pack (round_signed (a + b) 1)
  | Finite _, Infinity s | Infinity s, Finite _ => Infinity s
  | Infinity s, Infinity t => if Bool.eqb s t then Infinity s else NaN
  | _, _ => NaN
  end.

Definition opp (x : float) : float :=
  match x with
  | Finite a => Finite (- a)
  | Infinity s => Infinity (negb s)
  | NaN => NaN
  end.

Definition sub (x y : float) : float := add x (opp y).

(** IEEE division; a zero divisor gives an infinity or NaN. *)
Definition div (x y : float) : float :=
  match x, y with
  | Finite a, Finite b =>
      if b =? 0 then (if a =? 0 then NaN else Infinity (a <? 0))
      else
        let r := round_quotient (Z.abs a) (Z.abs b) in
        pack (if Bool.eqb (a <? 0) (b <? 0) then r else - r)
  | Finite _, Infinity _ => Finite 0
  | Infinity s, Finite b => Infinity (xorb s (b <? 0))
  | _, _ => NaN
  end.

(** [Z.rem a b], computed after cancelling the power of two that [a] and
    [b] share. *)
Definition rem (a b : Z) : Z :=
  let g := Z.min (ctz a) (ctz b) in
  Z.shiftl (Z.rem (Z.shiftr a g) (Z.shiftr b g)) g.

(** C [fmod]: exact, sign of the dividend. *)
Definition fmod (x y : float) : float :=
  match x, y with
  | Finite a, Finite b => if b =? 0 then NaN else Finite (rem a b)
  | Finite a, Infinity _ => Finite a
  | _, _ => NaN
  end.

Definition floor (x : float) : float :=
  match x with
  | Finite a => Finite (Z.shiftl (Z.shiftr a 1074) 1074)
  | _ => x
  end.

(** C comparisons: false whenever a NaN is involved. *)
Definition ltb (x y : float) : bool :=
  match x, y with
  | Finite a, Finite b => a <? b
  | Finite _, Infinity s => negb s
  | Infinity s, Finite _ => s
  | Infinity s, Infinity t => s && negb t
  | _, _ => false
  end.

Definition is_zero (x : float) : bool :=
  match x with Finite 0 => true | _ => false end.

Definition zero : float := Finite 0.
Definition half : float := Eval vm_compute in Finite (2 ^ 1073).

(** CPython's [_float_div_mod] (Objects/floatobject.c), which implements
    both [//] and [%] on floats. *)
Definition float_div_mod (vx wx : float) : float * float :=
  let mod0 := fmod vx wx in
  let div0 := div (sub vx mod0) wx in
  let '(mod1, div1) :=
    if negb (is_zero mod0) then
      if negb (Bool.eqb (ltb wx zero) (ltb mod0 zero))
      then (add mod0 wx, sub div0 (Finite one))
      else (mod0, div0)
    else (zero, div0) in
  let floordiv :=
    if negb (is_zero div1) then
      let f := floor div1 in
      if ltb half (sub div1 f) then add f (Finite one) else f
    else zero in
  (floordiv, mod1).

(** The quotient that [float_div_mod] returns for a non-negative [vx]
    and a positive [wx = b] whose exact integer quotient is [q]:
    [vx - mod] is then [b * q], rounded. *)
Definition floordiv_of_quotient (b q : Z) : float :=
  let div1 := div (pack (round_signed (b * q) 1)) (Finite b) in
  if negb (is_zero div1) then
    let f := floor div1 in
    if ltb half (sub div1 f) then add f (Finite one) else f
  else zero.

(** [vx // wx] *)
Definition floordiv (vx wx : float) : result float :=
  if is_zero wx then Raise ZeroDivisionError else Ok (fst (float_div_mod vx wx)).

(** [vx % wx] *)
Definition modulo (vx wx : float) : result float :=
  if is_zero wx then Raise ZeroDivisionError else Ok (snd (float_div_mod vx wx)).

(** [vx / wx] on floats *)
Definition truediv (vx wx : float) : result float :=
  if is_zero wx then Raise ZeroDivisionError else Ok (div vx wx).

(** [a / b] on ints: the correctly rounded quotient. *)
Definition int_truediv (a b : Z) : result float :=
  if b =? 0 then Raise ZeroDivisionError
  else
    let r := round_quotient (Z.abs a) (Z.abs b) in
    Ok (pack (if Bool.eqb (a <? 0) (b <? 0) then r else - r)).

(** [int(x)]: truncation towards zero. *)
Definition to_int (x : float) : result Z :=
  match x with
  | Finite a => Ok (if a <? 0 then - Z.shiftr (- a) 1074 else Z.shiftr a 1074)
  | Infinity _ => Raise OverflowError
  | NaN => Raise ValueError
  end.

(** The float [n / 2^s], for literals that are dyadic. *)
Definition dyadic (n s : Z) : float := Finite (n * 2 ^ (1074 - s)).

(** [f] is the finite float with integer [k]. *)
Definition is_finite (k : Z) (f : float) : bool :=
  match f with
  | Finite k' => k' =? k
  | _ => false
  end.

(** The largest float below a float [h] that is not a power of two. *)
Definition pred (h : Z) : Z := h - quantum h.

(** What the proof about one axis of the grid needs of its constants:
    [b] symbols, a range [0, total), the major slice and the sub-slice.
    All of it is checked by computation for each character set. *)
Definition axis_check (b total slice subslice : Z) : bool :=
  (0 <? slice) && (0 <? subslice)
  && ((total - 1) / slice <? b)
  && (slice mod quantum slice =? 0)
  && (2 ^ Z.log2 slice <=? b * subslice)
  && (pred slice <? b * subslice)
  && forallb (λ q, is_finite (q * one) (floordiv_of_quotient slice q))
       (Z.of_nat <$> seq 0 (Z.to_nat b))
  && forallb (λ q, is_finite (q * one) (floordiv_of_quotient subslice q))
       (Z.of_nat <$> seq 0 (Z.to_nat b)).

(** What the proof about the shift [v + h] needs of [h] (180.0 or 90.0). *)
Definition shift_check (h : Z) : bool :=
  (0 <? h) && (h mod quantum h =? 0)
  && (2 ^ Z.log2 h <=? h - 2 * quantum h)
  && ((2 * h - 2 * quantum h) mod quantum (2 * h - 2 * quantum h) =? 0)
  && (2 * h <? overflow_threshold).

End PyFloat.

Import PyFloat (float, Finite, Infinity, NaN).

(** ** Python strings *)

(** [s[i]] for an int index, negative indices counting from the end. *)
Definition str_getitem (s : string) (i : Z) : result ascii :=
  let n := Z.of_nat (String.length s) in
  let j := if i <? 0 then i + n else i in
  if (j <? 0) || (n <=? j) then Raise IndexError
  else match String.get (Z.to_nat j) s with
       | Some c => Ok c
       | None => Raise IndexError
       end.

(** [s.index(c)] for a one-character [c]. *)
Fixpoint str_index (s : string) (c : ascii) : result Z :=
  match s with
  | EmptyString => Raise ValueError
  | String a s' =>
      if Ascii.eqb a c then Ok 0
      else i ← str_index s' c ; Ok (i + 1)
  end.

(** [s.split(sep)] for a one-character separator. *)
Fixpoint str_split (sep : ascii) (s : string) : list string :=
  match s with
  | EmptyString => [EmptyString]
  | String a s' =>
      if Ascii.eqb a sep then EmptyString :: str_split sep s'
      else match str_split sep s' with
           | w :: ws => String a w :: ws
           | [] => [String a EmptyString]
           end
  end.

Definition str_len (s : string) : Z := Z.of_nat (String.length s).

(** ** Constants *)

Definition BASE_B32_CAPS : string := "23456789ABCDEFGHJKLMNPQRSTUVWXYZ".
Definition BASE_B32_LOWER : string := "23456789abcdefghjklmnpqrstuvwxyz".
Definition BASE_B10 : string := "0123456789".
Definition BASE_B16 : string := "0123456789ABCDEF".
Definition BASE_B14 : string := "23456789ABCDEF".

(** The keys of [BASE_CHAR_SETS], the choices of [--base]. *)
Inductive base_name := B32_CAPS | B32_LOWER | B10 | B16 | B14.

Definition BASE_CHAR_SETS (b : base_name) : string :=
  match b with
  | B32_CAPS => BASE_B32_CAPS
  | B32_LOWER => BASE_B32_LOWER
  | B10 => BASE_B10
  | B16 => BASE_B16
  | B14 => BASE_B14
  end.

(** ** The codec, for the active character set

    [base_char_set] is the module-level global that [main] sets from
    [--base]; [encoding_base], [LON_SLICE_SIZE] and [LAT_SLICE_SIZE] are
    recomputed from it there. *)

Section Codec.

Variable base_char_set : string.

Definition encoding_base : Z := str_len base_char_set.

Definition LON_SLICE_SIZE : result float := PyFloat.int_truediv 360 encoding_base.
Definition LAT_SLICE_SIZE : result float := PyFloat.int_truediv 180 encoding_base.

Definition encode_base_str (value : Z) : result ascii :=
  str_getitem base_char_set value.

Definition decode_base_str (char : ascii) : result Z :=
  str_index base_char_set char.

(** One axis of [encode_grid]: the major and the sub index. *)
Definition grid_major (v : float) (slice_size : float) : result Z :=
  d ← PyFloat.floordiv v slice_size ; PyFloat.to_int d.

Definition grid_sub (v : float) (slice_size : float) : result Z :=
  m ← PyFloat.modulo v slice_size ;
  s ← PyFloat.truediv slice_size (PyFloat.of_int encoding_base) ;
  d ← PyFloat.floordiv m s ;
  PyFloat.to_int d.

Definition encode_grid (lon lat : float) : result string :=
  let lon := PyFloat.add lon (PyFloat.of_int 180) in
  let lat := PyFloat.add lat (PyFloat.of_int 90) in
  lon_slice ← LON_SLICE_SIZE ;
  lat_slice ← LAT_SLICE_SIZE ;
  lon_major ← grid_major lon lon_slice ;
  lat_major ← grid_major lat lat_slice ;
  lon_sub ← grid_sub lon lon_slice ;
  lat_sub ← grid_sub lat lat_slice ;
  c1 ← encode_base_str lon_major ;
  c2 ← encode_base_str lon_sub ;
  c3 ← encode_base_str lat_major ;
  c4 ← encode_base_str lat_sub ;
  Ok (String c1 (String c2 (String c3 (String c4 EmptyString)))).

(** The first loop of [encode_counter].  With a base of 2 or more the
    counter at least halves at every turn, so [Z.to_nat counter] turns
    are enough; with a one-symbol character set the Python loop never
    exits, and the fuel runs out. *)
Fixpoint encode_counter_digits (fuel : nat) (counter : Z) (encoded : string)
  : result string :=
  if 0 <? counter then
    match fuel with
    | O => Diverge
    | S fuel' =>
        if encoding_base =? 0 then Raise ZeroDivisionError
        else
          c ← str_getitem base_char_set (counter mod encoding_base) ;
          encode_counter_digits fuel' (counter / encoding_base) (String c encoded)
    end
  else Ok encoded.

(** The second loop: [n] is the number of turns, [zero_padding - len(encoded)]. *)
Fixpoint encode_counter_pad (n : nat) (encoded : string) : result string :=
  match n with
  | O => Ok encoded
  | S n' =>
      c ← str_getitem base_char_set 0 ;
      encode_counter_pad n' (String c encoded)
  end.

Definition encode_counter (counter zero_padding : Z) : result string :=
  encoded ← encode_counter_digits (Z.to_nat counter) counter EmptyString ;
  encode_counter_pad (Z.to_nat (zero_padding - str_len encoded)) encoded.

Fixpoint decode_counter_from (counter : Z) (encoded_counter : string) : result Z :=
  match encoded_counter with
  | EmptyString => Ok counter
  | String char rest =>
      d ← decode_base_str char ;
      decode_counter_from (counter * encoding_base + d) rest
  end.

Definition decode_counter (encoded_counter : string) : result Z :=
  decode_counter_from 0 encoded_counter.

End Codec.

(** ** Checked constants of the grid

    The slice sizes are the doubles that [360 / encoding_base] and
    [LON_SLICE_SIZE / encoding_base] round to; the properties of the grid
    encoder rest on arithmetic facts about these particular doubles, which
    are computed and checked here for a given character set. *)

Definition finite_value (r : result float) : option Z :=
  match r with
  | Ok (Finite k) => Some k
  | _ => None
  end.

Definition grid_axis_check (base_char_set : string) (degrees : Z) : bool :=
  let b := encoding_base base_char_set in
  match finite_value (PyFloat.int_truediv degrees b) with
  | Some slice =>
      match finite_value (PyFloat.truediv (Finite slice) (PyFloat.of_int b)) with
      | Some subslice => PyFloat.axis_check b (degrees * PyFloat.one) slice subslice
      | None => false
      end
  | None => false
  end.

Definition grid_check (base_char_set : string) : bool :=
  grid_axis_check base_char_set 360 && grid_axis_check base_char_set 180
  && PyFloat.shift_check (180 * PyFloat.one) && PyFloat.shift_check (90 * PyFloat.one)
  && PyFloat.is_finite (180 * PyFloat.one) (PyFloat.of_int 180)
  && PyFloat.is_finite (90 * PyFloat.one) (PyFloat.of_int 90).

(** The characters of a string. *)
Definition chars (s : string) : list ascii := list_ascii_of_string s.

(** ** The feature collection *)

(** A row of the data frame: the ReefID attribute and the centroid of the
    geometry (in EPSG:4326), which is all the allocator reads.  Every row
    has a geometry: a row whose geometry is null, for which [geom.x] raises
    AttributeError, is not represented. *)
Record feature := Feature {
  ReefID : option string;
  centroid_x : float;
  centroid_y : float
}.

Global Instance float_eq_dec : EqDecision float.
Proof. solve_decision. Defined.

Global Instance feature_eq_dec : EqDecision feature.
Proof. solve_decision. Defined.

Definition set_ReefID (new_reef_id : string) (row : feature) : feature :=
  {| ReefID := Some new_reef_id;
     centroid_x := centroid_x row;
     centroid_y := centroid_y row |}.

(** [geom.x + geom.y] *)
Definition centroid_sum (row : feature) : float :=
  PyFloat.add (centroid_x row) (centroid_y row).

(** ** Sorting and grouping *)

(** Ascending order of the sort key, NaN last (pandas' [na_position]). *)
Definition float_rank (x : float) : Z * Z :=
  match x with
  | Infinity true => (0, 0)
  | Finite k => (1, k)
  | Infinity false => (2, 0)
  | NaN => (3, 0)
  end.

Definition float_leb (x y : float) : bool :=
  let '(a, k) := float_rank x in
  let '(b, l) := float_rank y in
  (a <? b) || ((a =? b) && (k <=? l)).

(** [sort_values(by='centroid_sum')] on the rows of one grid cell, each
    paired with its index label.  Rows with equal keys keep their relative
    order here; pandas' default sort does not promise that order, and the
    results stated for all frames use only that the outcome is a sorted
    permutation of the rows. *)
Fixpoint sort_insert (x : nat * feature) (l : list (nat * feature)) : list (nat * feature) :=
  match l with
  | [] => [x]
  | y :: l' =>
      if float_leb (centroid_sum (snd x)) (centroid_sum (snd y))
      then x :: y :: l'
      else y :: sort_insert x l'
  end.

Fixpoint sort_values (l : list (nat * feature)) : list (nat * feature) :=
  match l with
  | [] => []
  | x :: l' => sort_insert x (sort_values l')
  end.

(** [Series.unique()]: the distinct values in order of first appearance. *)
Fixpoint unique (l : list string) : list string :=
  match l with
  | [] => []
  | x :: l' => x :: filter (λ y, y ≠ x) (unique l')
  end.

(** The rows of the frame with their index labels. *)
Definition iterrows (gdf : list feature) : list (nat * feature) :=
  imap (λ idx row, (idx, row)) gdf.

(** ** Allocation state *)

Record alloc_state := AllocState {
  grid_feature_count : gmap string (gmap string Z);
  grid_existing_ids : gmap string (gmap string (gset string))
}.

Definition initial_state : alloc_state :=
  {| grid_feature_count := ∅; grid_existing_ids := ∅ |}.

(** [d[k]] on a dictionary. *)
Definition dict_get {V} (d : gmap string V) (k : string) : result V :=
  match d !! k with
  | Some v => Ok v
  | None => Raise KeyError
  end.

(** One line of the assignment log, with the counter that was committed. *)
Record assignment := Assignment {
  asg_idx : nat;
  asg_grid_scheme : string;
  asg_new_counter : Z;
  asg_new_reef_id : string
}.

Section Allocator.

Variable base_char_set : string.
Variable prefix : string.
Variable zero_padding : Z.

(** The body of the first loop of [process_shapefile], for a row whose
    ReefID is not null. *)
Definition register_existing (st : alloc_state) (reef_id : string) : result alloc_state :=
  match str_split "-" reef_id with
  | [existing_prefix; grid_scheme; feature_counter] =>
      let fresh := bool_decide (grid_existing_ids st !! existing_prefix = None) in
      let existing1 :=
        if fresh then <[existing_prefix := ∅]> (grid_existing_ids st)
        else grid_existing_ids st in
      let count1 :=
        if fresh then <[existing_prefix := ∅]> (grid_feature_count st)
        else grid_feature_count st in
      ids_p ← dict_get existing1 existing_prefix ;
      let ids := default ∅ (ids_p !! grid_scheme) in
      let existing2 :=
        <[existing_prefix := <[grid_scheme := ids ∪ {[feature_counter]}]> ids_p]> existing1 in
      count_p ← dict_get count1 existing_prefix ;
      let current := default 0 (count_p !! grid_scheme) in
      decoded ← decode_counter base_char_set feature_counter ;
      Ok {| grid_feature_count :=
              <[existing_prefix := <[grid_scheme := Z.max current (decoded + 1)]> count_p]> count1;
            grid_existing_ids := existing2 |}
  | _ => Raise ValueError
  end.

Fixpoint process_existing (rows : list feature) (st : alloc_state) : result alloc_state :=
  match rows with
  | [] => Ok st
  | row :: rows' =>
      match ReefID row with
      | Some reef_id =>
          st' ← register_existing st reef_id ;
          process_existing rows' st'
      | None => process_existing rows' st
      end
  end.

(** The collision loop.  Every turn found [encoded] in [occupied]; the
    counters tried are distinct, so the loop body runs at most
    [size occupied] times. *)
Fixpoint skip_occupied (fuel : nat) (occupied : gset string)
    (new_counter : Z) (encoded_counter : string) : result (Z * string) :=
  if bool_decide (encoded_counter ∈ occupied) then
    match fuel with
    | O => Diverge
    | S fuel' =>
        encoded ← encode_counter base_char_set (new_counter + 1) zero_padding ;
        skip_occupied fuel' occupied (new_counter + 1) encoded
    end
  else Ok (new_counter, encoded_counter).

(** The body of the assignment loop for an unlabelled row of the cell
    [grid_scheme]: the committed counter, the new ReefID and the state. *)
Definition assign_reef_id (grid_scheme : string) (st : alloc_state)
  : result (Z * string * alloc_state) :=
  let fresh := bool_decide (grid_feature_count st !! prefix = None) in
  let count1 :=
    if fresh then <[prefix := ∅]> (grid_feature_count st) else grid_feature_count st in
  let existing1 :=
    if fresh then <[prefix := ∅]> (grid_existing_ids st) else grid_existing_ids st in
  count_p ← dict_get count1 prefix ;
  let count_p' :=
    match count_p !! grid_scheme with
    | None => <[grid_scheme := 0]> count_p
    | Some _ => count_p
    end in
  let new_counter := default 0 (count_p' !! grid_scheme) in
  encoded_counter ← encode_counter base_char_set new_counter zero_padding ;
  ids_p ← dict_get existing1 prefix ;
  let occupied := default ∅ (ids_p !! grid_scheme) in
  '(new_counter, encoded_counter) ←
    skip_occupied (size occupied) occupied new_counter encoded_counter ;
  let new_reef_id := prefix +:+ "-" +:+ grid_scheme +:+ "-" +:+ encoded_counter in
  Ok (new_counter, new_reef_id,
      {| grid_feature_count :=
           <[prefix := <[grid_scheme := new_counter + 1]> count_p']> count1;
         grid_existing_ids := existing1 |}).

(** The inner loop over the sorted rows of one cell.  [row] is the row of
    [sub_gdf], the copy taken when the cell was selected. *)
Fixpoint assign_rows (grid_scheme : string) (sub_gdf : list (nat * feature))
    (gdf : list feature) (st : alloc_state) (log : list assignment)
  : result (list feature * alloc_state * list assignment) :=
  match sub_gdf with
  | [] => Ok (gdf, st, log)
  | (idx, row) :: rest =>
      match ReefID row with
      | None =>
          '(new_counter, new_reef_id, st') ← assign_reef_id grid_scheme st ;
          assign_rows grid_scheme rest
            (alter (set_ReefID new_reef_id) idx gdf) st'
            (log ++ [Assignment idx grid_scheme new_counter new_reef_id])
      | Some _ => assign_rows grid_scheme rest gdf st log
      end
  end.

(** [gdf[grid_schemes == grid_scheme]] *)
Definition select_cell (grid_schemes : list string) (grid_scheme : string)
    (gdf : list feature) : list (nat * feature) :=
  filter (λ ir, grid_schemes !! ir.1 = Some grid_scheme) (iterrows gdf).

(** The outer loop over the distinct grid codes. *)
Fixpoint assign_cells (cells : list string) (grid_schemes : list string)
    (gdf : list feature) (st : alloc_state) (log : list assignment)
  : result (list feature * alloc_state * list assignment) :=
  match cells with
  | [] => Ok (gdf, st, log)
  | grid_scheme :: cells' =>
      let sub_gdf := sort_values (select_cell grid_schemes grid_scheme gdf) in
      '(gdf', st', log') ← assign_rows grid_scheme sub_gdf gdf st log ;
      assign_cells cells' grid_schemes gdf' st' log'
  end.

(** [gdf['centroid'].apply(lambda geom: encode_grid(geom.x, geom.y))] *)
Fixpoint encode_grids (rows : list feature) : result (list string) :=
  match rows with
  | [] => Ok []
  | row :: rows' =>
      g ← encode_grid base_char_set (centroid_x row) (centroid_y row) ;
      gs ← encode_grids rows' ;
      Ok (g :: gs)
  end.

(** [process_shapefile] from the loaded frame to the frame that is saved,
    with the final allocation state and the assignment log. *)
Definition allocate (gdf : list feature)
  : result (list feature * alloc_state * list assignment) :=
  st ← process_existing gdf initial_state ;
  grid_schemes ← encode_grids gdf ;
  assign_cells (unique grid_schemes) grid_schemes gdf st [].

Definition process_shapefile (gdf : list feature) : result (list feature) :=
  '(gdf', _, _) ← allocate gdf ;
  Ok gdf'.

End Allocator.

(** ** Views of the allocation state *)

(** The next untried counter of a (prefix, grid code) pair: 0 if unseen. *)
Definition next_counter (st : alloc_state) (p g : string) : Z :=
  default 0 (grid_feature_count st !! p ≫= λ d, d !! g).

(** The counter codes registered for a (prefix, grid code) pair. *)
Definition occupied (st : alloc_state) (p g : string) : gset string :=
  default ∅ (grid_existing_ids st !! p ≫= λ d, d !! g).

(** The two dictionaries have the same prefixes as keys. *)
Definition synced (st : alloc_state) : Prop :=
  ∀ p, grid_feature_count st !! p = None ↔ grid_existing_ids st !! p = None.

(** An identifier that the first loop can register. *)
Definition well_formed_id (base_char_set : string) (reef_id : string) : Prop :=
  ∃ p g c d, str_split "-" reef_id = [p; g; c]
             ∧ decode_counter base_char_set c = Ok d.

(** The identifiers already present in a frame. *)
Definition existing_ids (gdf : list feature) : list string :=
  omap ReefID gdf.

(** The first loop, as a fold over the identifiers present. *)
Fixpoint register_all (base_char_set : string) (ids : list string) (st : alloc_state)
  : result alloc_state :=
  match ids with
  | [] => Ok st
  | reef_id :: ids' =>
      st' ← register_existing base_char_set st reef_id ;
      register_all base_char_set ids' st'
  end.

(** Two states that the assignment loop cannot tell apart. *)
Definition same_views (st1 st2 : alloc_state) : Prop :=
  ∀ p g, occupied st1 p g = occupied st2 p g
         ∧ next_counter st1 p g = next_counter st2 p g.

(** No (prefix, grid code) pair has a negative next counter. *)
Definition counters_nonneg (st : alloc_state) : Prop :=
  ∀ p g, 0 ≤ next_counter st p g.

(** The counter that the assignment loop commits when the stored next
    counter is [n] and the occupied codes are [occ], with its code. *)
Definition next_free (base_char_set : string) (zero_padding : Z)
    (occ : gset string) (n : Z) : result (Z * string) :=
  encoded ← encode_counter base_char_set n zero_padding ;
  skip_occupied base_char_set zero_padding (size occ) occ n encoded.

(** The identifier built from its three parts. *)
Definition make_id (prefix grid_scheme encoded_counter : string) : string :=
  prefix +:+ "-" +:+ grid_scheme +:+ "-" +:+ encoded_counter.

(** A string without the separator of the identifiers. *)
Definition hyphen_free (s : string) : Prop := "-"%char ∉ chars s.

(** The row at index [i] carries an identifier. *)
Definition labeled (gdf : list feature) (i : nat) : Prop :=
  ∃ row reef_id, gdf !! i = Some row ∧ ReefID row = Some reef_id.

(** Within a grid cell, later log lines carry larger counters. *)
Definition increasing_per_cell (log : list assignment) : Prop :=
  StronglySorted
    (λ e1 e2, asg_grid_scheme e1 = asg_grid_scheme e2 →
              asg_new_counter e1 < asg_new_counter e2) log.

(** A row of the current frame against the row loaded at the same index:
    untouched, or relabelled by a log line when it had no identifier. *)
Definition row_ok (log : list assignment) (i : nat) (row0 row : feature) : Prop :=
  match ReefID row0 with
  | Some _ => row = row0
  | None =>
      row = row0
      ∨ ∃ e, e ∈ log ∧ asg_idx e = i ∧ row = set_ReefID (asg_new_reef_id e) row0
  end.

(** A log line against the state [st0] left by the first loop and the
    current state [st]. *)
Definition entry_ok (base_char_set prefix : string) (zero_padding : Z)
    (st0 st : alloc_state) (e : assignment) : Prop :=
  ∃ enc,
    asg_new_reef_id e = make_id prefix (asg_grid_scheme e) enc
    ∧ encode_counter base_char_set (asg_new_counter e) zero_padding = Ok enc
    ∧ 0 ≤ asg_new_counter e < next_counter st prefix (asg_grid_scheme e)
    ∧ enc ∉ occupied st0 prefix (asg_grid_scheme e).

(** The invariant of the assignment loops. *)
Record run_invariant (base_char_set prefix : string) (zero_padding : Z)
    (gdf0 : list feature) (st0 : alloc_state)
    (gdf : list feature) (st : alloc_state) (log : list assignment) : Prop := {
  inv_length : length gdf = length gdf0;
  inv_rows : ∀ i row0 row, gdf0 !! i = Some row0 → gdf !! i = Some row →
                           row_ok log i row0 row;
  inv_synced : synced st;
  inv_nonneg : counters_nonneg st;
  inv_occupied : ∀ p g, occupied st p g = occupied st0 p g;
  inv_entries : Forall (entry_ok base_char_set prefix zero_padding st0 st) log;
  inv_grids : Forall (λ e, hyphen_free (asg_grid_scheme e)) log;
  inv_increasing : increasing_per_cell log
}.

(** ** The self-check and the command line *)

(** [run_tests]: the single test case [(147, -20, 'XE4G')]. *)
Definition run_tests (base_char_set : string) : result unit :=
  encoded ← encode_grid base_char_set (PyFloat.of_int 147) (PyFloat.of_int (-20)) ;
  if bool_decide (encoded = "XE4G") then Ok () else Raise AssertionError.

(** The parsed command line. *)
Record arguments := Arguments {
  args_input : option string;
  args_output : option string;
  args_prefix : string;
  args_zero_padding : Z;
  args_base : base_name;
  args_test : bool
}.

Inductive outcome :=
| ParserError
| Tested (r : result unit)
| Processed (r : result (list feature)).

(** Truth value of an optional path. *)
Definition path_given (s : option string) : bool :=
  match s with
  | Some (String _ _) => true
  | _ => false
  end.

(** [all([args.input, args.output, args.prefix, args.zero_padding])] *)
Definition required_arguments_given (args : arguments) : bool :=
  path_given (args_input args) && path_given (args_output args)
  && path_given (Some (args_prefix args))
  && negb (args_zero_padding args =? 0).

(** [main], with [gdf] the frame found at the input path. *)
Definition main (args : arguments) (gdf : list feature) : outcome :=
  let base_char_set := BASE_CHAR_SETS (args_base args) in
  if args_test args then Tested (run_tests base_char_set)
  else if negb (required_arguments_given args) then ParserError
  else Processed (process_shapefile base_char_set (args_prefix args)
                    (args_zero_padding args) gdf).

(** A symbol repeated [n] times. *)
Fixpoint repeat_symbol (c : ascii) (n : nat) : string :=
  match n with
  | O => EmptyString
  | S n' => String c (repeat_symbol c n')
  end.

(** ** The assignment in closed form *)

(** The grid code of a row. *)
Definition grid_of (base_char_set : string) (row : feature) : result string :=
  encode_grid base_char_set (centroid_x row) (centroid_y row).

(** [row'] comes strictly before [row] in the order of [sort_values]. *)
Definition sum_ltb (row' row : feature) : bool :=
  float_leb (centroid_sum row') (centroid_sum row)
  && negb (float_leb (centroid_sum row) (centroid_sum row')).

(** The rows that are processed before [row] in its cell, when no two
    unlabelled rows of the cell have the same centroid sum. *)
Definition before_in_cell (base_char_set : string) (row row' : feature) : bool :=
  bool_decide (ReefID row' = None)
  && bool_decide (grid_of base_char_set row' = grid_of base_char_set row)
  && sum_ltb row' row.

Definition cell_rank (base_char_set : string) (gdf : list feature) (row : feature) : nat :=
  length (filter (λ row', before_in_cell base_char_set row row' = true) gdf).

(** The counter committed for the unlabelled row of rank [k] in a cell
    whose next counter was [n] and whose occupied codes are [occ]. *)
Fixpoint nth_free (base_char_set : string) (zero_padding : Z)
    (occ : gset string) (n : Z) (k : nat) : result (Z * string) :=
  match k with
  | O => next_free base_char_set zero_padding occ n
  | S k' =>
      '(c, _) ← next_free base_char_set zero_padding occ n ;
      nth_free base_char_set zero_padding occ (c + 1) k'
  end.

(** The row that a run returns for [row], given the state [st0] left by
    the first loop and the rank [k] of the row in its cell. *)
Definition allocated_row (base_char_set prefix : string) (zero_padding : Z)
    (st0 : alloc_state) (k : nat) (row : feature) : feature :=
  match ReefID row with
  | Some _ => row
  | None =>
      match grid_of base_char_set row with
      | Ok g =>
          match nth_free base_char_set zero_padding
                  (occupied st0 prefix g) (next_counter st0 prefix g) k with
          | Ok (_, enc) => set_ReefID (make_id prefix g enc) row
          | _ => row
          end
      | _ => row
      end
  end.

(** No two unlabelled rows of one grid cell have the same centroid sum. *)
Definition distinct_sums (base_char_set : string) (gdf : list feature) : Prop :=
  ∀ i j row row', i ≠ j → gdf !! i = Some row → gdf !! j = Some row' →
    ReefID row = None → ReefID row' = None →
    grid_of base_char_set row = grid_of base_char_set row' →
    centroid_sum row ≠ centroid_sum row'.

(** The order in which [sort_values] leaves the rows. *)
Definition sum_le (x y : nat * feature) : Prop :=
  float_leb (centroid_sum x.2) (centroid_sum y.2) = true.

(** Number of rows without an identifier in a list of indexed rows. *)
Definition count_unlabeled (sub : list (nat * feature)) : nat :=
  length (filter (λ ir : nat * feature, ReefID ir.2 = None) sub).

(** The invariant of the outer loop for the closed form: the rows of the
    cells in [visited] have their final value, the others are as loaded. *)
Definition closed_invariant (base_char_set prefix : string) (zero_padding : Z)
    (gdf0 : list feature) (gs : list string) (st0 : alloc_state)
    (visited : list string) (gdf : list feature) (st : alloc_state) : Prop :=
  length gdf = length gdf0
  ∧ (∀ i row0 g, gdf0 !! i = Some row0 → gs !! i = Some g →
       gdf !! i
       = Some (if decide (g ∈ visited)
               then allocated_row base_char_set prefix zero_padding st0
                      (cell_rank base_char_set gdf0 row0) row0
               else row0))
  ∧ synced st ∧ counters_nonneg st
  ∧ (∀ p g, occupied st p g = occupied st0 p g)
  ∧ (∀ g, g ∉ visited → next_counter st prefix g = next_counter st0 prefix g).

(** A log line is for the row's own grid cell and commits a counter that
    is not below the next counter left by the first loop. *)
Definition entry_located (prefix : string) (gs : list string) (st0 : alloc_state)
    (e : assignment) : Prop :=
  gs !! asg_idx e = Some (asg_grid_scheme e)
  ∧ next_counter st0 prefix (asg_grid_scheme e) ≤ asg_new_counter e.

(** [x] lies in the sub-cell [sub] of the slice [major], for a slice size
    and a sub-slice size given in units. *)
Definition in_cell (slice subslice major sub x : Z) : Prop :=
  major * slice + sub * subslice ≤ x < major * slice + (sub + 1) * subslice.

(** The log of a run. *)
Definition assignment_log (base_char_set prefix : string) (zero_padding : Z)
    (gdf : list feature) : result (list assignment) :=
  '(_, _, log) ← allocate base_char_set prefix zero_padding gdf ;
  Ok log.

(** ** Sample features

    Two unlabelled features of the B10 cell 9038 whose centroid sums are
    both 127.0, at (147, -20) and (147.125, -20.125), and a third one of
    the same cell with the larger sum 127.25, at (147.25, -20). *)
Definition reef_a : feature :=
  Feature None (PyFloat.of_int 147) (PyFloat.of_int (-20)).
Definition reef_b : feature :=
  Feature None (PyFloat.dyadic 1177 3) (PyFloat.dyadic (-161) 3).
Definition reef_c : feature :=
  Feature None (PyFloat.dyadic 589 2) (PyFloat.of_int (-20)).

(** * Properties *)

(** ** The result monad *)

Lemma bind_Ok {A B} (c : result A) (k : A → result B) b :
  c ≫= k = Ok b ↔ ∃ a, c = Ok a ∧ k a = Ok b.
Proof.
  destruct c; simpl; split; try (intros [a' [? ?]]); try discriminate; eauto.
  - intros. simplify_eq. done.
Qed.

Ltac inv_bind H :=
  let a := fresh "a" in
  let Ha := fresh "E" in
  apply bind_Ok in H; destruct H as (a & Ha & H).

(** ** Strings *)

Lemma string_get_index s n c :
  NoDup (chars s) → String.get n s = Some c → str_index s c = Ok (Z.of_nat n).
Proof.
  revert n. induction s as [|a s IH]; intros n Hnd Hget; [done|].
  simpl in Hnd. apply NoDup_cons in Hnd as [Hnotin Hnd].
  destruct n as [|n]; simpl in *.
  - simplify_eq. by rewrite Ascii.eqb_refl.
  - destruct (Ascii.eqb a c) eqn:Heq.
    + apply Ascii.eqb_eq in Heq as ->. exfalso. apply Hnotin.
      clear -Hget. revert n Hget. induction s as [|b s IH]; intros n Hget; [done|].
      destruct n; simpl in *; simplify_eq; [left | right; eauto].
    + rewrite (IH n Hnd Hget). simpl. f_equal. lia.
Qed.

Lemma string_get_lt s n : (n < String.length s)%nat → is_Some (String.get n s).
Proof.
  revert n. induction s as [|a s IH]; intros n Hn; simpl in *; [lia|].
  destruct n; [eauto|]. apply IH. lia.
Qed.

Lemma str_getitem_Ok s i :
  0 ≤ i < str_len s → ∃ c, str_getitem s i = Ok c ∧ String.get (Z.to_nat i) s = Some c.
Proof.
  intros Hi. unfold str_getitem, str_len in *.
  destruct (i <? 0) eqn:E1; [lia|].
  destruct (i <? 0) eqn:E2; [lia|].
  destruct (Z.of_nat (String.length s) <=? i) eqn:E3; [lia|]. simpl.
  destruct (string_get_lt s (Z.to_nat i)) as [c Hc]; [lia|].
  exists c. by rewrite Hc.
Qed.

Lemma str_getitem_index s i c :
  NoDup (chars s) → 0 ≤ i → str_getitem s i = Ok c → str_index s c = Ok i.
Proof.
  intros Hnd Hi H. unfold str_getitem in H.
  destruct (i <? 0) eqn:E1; [lia|].
  destruct (_ || _); [done|].
  destruct (String.get _ _) eqn:Hget; [|done]. simplify_eq.
  rewrite (string_get_index _ _ _ Hnd Hget). f_equal. lia.
Qed.

(** ** Counter codes *)

Section CounterFacts.

Variable base_char_set : string.
Hypothesis distinct_symbols : NoDup (chars base_char_set).

Local Abbreviation B := (encoding_base base_char_set).

Lemma encode_counter_digits_value fuel counter encoded s :
  0 ≤ counter →
  encode_counter_digits base_char_set fuel counter encoded = Ok s →
  decode_counter_from base_char_set 0 s
  = decode_counter_from base_char_set counter encoded.
Proof.
  revert counter encoded. induction fuel as [|fuel IH]; intros counter encoded Hc H; simpl in H.
  - destruct (0 <? counter) eqn:E; [done|]. simplify_eq.
    by replace counter with 0 by lia.
  - destruct (0 <? counter) eqn:E; [|simplify_eq; by replace counter with 0 by lia].
    destruct (B =? 0) eqn:EB; [done|].
    inv_bind H.
    assert (0 < B) by (unfold encoding_base, str_len in *; lia).
    apply IH in H; [|by apply Z.div_pos].
    rewrite H. simpl. unfold decode_base_str.
    rewrite (str_getitem_index _ _ _ distinct_symbols (proj1 (Z.mod_pos_bound counter B ltac:(lia))) E0).
    simpl. f_equal. rewrite (Z.mul_comm _ B). symmetry. apply Z.div_mod. lia.
Qed.

Lemma encode_counter_pad_value n encoded s :
  encode_counter_pad base_char_set n encoded = Ok s →
  decode_counter_from base_char_set 0 s
  = decode_counter_from base_char_set 0 encoded.
Proof.
  revert encoded. induction n as [|n IH]; intros encoded H; simpl in H; [by simplify_eq|].
  inv_bind H. apply IH in H. rewrite H. simpl. unfold decode_base_str.
  by rewrite (str_getitem_index _ _ _ distinct_symbols (Z.le_refl 0) E).
Qed.

(** Whenever [encode_counter] returns, [decode_counter] inverts it. *)
Lemma decode_encode_counter n w s :
  0 ≤ n →
  encode_counter base_char_set n w = Ok s →
  decode_counter base_char_set s = Ok n.
Proof.
  intros Hn H. unfold encode_counter in H. inv_bind H.
  unfold decode_counter.
  rewrite (encode_counter_pad_value _ _ _ H).
  by rewrite (encode_counter_digits_value _ _ _ _ Hn E).
Qed.

(** With at least two symbols, the digit loop exits. *)
Lemma encode_counter_digits_total fuel counter encoded :
  2 ≤ B → counter ≤ Z.of_nat fuel →
  ∃ s, encode_counter_digits base_char_set fuel counter encoded = Ok s.
Proof.
  intros HB. revert counter encoded.
  induction fuel as [|fuel IH]; intros counter encoded Hf; simpl.
  - destruct (0 <? counter) eqn:E; [exfalso; lia|eauto].
  - destruct (0 <? counter) eqn:E; [|eauto].
    destruct (B =? 0) eqn:EB; [lia|].
    destruct (str_getitem_Ok base_char_set (counter mod B)) as (c & -> & _).
    { apply Z.mod_pos_bound. unfold encoding_base in *. lia. }
    simpl. apply IH.
    assert (counter / B < counter) by (apply Z.div_lt; lia). lia.
Qed.

Lemma encode_counter_pad_total n encoded :
  1 ≤ B → ∃ s, encode_counter_pad base_char_set n encoded = Ok s.
Proof.
  intros HB. revert encoded. induction n as [|n IH]; intros encoded; simpl; [eauto|].
  destruct (str_getitem_Ok base_char_set 0) as (c & -> & _); [unfold encoding_base in HB; lia|].
  simpl. apply IH.
Qed.

Lemma encode_counter_total n w :
  2 ≤ B → ∃ s, encode_counter base_char_set n w = Ok s.
Proof.
  intros HB. unfold encode_counter.
  destruct (encode_counter_digits_total (Z.to_nat n) n EmptyString HB) as [e ->]; [lia|].
  simpl. apply encode_counter_pad_total. lia.
Qed.

(** Distinct counters have distinct codes. *)
Lemma encode_counter_inj n m w s :
  0 ≤ n → 0 ≤ m →
  encode_counter base_char_set n w = Ok s →
  encode_counter base_char_set m w = Ok s →
  n = m.
Proof.
  intros Hn Hm H1 H2.
  apply decode_encode_counter in H1; [|done].
  apply decode_encode_counter in H2; [|done]. congruence.
Qed.

End CounterFacts.

(** ** Floats: representable values and rounding *)

Module PyFloatFacts.
Import PyFloat.

Lemma quantum_eq n : quantum n = 2 ^ Z.max 0 (Z.log2 n - 52).
Proof. unfold quantum. rewrite Z.shiftl_1_l. done. Qed.

Lemma one_eq : one = 2 ^ 1074.
Proof. vm_compute. reflexivity. Qed.

Lemma one_pos : 0 < one.
Proof. rewrite one_eq. apply Z.pow_pos_nonneg; lia. Qed.

Lemma representable_divide k : representable k → (quantum (Z.abs k) | k).
Proof.
  intros [_ H]. apply Z.mod_divide; [|done].
  rewrite quantum_eq. apply Z.pow_nonzero; lia.
Qed.

Lemma quantum_pos n : 0 < quantum n.
Proof. rewrite quantum_eq. apply Z.pow_pos_nonneg; lia. Qed.

Lemma pow2_divide a b : 0 ≤ a ≤ b → (2 ^ a | 2 ^ b).
Proof.
  intros H. exists (2 ^ (b - a)). rewrite <- Z.pow_add_r by lia. f_equal. lia.
Qed.

Lemma quantum_mono n m : n ≤ m → (quantum n | quantum m).
Proof.
  intros H. rewrite !quantum_eq. apply pow2_divide.
  pose proof (Z.log2_le_mono n m H). lia.
Qed.

(** [fmod] of two floats is a float. *)
Lemma quantum_divide_mod a b :
  0 ≤ a → 0 < b → (quantum a | a) → (quantum b | b) →
  (quantum (a mod b) | a mod b).
Proof.
  intros Ha Hb Hqa Hqb.
  pose proof (Z.mod_pos_bound a b Hb) as [Hr0 Hrb].
  assert (a mod b ≤ a) by (apply Z.mod_le; lia).
  rewrite Z.mod_eq at 2 by lia.
  apply Z.divide_sub_r.
  - etrans; [apply quantum_mono|exact Hqa]. lia.
  - apply Z.divide_mul_l. etrans; [apply quantum_mono|exact Hqb]. lia.
Qed.

(** Below a float [s], the next float is at least one quantum away. *)
Lemma float_below x s :
  0 ≤ x < s → (quantum x | x) → (quantum s | s) → x ≤ s - quantum x.
Proof.
  intros Hx Hqx Hqs.
  assert (quantum x | s - x) as [j Hj].
  { apply Z.divide_sub_r; [|done]. etrans; [apply quantum_mono|exact Hqs]. lia. }
  pose proof (quantum_pos x) as Hq.
  assert (1 ≤ j) by (destruct (decide (j ≤ 0)); [exfalso; nia|lia]).
  assert (quantum x ≤ j * quantum x) by nia. lia.
Qed.

Lemma quantum_same_binade x s :
  0 < s → 2 ^ Z.log2 s ≤ x ≤ s → quantum x = quantum s.
Proof.
  intros Hs [H1 H2]. rewrite !quantum_eq.
  assert (Z.log2 x = Z.log2 s) as ->; [|done].
  apply Z.le_antisymm; [by apply Z.log2_le_mono|].
  pose proof (Z.log2_nonneg s).
  rewrite <- (Z.log2_pow2 (Z.log2 s)) at 1 by done.
  by apply Z.log2_le_mono.
Qed.

(** *** The shift-based definitions compute the plain ones *)

Lemma shiftl_pow2 x s : 0 ≤ s → Z.shiftl x s = x * 2 ^ s.
Proof. intros. by apply Z.shiftl_mul_pow2. Qed.

Lemma pos_ctz_nonneg p : 0 ≤ pos_ctz p.
Proof. induction p; simpl; lia. Qed.

Lemma pos_ctz_divide p : (2 ^ pos_ctz p | Z.pos p).
Proof.
  induction p as [p _|p IH|]; simpl pos_ctz; try apply Z.divide_1_l.
  pose proof (pos_ctz_nonneg p).
  rewrite Z.pow_succ_r by done. destruct IH as [j Hj].
  exists j. rewrite Pos2Z.inj_xO, Hj. lia.
Qed.

Lemma ctz_nonneg k : 0 ≤ ctz k.
Proof. destruct k; simpl; try apply pos_ctz_nonneg; lia. Qed.

Lemma ctz_divide k g : 0 ≤ g ≤ ctz k → (2 ^ g | k).
Proof.
  intros Hg. etrans; [apply pow2_divide; exact Hg|].
  destruct k as [|p|p]; simpl.
  - apply Z.divide_0_r.
  - apply pos_ctz_divide.
  - rewrite <- Pos2Z.opp_pos. apply Z.divide_opp_r, pos_ctz_divide.
Qed.

Lemma shiftr_exact k g : 0 ≤ g → (2 ^ g | k) → Z.shiftr k g * 2 ^ g = k.
Proof.
  intros Hg [j ->]. rewrite Z.shiftr_div_pow2 by done.
  rewrite Z.div_mul; [done|]. apply Z.pow_nonzero; lia.
Qed.

Lemma round_ratio_plain a b :
  0 ≤ a → 0 < b →
  round_ratio a b
  = let q := quantum (a / b) in
    let m := a / (b * q) in
    let r := a mod (b * q) in
    (if match 2 * r ?= b * q with
        | Lt => false
        | Gt => true
        | Eq => Z.odd m
        end then m + 1 else m) * q.
Proof.
  intros Ha Hb. unfold round_ratio. cbv zeta.
  set (s := Z.max 0 (Z.log2 (a / b) - 52)).
  assert (Hs : 0 ≤ s) by (unfold s; lia).
  assert (Hq : quantum (a / b) = 2 ^ s) by apply quantum_eq.
  assert (H2s : 0 < 2 ^ s) by (apply Z.pow_pos_nonneg; lia).
  rewrite Hq, !shiftl_pow2, Z.shiftr_div_pow2 by done.
  rewrite Z.div_div by lia.
  replace (a - a / (b * 2 ^ s) * (b * 2 ^ s)) with (a mod (b * 2 ^ s)); [done|].
  rewrite Z.mod_eq by nia. lia.
Qed.

Lemma round_ratio_scale a b c :
  0 ≤ a → 0 < b → 0 < c → round_ratio (a * c) (b * c) = round_ratio a b.
Proof.
  intros Ha Hb Hc.
  rewrite !round_ratio_plain by nia. cbv zeta.
  rewrite Z.div_mul_cancel_r by lia.
  pose proof (quantum_pos (a / b)) as Hq. set (q := quantum (a / b)) in *.
  replace (b * c * q) with (b * q * c) by lia.
  rewrite Z.div_mul_cancel_r by nia.
  rewrite Z.mul_mod_distr_r by nia.
  replace (2 * (a mod (b * q) * c)) with (2 * (a mod (b * q)) * c) by lia.
  rewrite <- (Zmult_compare_compat_r _ _ c) by lia. done.
Qed.

Lemma round_quotient_spec x y :
  0 ≤ x → 0 < y → round_quotient x y = round_ratio (x * one) y.
Proof.
  intros Hx Hy. unfold round_quotient.
  set (g := Z.min 1074 (ctz y)).
  pose proof (ctz_nonneg y).
  assert (Hg : 0 ≤ g ≤ 1074) by (unfold g; lia).
  assert (Hdiv : (2 ^ g | y)) by (apply ctz_divide; unfold g; lia).
  assert (H2g : 0 < 2 ^ g) by (apply Z.pow_pos_nonneg; lia).
  pose proof (shiftr_exact y g (proj1 Hg) Hdiv) as Hy'.
  rewrite shiftl_pow2 by lia.
  rewrite <- Hy' at 2.
  replace (x * one) with (x * 2 ^ (1074 - g) * 2 ^ g).
  - rewrite round_ratio_scale; [done| |nia|done].
    apply Z.mul_nonneg_nonneg; [done|]. apply Z.pow_nonneg. lia.
  - rewrite one_eq, <- Z.mul_assoc, <- Z.pow_add_r by lia. do 2 f_equal. lia.
Qed.

Lemma rem_spec a b : b ≠ 0 → rem a b = Z.rem a b.
Proof.
  intros Hb. unfold rem.
  set (g := Z.min (ctz a) (ctz b)).
  pose proof (ctz_nonneg a). pose proof (ctz_nonneg b).
  assert (Hg : 0 ≤ g) by (unfold g; lia).
  assert (Ha' : Z.shiftr a g * 2 ^ g = a).
  { apply shiftr_exact; [done|]. apply ctz_divide. unfold g. lia. }
  assert (Hb' : Z.shiftr b g * 2 ^ g = b).
  { apply shiftr_exact; [done|]. apply ctz_divide. unfold g. lia. }
  assert (H2g : 0 < 2 ^ g) by (apply Z.pow_pos_nonneg; lia).
  rewrite shiftl_pow2 by done.
  rewrite <- Ha' at 2. rewrite <- Hb' at 2.
  rewrite Z.mul_rem_distr_r; [done| |lia].
  intros E. rewrite E in Hb'. lia.
Qed.

Lemma floor_spec a : floor (Finite a) = Finite (a / one * one).
Proof.
  unfold floor. rewrite shiftl_pow2, Z.shiftr_div_pow2, one_eq by lia. done.
Qed.

Lemma to_int_spec a : to_int (Finite a) = Ok (Z.quot a one).
Proof.
  unfold to_int. f_equal. rewrite !Z.shiftr_div_pow2, <- one_eq by lia.
  pose proof one_pos.
  destruct (a <? 0) eqn:E.
  - rewrite <- (Z.opp_involutive a) at 2. rewrite Z.quot_opp_l by lia.
    f_equal. symmetry. apply Z.quot_div_nonneg; lia.
  - symmetry. apply Z.quot_div_nonneg; lia.
Qed.

Lemma div_spec a b :
  b ≠ 0 →
  div (Finite a) (Finite b)
  = pack (if Bool.eqb (a <? 0) (b <? 0)
          then round_ratio (Z.abs a * one) (Z.abs b)
          else - round_ratio (Z.abs a * one) (Z.abs b)).
Proof.
  intros Hb. unfold div. destruct (b =? 0) eqn:E; [lia|].
  by rewrite round_quotient_spec by lia.
Qed.

Lemma round_ratio_1_cases k :
  0 ≤ k →
  let q := quantum k in
  (round_ratio k 1 = k / q * q ∧ k / q * q ≤ k)
  ∨ (round_ratio k 1 = (k / q + 1) * q ∧ k / q * q < k).
Proof.
  intros Hk q. rewrite round_ratio_plain by lia. cbv zeta.
  rewrite Z.div_1_r, Z.mul_1_l. fold q.
  pose proof (quantum_pos k) as Hq. fold q in Hq.
  pose proof (Z.mod_pos_bound k q Hq).
  pose proof (Z.div_mod k q ltac:(lia)).
  destruct (2 * (k mod q) ?= q) eqn:E.
  - apply Z.compare_eq in E. destruct (Z.odd (k / q)); [right|left]; split; try done; nia.
  - left. split; [done|nia].
  - rewrite Z.compare_gt_iff in E. right. split; [done|nia].
Qed.

(** Rounding never crosses a float. *)
Lemma round_ratio_1_le k f :
  0 ≤ k ≤ f → (quantum f | f) → round_ratio k 1 ≤ f.
Proof.
  intros [Hk Hkf] Hqf.
  destruct (round_ratio_1_cases k Hk) as [[-> ?]|[-> Hlt]]; [lia|].
  assert (quantum k | f) as [j Hj] by (etrans; [apply quantum_mono|exact Hqf]; lia).
  pose proof (quantum_pos k) as Hq. subst f.
  apply Z.mul_le_mono_nonneg_r; [lia|].
  destruct (decide (j ≤ k / quantum k)) as [Hle|]; [|lia].
  apply (Z.mul_le_mono_nonneg_r _ _ (quantum k)) in Hle; lia.
Qed.

Lemma round_ratio_1_nonneg k : 0 ≤ k → 0 ≤ round_ratio k 1.
Proof.
  intros Hk. pose proof (quantum_pos k).
  assert (0 ≤ k / quantum k) by (apply Z.div_pos; lia).
  destruct (round_ratio_1_cases k Hk) as [[-> ?]|[-> ?]]; nia.
Qed.

(** The result of rounding is a float. *)
Lemma round_ratio_1_quantum k :
  0 ≤ k → (quantum (round_ratio k 1) | round_ratio k 1).
Proof.
  intros Hk.
  set (E := Z.max 52 (Z.log2 k)).
  assert (Hq : quantum k = 2 ^ (E - 52)) by (rewrite quantum_eq; unfold E; f_equal; lia).
  assert (HE : 52 ≤ E ∧ Z.log2 k ≤ E) by (unfold E; lia).
  clearbody E.
  assert (HkE : k < 2 ^ (E + 1)).
  { destruct (decide (k = 0)) as [->|]; [apply Z.pow_pos_nonneg; lia|].
    pose proof (Z.log2_spec k ltac:(lia)) as [_ Hlt].
    eapply Z.lt_le_trans; [exact Hlt|]. apply Z.pow_le_mono_r; lia. }
  assert (Hpow : 2 ^ (E + 1) = 2 ^ 53 * 2 ^ (E - 52)).
  { rewrite <- Z.pow_add_r by lia. f_equal. lia. }
  pose proof (quantum_pos k) as Hqpos.
  assert (Hm : k / quantum k < 2 ^ 53).
  { apply Z.div_lt_upper_bound; [done|]. rewrite Hq. lia. }
  assert (0 ≤ k / quantum k) by (apply Z.div_pos; lia).
  assert (Hbound : ∀ m, 0 ≤ m ≤ 2 ^ 53 → (quantum (m * quantum k) | m * quantum k)).
  { intros m [Hm0 Hm1].
    destruct (decide (m = 2 ^ 53)) as [->|Hne].
    - rewrite Hq, <- Hpow. rewrite quantum_eq.
      rewrite Z.log2_pow2 by lia. apply pow2_divide. lia.
    - apply Z.divide_mul_r. rewrite Hq at 2. rewrite (quantum_eq (m * _)). apply pow2_divide.
      split; [lia|].
      destruct (decide (m = 0)) as [->|].
      { rewrite Z.mul_0_l. change (Z.log2 0) with 0. lia. }
      assert (m * quantum k < 2 ^ (E + 1)).
      { rewrite Hpow, Hq. apply Z.mul_lt_mono_pos_r; [|lia].
        apply Z.pow_pos_nonneg; lia. }
      assert (0 < m * quantum k) by nia.
      pose proof (Z.log2_lt_pow2 (m * quantum k) (E + 1) ltac:(done)) as [Hl _].
      specialize (Hl ltac:(done)). lia. }
  destruct (round_ratio_1_cases k Hk) as [[-> ?]|[-> ?]]; apply Hbound; lia.
Qed.

(** [//] and [%] on a non-negative float and a positive one: both are
    functions of the exact integer quotient. *)
Lemma float_div_mod_pos a b :
  0 ≤ a → 0 < b →
  float_div_mod (Finite a) (Finite b)
  = (floordiv_of_quotient b (a / b), Finite (a mod b)).
Proof.
  intros Ha Hb. unfold float_div_mod, floordiv_of_quotient.
  assert (Hrem : rem a b = a mod b).
  { rewrite rem_spec by lia. apply Z.rem_mod_nonneg; lia. }
  pose proof (Z.mod_pos_bound a b Hb) as [Hr0 Hrb].
  assert (Hsub : sub (Finite a) (fmod (Finite a) (Finite b))
                 = pack (round_signed (b * (a / b)) 1)).
  { unfold fmod, sub, opp, add. destruct (b =? 0) eqn:E; [lia|].
    rewrite Hrem. do 2 f_equal. rewrite Z.mod_eq by lia. lia. }
  rewrite Hsub. unfold fmod. destruct (b =? 0) eqn:E; [lia|]. rewrite Hrem.
  assert (Hwx : ltb (Finite b) zero = false) by (unfold ltb, zero; lia).
  assert (Hmod : ltb (Finite (a mod b)) zero = false) by (unfold ltb, zero; lia).
  rewrite Hwx, Hmod. change (Bool.eqb false false) with true.
  destruct (is_zero (Finite (a mod b))) eqn:Ez; cbn [negb]; [|reflexivity].
  f_equal. unfold is_zero in Ez. unfold zero. destruct (a mod b); done.
Qed.

Lemma is_finite_eq k f : is_finite k f = true → f = Finite k.
Proof. destruct f; simpl; try done. intros. f_equal. lia. Qed.

Lemma to_int_integral q : to_int (Finite (q * one)) = Ok q.
Proof.
  rewrite to_int_spec. f_equal. apply Z.quot_mul. pose proof one_pos. lia.
Qed.

Lemma is_zero_pos b : 0 < b → is_zero (Finite b) = false.
Proof. intros. unfold is_zero. destruct b; done || lia. Qed.

Lemma floordiv_pos a b :
  0 ≤ a → 0 < b →
  floordiv (Finite a) (Finite b) = Ok (floordiv_of_quotient b (a / b)).
Proof.
  intros Ha Hb. unfold floordiv.
  by rewrite (is_zero_pos _ Hb), (float_div_mod_pos _ _ Ha Hb).
Qed.

Lemma modulo_pos a b :
  0 ≤ a → 0 < b → modulo (Finite a) (Finite b) = Ok (Finite (a mod b)).
Proof.
  intros Ha Hb. unfold modulo.
  by rewrite (is_zero_pos _ Hb), (float_div_mod_pos _ _ Ha Hb).
Qed.

Lemma forallb_below (P : Z → bool) b q :
  forallb P (Z.of_nat <$> seq 0 (Z.to_nat b)) = true → 0 ≤ q < b → P q = true.
Proof.
  intros H Hq. rewrite forallb_forall in H. apply H.
  apply list_elem_of_In, list_elem_of_fmap. exists (Z.to_nat q).
  split; [lia|]. apply elem_of_seq. lia.
Qed.

(** The shifted coordinate [v + h] of a float [v] in [-h, h) other than
    the largest float below [h]. *)
Lemma shift_in_range h v :
  shift_check h = true →
  representable v → - h ≤ v < h → v ≠ pred h →
  ∃ x, add (Finite v) (Finite h) = Finite x ∧ 0 ≤ x < 2 * h ∧ (quantum x | x).
Proof.
  unfold shift_check. intros Hc Hrep Hv Hne.
  apply andb_prop in Hc as [Hc Hov]. apply andb_prop in Hc as [Hc Hqf].
  apply andb_prop in Hc as [Hc Hlow]. apply andb_prop in Hc as [Hh Hqh].
  apply representable_divide in Hrep.
  pose proof (quantum_pos h) as Hqpos.
  assert (Hdivh : (quantum h | h)).
  { apply Z.mod_divide; lia. }
  assert (Hle : v ≤ h - 2 * quantum h).
  { destruct (decide (v < 2 ^ Z.log2 h)) as [|Hge]; [lia|].
    assert (Hq : quantum v = quantum h) by (apply quantum_same_binade; lia).
    replace (Z.abs v) with v in Hrep by lia. rewrite Hq in Hrep.
    assert (quantum h | h - v) as [j Hj] by (by apply Z.divide_sub_r).
    unfold pred in Hne.
    assert (2 ≤ j); [|nia].
    destruct (decide (j ≤ 0)); [exfalso; nia|].
    destruct (decide (j = 1)); [exfalso; subst j; lia|lia]. }
  set (f := 2 * h - 2 * quantum h) in *.
  assert (Hk : 0 ≤ v + h ≤ f) by (unfold f; lia).
  assert (Hdivf : (quantum f | f)).
  { apply Z.mod_divide; [pose proof (quantum_pos f)|]; lia. }
  exists (round_ratio (v + h) 1).
  pose proof (round_ratio_1_le _ _ Hk Hdivf).
  pose proof (round_ratio_1_nonneg (v + h) ltac:(lia)).
  split; [|split; [unfold f in *; lia | apply round_ratio_1_quantum; lia]].
  unfold add, round_signed, pack.
  destruct (v + h <? 0) eqn:E1; [lia|].
  destruct (overflow_threshold <=? _) eqn:E2; [|done].
  unfold f in *. lia.
Qed.

End PyFloatFacts.

(** ** The grid encoder stays inside the character set *)

Section GridAxis.
Import PyFloat PyFloatFacts.

Variable base_char_set : string.
Variables total slice subslice : Z.

Hypothesis checked :
  axis_check (encoding_base base_char_set) total slice subslice = true.
Hypothesis subslice_eq :
  truediv (Finite slice) (of_int (encoding_base base_char_set)) = Ok (Finite subslice).

Lemma grid_major_in_range x :
  0 ≤ x < total →
  ∃ q, grid_major (Finite x) (Finite slice) = Ok q
       ∧ 0 ≤ q < encoding_base base_char_set.
Proof.
  pose proof checked as Hc. unfold axis_check in Hc. intros Hx.
  apply andb_prop in Hc as [Hc _]. apply andb_prop in Hc as [Hc Htab].
  apply andb_prop in Hc as [Hc _]. apply andb_prop in Hc as [Hc _].
  apply andb_prop in Hc as [Hc _]. apply andb_prop in Hc as [Hc Hq].
  apply andb_prop in Hc as [Hs Hss].
  exists (x / slice).
  assert (0 ≤ x / slice < encoding_base base_char_set).
  { split; [apply Z.div_pos; lia|].
    eapply Z.le_lt_trans; [apply (Z.div_le_mono x (total - 1))|]; lia. }
  split; [|done]. unfold grid_major.
  rewrite floordiv_pos by lia. simpl.
  rewrite (is_finite_eq _ _ (forallb_below _ _ _ Htab H)).
  apply to_int_integral.
Qed.

Lemma grid_sub_in_range x :
  0 ≤ x → (quantum x | x) →
  ∃ q, grid_sub base_char_set (Finite x) (Finite slice) = Ok q
       ∧ 0 ≤ q < encoding_base base_char_set.
Proof.
  pose proof checked as Hc. unfold axis_check in Hc. intros Hx Hqx.
  apply andb_prop in Hc as [Hc Htab]. apply andb_prop in Hc as [Hc _].
  apply andb_prop in Hc as [Hc Hpred]. apply andb_prop in Hc as [Hc Hlow].
  apply andb_prop in Hc as [Hc Hqs]. apply andb_prop in Hc as [Hc _].
  apply andb_prop in Hc as [Hs Hss].
  set (m := x mod slice).
  pose proof (Z.mod_pos_bound x slice ltac:(lia)) as Hm. fold m in Hm.
  assert (Hqm : (quantum m | m)).
  { apply quantum_divide_mod; [lia..|done|]. apply Z.mod_divide; [|lia].
    pose proof (quantum_pos slice). lia. }
  assert (Hlt : m < encoding_base base_char_set * subslice).
  { destruct (decide (m < 2 ^ Z.log2 slice)) as [|Hge]; [lia|].
    assert (Hq : quantum m = quantum slice) by (apply quantum_same_binade; lia).
    assert (m ≤ slice - quantum m).
    { apply float_below; [lia|done|]. apply Z.mod_divide; [|lia].
      pose proof (quantum_pos slice). lia. }
    unfold pred in Hpred. lia. }
  exists (m / subslice).
  assert (0 ≤ m / subslice < encoding_base base_char_set).
  { split; [apply Z.div_pos; lia|]. apply Z.div_lt_upper_bound; lia. }
  split; [|done]. unfold grid_sub.
  rewrite modulo_pos by lia. simpl. fold m.
  rewrite subslice_eq. simpl.
  rewrite floordiv_pos by lia. simpl.
  rewrite (is_finite_eq _ _ (forallb_below _ _ _ Htab H)).
  apply to_int_integral.
Qed.

End GridAxis.

Lemma string_get_chars s n c : String.get n s = Some c → c ∈ chars s.
Proof.
  revert n. induction s as [|a s IH]; intros n H; [done|].
  destruct n; simpl in *; simplify_eq; [left|right; eauto].
Qed.

Lemma finite_value_Some r k : finite_value r = Some k → r = Ok (Finite k).
Proof. destruct r as [[]| |]; simpl; intros; by simplify_eq. Qed.

Section GridInRange.
Import PyFloat PyFloatFacts.

Variable base_char_set : string.
Hypothesis checked : grid_check base_char_set = true.

Lemma encode_base_str_in_range q :
  0 ≤ q < encoding_base base_char_set →
  ∃ c, encode_base_str base_char_set q = Ok c ∧ c ∈ chars base_char_set.
Proof.
  intros Hq. destruct (str_getitem_Ok base_char_set q Hq) as (c & H1 & H2).
  exists c. split; [done|]. by eapply string_get_chars.
Qed.

Lemma grid_axis_in_range degrees x :
  grid_axis_check base_char_set degrees = true →
  0 ≤ x < degrees * one → (quantum x | x) →
  ∃ slice major minor,
    int_truediv degrees (encoding_base base_char_set) = Ok (Finite slice)
    ∧ grid_major (Finite x) (Finite slice) = Ok major
    ∧ grid_sub base_char_set (Finite x) (Finite slice) = Ok minor
    ∧ 0 ≤ major < encoding_base base_char_set
    ∧ 0 ≤ minor < encoding_base base_char_set.
Proof.
  unfold grid_axis_check. intros Hc Hx Hqx.
  destruct (finite_value (int_truediv _ _)) as [slice|] eqn:E1; [|done].
  destruct (finite_value (truediv _ _)) as [subslice|] eqn:E2; [|done].
  apply finite_value_Some in E1, E2.
  destruct (grid_major_in_range _ _ _ _ Hc x Hx) as (major & ? & ?).
  destruct (grid_sub_in_range _ _ _ _ Hc E2 x (proj1 Hx) Hqx) as (minor & ? & ?).
  by exists slice, major, minor.
Qed.

Lemma encode_grid_in_range lon lat :
  representable lon → representable lat →
  - (180 * one) ≤ lon < 180 * one → lon ≠ pred (180 * one) →
  - (90 * one) ≤ lat < 90 * one → lat ≠ pred (90 * one) →
  ∃ c1 c2 c3 c4,
    encode_grid base_char_set (Finite lon) (Finite lat)
    = Ok (String c1 (String c2 (String c3 (String c4 EmptyString))))
    ∧ Forall (λ c, c ∈ chars base_char_set) [c1; c2; c3; c4].
Proof.
  pose proof checked as Hc. unfold grid_check in Hc.
  intros Hrlon Hrlat Hdlon Hnlon Hdlat Hnlat.
  apply andb_prop in Hc as [Hc H90]. apply andb_prop in Hc as [Hc H180].
  apply andb_prop in Hc as [Hc Hs90]. apply andb_prop in Hc as [Hc Hs180].
  apply andb_prop in Hc as [Hlon Hlat].
  apply is_finite_eq in H180, H90.
  destruct (shift_in_range _ lon Hs180 Hrlon Hdlon Hnlon) as (x & Hx & Hxr & Hxq).
  destruct (shift_in_range _ lat Hs90 Hrlat Hdlat Hnlat) as (y & Hy & Hyr & Hyq).
  destruct (grid_axis_in_range 360 x Hlon) as (ls & a1 & a2 & E1 & E2 & E3 & R1 & R2);
    [lia|done|].
  destruct (grid_axis_in_range 180 y Hlat) as (ts & b1 & b2 & F1 & F2 & F3 & S1 & S2);
    [lia|done|].
  destruct (encode_base_str_in_range a1 R1) as (c1 & G1 & I1).
  destruct (encode_base_str_in_range a2 R2) as (c2 & G2 & I2).
  destruct (encode_base_str_in_range b1 S1) as (c3 & G3 & I3).
  destruct (encode_base_str_in_range b2 S2) as (c4 & G4 & I4).
  exists c1, c2, c3, c4. split; [|by repeat constructor].
  unfold encode_grid, LON_SLICE_SIZE, LAT_SLICE_SIZE.
  rewrite H180, H90, Hx, Hy, E1, F1. simpl.
  rewrite E2. simpl. rewrite F2. simpl. rewrite E3. simpl. rewrite F3. simpl.
  rewrite G1. simpl. rewrite G2. simpl. rewrite G3. simpl. rewrite G4. done.
Qed.

End GridInRange.

Lemma grid_check_BASE_CHAR_SETS b : grid_check (BASE_CHAR_SETS b) = true.
Proof. destruct b; vm_compute; reflexivity. Qed.

(** ** Results on the codec *)

Lemma NoDup_BASE_CHAR_SETS b : NoDup (chars (BASE_CHAR_SETS b)).
Proof. destruct b; apply (@bool_decide_unpack _ (NoDup_dec _)); vm_compute; exact I. Qed.

(** C4.  The counter encoding round-trips: for a character set of
    distinct symbols, every [n ≥ 0] and every padding width,
    [encode_counter] returns as soon as there are two symbols or more, and
    whatever it returns is decoded back to [n] by [decode_counter]. *)
Theorem decode_encode_counter_roundtrip (base_char_set : string) (n w : Z) :
  NoDup (chars base_char_set) → 0 ≤ n →
  (2 ≤ encoding_base base_char_set →
   ∃ s, encode_counter base_char_set n w = Ok s)
  ∧ (∀ s, encode_counter base_char_set n w = Ok s →
          decode_counter base_char_set s = Ok n).
Proof.
  intros Hnd Hn. split.
  - intros HB. by apply encode_counter_total.
  - intros s Hs. by eapply decode_encode_counter.
Qed.

Lemma decode_encode_counter_roundtrip_witness :
  decode_counter BASE_B10 "172" = Ok 172.
Proof.
  apply (proj2 (decode_encode_counter_roundtrip BASE_B10 172 3
                  (NoDup_BASE_CHAR_SETS B10) ltac:(lia)) "172").
  vm_compute. reflexivity.
Defined.

(** C5.  With the Compact-32 capitals selected, [encode_grid(147, -20)]
    is "X4EG": longitude major and sub, then latitude major and sub.  The
    self-check expects "XE4G" and fails. *)
Theorem encode_grid_literal_case :
  encode_grid BASE_B32_CAPS (PyFloat.of_int 147) (PyFloat.of_int (-20)) = Ok "X4EG"
  ∧ run_tests BASE_B32_CAPS = Raise AssertionError.
Proof. split; vm_compute; reflexivity. Qed.

(** The largest doubles below 180 and below 90. *)
Example pred_180 : PyFloat.pred (180 * PyFloat.one) = 180 * PyFloat.one - 2 ^ (1074 - 45).
Proof. vm_compute. reflexivity. Qed.

Example pred_90 : PyFloat.pred (90 * PyFloat.one) = 90 * PyFloat.one - 2 ^ (1074 - 46).
Proof. vm_compute. reflexivity. Qed.

(** C8, as stated, fails at the largest double below 180: the sum
    [lon + 180] rounds to 360.0, the major index is 10 and the lookup in
    the ten decimal digits raises IndexError. *)
Lemma encode_grid_upper_edge_raises :
  PyFloat.representable (PyFloat.pred (180 * PyFloat.one))
  ∧ - (180 * PyFloat.one) ≤ PyFloat.pred (180 * PyFloat.one) < 180 * PyFloat.one
  ∧ PyFloat.add (Finite (PyFloat.pred (180 * PyFloat.one))) (PyFloat.of_int 180)
    = Finite (360 * PyFloat.one)
  ∧ encode_grid BASE_B10 (Finite (PyFloat.pred (180 * PyFloat.one))) (Finite 0)
    = Raise IndexError.
Proof.
  repeat split; try (vm_compute; reflexivity); vm_compute; discriminate.
Qed.

(** C8, amended.  For every character set of [BASE_CHAR_SETS] and every
    pair of doubles with [-180 ≤ lon < 180] and [-90 ≤ lat < 90], other
    than the largest double below 180 and the largest double below 90,
    [encode_grid] returns four symbols of the character set. *)
Theorem encode_grid_in_domain (b : base_name) (lon lat : Z) :
  PyFloat.representable lon → PyFloat.representable lat →
  - (180 * PyFloat.one) ≤ lon < 180 * PyFloat.one →
  lon ≠ PyFloat.pred (180 * PyFloat.one) →
  - (90 * PyFloat.one) ≤ lat < 90 * PyFloat.one →
  lat ≠ PyFloat.pred (90 * PyFloat.one) →
  ∃ c1 c2 c3 c4,
    encode_grid (BASE_CHAR_SETS b) (Finite lon) (Finite lat)
    = Ok (String c1 (String c2 (String c3 (String c4 EmptyString))))
    ∧ Forall (λ c, c ∈ chars (BASE_CHAR_SETS b)) [c1; c2; c3; c4].
Proof. apply encode_grid_in_range, grid_check_BASE_CHAR_SETS. Qed.

Lemma encode_grid_in_domain_witness :
  ∃ c1 c2 c3 c4,
    encode_grid BASE_B10 (Finite (147 * PyFloat.one)) (Finite (-20 * PyFloat.one))
    = Ok (String c1 (String c2 (String c3 (String c4 EmptyString))))
    ∧ Forall (λ c, c ∈ chars BASE_B10) [c1; c2; c3; c4].
Proof.
  apply (encode_grid_in_domain B10 (147 * PyFloat.one) (-20 * PyFloat.one));
    try (split; vm_compute; first [reflexivity | discriminate]);
    vm_compute; discriminate.
Defined.

Lemma repeat_symbol_shift z n e :
  repeat_symbol z n +:+ String z e = String z (repeat_symbol z n +:+ e).
Proof.
  induction n as [|n IH]; [reflexivity|].
  change (String z (repeat_symbol z n +:+ String z e)
          = String z (String z (repeat_symbol z n +:+ e))).
  by rewrite IH.
Qed.

Lemma encode_counter_pad_zero base_char_set z n encoded :
  str_getitem base_char_set 0 = Ok z →
  encode_counter_pad base_char_set n encoded
  = Ok (repeat_symbol z n +:+ encoded).
Proof.
  intros Hz. revert encoded. induction n as [|n IH]; intros encoded; simpl; [done|].
  rewrite Hz. simpl. rewrite IH. f_equal. apply repeat_symbol_shift.
Qed.

Lemma string_app_empty_r (s : string) : s +:+ "" = s.
Proof.
  induction s as [|a s IH]; [reflexivity|].
  change (String a (s +:+ "") = String a s). by rewrite IH.
Qed.

(** C9, as stated, fails at width 0: [encode_counter(0, 0)] is neither a
    single zero symbol nor an error, it is the empty string. *)
Lemma encode_counter_zero_width_empty :
  encode_counter BASE_B10 0 0 = Ok ""
  ∧ ¬ (encode_counter BASE_B10 0 0 = Ok "0"
       ∨ ∃ e, encode_counter BASE_B10 0 0 = Raise e).
Proof.
  split; [vm_compute; reflexivity|].
  intros [H|[e H]]; vm_compute in H; discriminate.
Qed.

(** C9, amended.  [encode_counter(0, w)] is the zero symbol repeated
    exactly [w] times for [w ≥ 1], and the empty string for [w ≤ 0];
    [encode_counter] rejects no width.  A zero width is refused only on
    the command line, where [main] reports missing arguments. *)
Theorem encode_counter_zero (base_char_set : string) (z : ascii) (w : Z) :
  str_getitem base_char_set 0 = Ok z →
  encode_counter base_char_set 0 w = Ok (repeat_symbol z (Z.to_nat w))
  ∧ ∀ args gdf, args_test args = false → args_zero_padding args = 0 →
                main args gdf = ParserError.
Proof.
  intros Hz. split.
  - unfold encode_counter. simpl.
    rewrite (encode_counter_pad_zero _ z) by done.
    rewrite string_app_empty_r. do 2 f_equal. unfold str_len. simpl. lia.
  - intros args gdf Ht Hw. unfold main, required_arguments_given.
    rewrite Ht, Hw. simpl. by rewrite !andb_false_r.
Qed.

Lemma encode_counter_zero_witness :
  encode_counter BASE_B10 0 3 = Ok "000".
Proof.
  apply (proj1 (encode_counter_zero BASE_B10 "0"%char 3 ltac:(vm_compute; reflexivity))).
Defined.

(** ** The allocation state *)

Lemma decode_counter_from_cases base_char_set n s :
  (∃ d, decode_counter_from base_char_set n s = Ok d)
  ∨ decode_counter_from base_char_set n s = Raise ValueError.
Proof.
  revert n. induction s as [|a s IH]; intros n; simpl; [eauto|].
  unfold decode_base_str.
  assert (Hidx : ∀ cs, (∃ i, str_index cs a = Ok i) ∨ str_index cs a = Raise ValueError).
  { clear. induction cs as [|b cs IH]; simpl; [eauto|].
    destruct (Ascii.eqb b a); [eauto|]. destruct IH as [[i ->]| ->]; simpl; eauto. }
  destruct (Hidx base_char_set) as [[i ->]| ->]; simpl; [apply IH|eauto].
Qed.

Lemma initial_state_synced : synced initial_state.
Proof. intros p. simpl. by rewrite !lookup_empty. Qed.

Section StateFacts.

Variable base_char_set : string.

(** What registering an identifier does to the views. *)
Lemma register_existing_views st p g c reef_id :
  synced st →
  str_split "-" reef_id = [p; g; c] →
  ∃ f : Z → alloc_state,
    register_existing base_char_set st reef_id
    = (d ← decode_counter base_char_set c ; Ok (f d))
    ∧ ∀ d, synced (f d)
      ∧ (∀ p' g', occupied (f d) p' g'
                  = if decide (p' = p ∧ g' = g) then occupied st p g ∪ {[c]}
                    else occupied st p' g')
      ∧ (∀ p' g', next_counter (f d) p' g'
                  = if decide (p' = p ∧ g' = g)
                    then Z.max (next_counter st p g) (d + 1)
                    else next_counter st p' g').
Proof.
  intros Hsync Hsplit. unfold register_existing. rewrite Hsplit.
  destruct st as [count existing]. simpl in *.
  pose proof (Hsync p) as Hp. simpl in Hp.
  destruct (existing !! p) as [ids_p|] eqn:Ee.
  - destruct (count !! p) as [count_p|] eqn:Ec; [|by specialize (proj1 Hp eq_refl)].
    rewrite bool_decide_eq_false_2 by done.
    unfold dict_get. rewrite Ee, Ec. simpl.
    eexists (λ d, _). split; [reflexivity|]. intros d. split; [|split].
    + intros p'. simpl. destruct (decide (p' = p)) as [->|Hne].
      * by rewrite !lookup_insert_eq.
      * rewrite !lookup_insert_ne by done. apply Hsync.
    + intros p' g'. unfold occupied, next_counter. simpl.
      destruct (decide (p' = p)) as [->|Hne].
      * rewrite lookup_insert_eq, Ee. simpl.
        destruct (decide (g' = g)) as [->|Hg].
        -- rewrite lookup_insert_eq. rewrite decide_True by done. done.
        -- rewrite lookup_insert_ne by done. rewrite decide_False by (by intros [??]). done.
      * rewrite lookup_insert_ne by done. rewrite decide_False by (by intros [??]). done.
    + intros p' g'. unfold occupied, next_counter. simpl.
      destruct (decide (p' = p)) as [->|Hne].
      * rewrite lookup_insert_eq, Ec. simpl.
        destruct (decide (g' = g)) as [->|Hg].
        -- rewrite lookup_insert_eq. rewrite decide_True by done. done.
        -- rewrite lookup_insert_ne by done. rewrite decide_False by (by intros [??]). done.
      * rewrite lookup_insert_ne by done. rewrite decide_False by (by intros [??]). done.
  - destruct (count !! p) as [count_p|] eqn:Ec; [by specialize (proj2 Hp eq_refl)|].
    rewrite bool_decide_eq_true_2 by done.
    unfold dict_get. rewrite !lookup_insert_eq. simpl.
    eexists (λ d, _). split; [reflexivity|]. intros d. split; [|split].
    + intros p'. simpl. destruct (decide (p' = p)) as [->|Hne].
      * by rewrite !lookup_insert_eq.
      * rewrite !lookup_insert_ne by done. apply Hsync.
    + intros p' g'. unfold occupied, next_counter. simpl.
      destruct (decide (p' = p)) as [->|Hne].
      * rewrite lookup_insert_eq, Ee. simpl.
        destruct (decide (g' = g)) as [->|Hg].
        -- rewrite lookup_insert_eq. rewrite decide_True by done. done.
        -- rewrite lookup_insert_ne by done. rewrite decide_False by (by intros [??]). done.
      * rewrite !lookup_insert_ne by done. rewrite decide_False by (by intros [??]). done.
    + intros p' g'. unfold occupied, next_counter. simpl.
      destruct (decide (p' = p)) as [->|Hne].
      * rewrite lookup_insert_eq, Ec. simpl.
        destruct (decide (g' = g)) as [->|Hg].
        -- rewrite lookup_insert_eq. rewrite decide_True by done. done.
        -- rewrite lookup_insert_ne by done. rewrite decide_False by (by intros [??]). done.
      * rewrite !lookup_insert_ne by done. rewrite decide_False by (by intros [??]). done.
Qed.

(** Registering succeeds exactly on the well-formed identifiers, and
    fails with ValueError on the others. *)
Lemma register_existing_cases st reef_id :
  synced st →
  (well_formed_id base_char_set reef_id
   ∧ ∃ st', register_existing base_char_set st reef_id = Ok st')
  ∨ (¬ well_formed_id base_char_set reef_id
     ∧ register_existing base_char_set st reef_id = Raise ValueError).
Proof.
  intros Hsync.
  destruct (str_split "-" reef_id) as [|p [|g [|c [|x l]]]] eqn:Hsplit;
    try (right; split;
         [intros (?&?&?&?&Hs&_); rewrite Hsplit in Hs; discriminate
         |unfold register_existing; by rewrite Hsplit]).
  destruct (register_existing_views st p g c reef_id Hsync Hsplit) as (f & -> & _).
  destruct (decode_counter_from_cases base_char_set 0 c) as [[d Hd]|Hd];
    fold (decode_counter base_char_set c) in Hd; rewrite Hd; simpl.
  - left. split; [by exists p, g, c, d|eauto].
  - right. split; [|done]. intros (?&?&?&?&Hs&Hd'). rewrite Hsplit in Hs.
    simplify_eq. rewrite Hd in Hd'. discriminate.
Qed.

Lemma register_existing_Ok st reef_id st' :
  synced st →
  register_existing base_char_set st reef_id = Ok st' →
  ∃ p g c d,
    str_split "-" reef_id = [p; g; c]
    ∧ decode_counter base_char_set c = Ok d
    ∧ synced st'
    ∧ (∀ p' g', occupied st' p' g'
                = if decide (p' = p ∧ g' = g) then occupied st p g ∪ {[c]}
                  else occupied st p' g')
    ∧ (∀ p' g', next_counter st' p' g'
                = if decide (p' = p ∧ g' = g)
                  then Z.max (next_counter st p g) (d + 1)
                  else next_counter st p' g').
Proof.
  intros Hsync H.
  destruct (register_existing_cases st reef_id Hsync) as [[(p&g&c&d&Hs&Hd) _]|[_ E]];
    [|rewrite E in H; discriminate].
  destruct (register_existing_views st p g c reef_id Hsync Hs) as (f & Hf & Hv).
  rewrite Hf, Hd in H. simpl in H. simplify_eq.
  exists p, g, c, d. destruct (Hv d) as (?&?&?). done.
Qed.

Lemma process_existing_register_all rows st :
  process_existing base_char_set rows st
  = register_all base_char_set (existing_ids rows) st.
Proof.
  revert st. induction rows as [|row rows IH]; intros st; [done|].
  unfold existing_ids. simpl. destruct (ReefID row); simpl; [|apply IH].
  destruct (register_existing _ _ _); simpl; [apply IH|done..].
Qed.

(** The first loop succeeds exactly when every identifier present is
    well formed; otherwise it raises ValueError. *)
Lemma register_all_cases ids st :
  synced st →
  (Forall (well_formed_id base_char_set) ids
   ∧ ∃ st', register_all base_char_set ids st = Ok st' ∧ synced st')
  ∨ (¬ Forall (well_formed_id base_char_set) ids
     ∧ register_all base_char_set ids st = Raise ValueError).
Proof.
  revert st. induction ids as [|reef_id ids IH]; intros st Hsync; simpl.
  - left. split; [constructor|eauto].
  - destruct (register_existing_cases st reef_id Hsync) as [[Hwf [st' E]]|[Hwf E]];
      rewrite E; simpl.
    + destruct (register_existing_Ok _ _ _ Hsync E) as (?&?&?&?&_&_&Hsync'&_).
      destruct (IH st' Hsync') as [[Hall Hok]|[Hall Herr]].
      * left. split; [by constructor|done].
      * right. split; [|done]. intros H. apply Hall. by inversion H.
    + right. split; [|done]. intros H. apply Hwf. by inversion H.
Qed.

(** Registered codes are occupied afterwards; counters stay non-negative. *)
Lemma register_all_views ids st st' :
  synced st →
  register_all base_char_set ids st = Ok st' →
  synced st'
  ∧ (counters_nonneg st → counters_nonneg st')
  ∧ (∀ p g, occupied st p g ⊆ occupied st' p g)
  ∧ (∀ reef_id p g c, reef_id ∈ ids → str_split "-" reef_id = [p; g; c] →
                      c ∈ occupied st' p g).
Proof.
  revert st. induction ids as [|reef_id ids IH]; intros st Hsync H; simpl in H.
  - simplify_eq. split; [done|]. split; [done|]. split; [done|].
    intros ???? Hin. by apply elem_of_nil in Hin.
  - destruct (register_existing _ st reef_id) as [st1| |] eqn:E; simpl in H; try done.
    destruct (register_existing_Ok _ _ _ Hsync E) as (p0&g0&c0&d0&Hs&Hd&Hsync1&Hocc&Hnext).
    destruct (IH st1 Hsync1 H) as (Hsync' & Hnn & Hmono & Hreg).
    split; [done|]. split; [|split].
    + intros Hst. apply Hnn. intros p g. rewrite Hnext.
      case_decide; [|apply Hst]. pose proof (Hst p0 g0). lia.
    + intros p g. etrans; [|apply Hmono]. rewrite Hocc.
      case_decide as Hd'; [destruct Hd' as [-> ->]; set_solver|done].
    + intros id p g c Hin Hsp. apply elem_of_cons in Hin as [->|Hin]; [|by eapply Hreg].
      rewrite Hs in Hsp. simplify_eq. apply Hmono. rewrite Hocc.
      rewrite decide_True by done. set_solver.
Qed.

(** One registration step cannot tell states with the same views apart. *)
Lemma register_existing_same_views st1 st2 reef_id st1' :
  synced st1 → synced st2 → same_views st1 st2 →
  register_existing base_char_set st1 reef_id = Ok st1' →
  ∃ st2', register_existing base_char_set st2 reef_id = Ok st2'
          ∧ same_views st1' st2'.
Proof.
  intros Hs1 Hs2 Hv H.
  destruct (register_existing_Ok _ _ _ Hs1 H) as (p&g&c&d&Hs&Hd&_&Hocc&Hnext).
  destruct (register_existing_views st2 p g c reef_id Hs2 Hs) as (f & Hf & Hfv).
  exists (f d). split; [by rewrite Hf, Hd|].
  destruct (Hfv d) as (_ & Hocc2 & Hnext2).
  intros p' g'. rewrite Hocc, Hocc2, Hnext, Hnext2.
  destruct (Hv p g) as [-> ->]. destruct (Hv p' g') as [-> ->]. done.
Qed.

Lemma swap_views_aux (occ : string → string → gset string) (nxt : string → string → Z)
  (pa ga ca pb gb cb p g : string) (da db : Z) :
(if decide (p = pb ∧ g = gb)
 then (if decide (pb = pa ∧ gb = ga) then occ pa ga ∪ {[ca]} else occ pb gb) ∪ {[cb]}
 else if decide (p = pa ∧ g = ga) then occ pa ga ∪ {[ca]} else occ p g)
= (if decide (p = pa ∧ g = ga)
   then (if decide (pa = pb ∧ ga = gb) then occ pb gb ∪ {[cb]} else occ pa ga) ∪ {[ca]}
   else if decide (p = pb ∧ g = gb) then occ pb gb ∪ {[cb]} else occ p g)
∧ (if decide (p = pb ∧ g = gb)
   then Z.max (if decide (pb = pa ∧ gb = ga) then Z.max (nxt pa ga) (da + 1) else nxt pb gb) (db + 1)
   else if decide (p = pa ∧ g = ga) then Z.max (nxt pa ga) (da + 1) else nxt p g)
  = (if decide (p = pa ∧ g = ga)
     then Z.max (if decide (pa = pb ∧ ga = gb) then Z.max (nxt pb gb) (db + 1) else nxt pa ga) (da + 1)
     else if decide (p = pb ∧ g = gb) then Z.max (nxt pb gb) (db + 1) else nxt p g).
Proof.
repeat case_decide; destruct_and?; simplify_eq; split;
  first [done | lia | set_solver | (exfalso; tauto)].
Qed.

(** Two registration steps commute, up to the views. *)
Lemma register_existing_swap st a b sa sab :
  synced st →
  register_existing base_char_set st a = Ok sa →
  register_existing base_char_set sa b = Ok sab →
  ∃ sb sba,
    register_existing base_char_set st b = Ok sb
    ∧ register_existing base_char_set sb a = Ok sba
    ∧ same_views sab sba.
Proof.
  intros Hsync Ha Hb.
  destruct (register_existing_Ok _ _ _ Hsync Ha) as (pa&ga&ca&da&Hsa&Hda&Hsync_a&Hocc_a&Hnext_a).
  destruct (register_existing_Ok _ _ _ Hsync_a Hb) as (pb&gb&cb&db&Hsb&Hdb&_&Hocc_ab&Hnext_ab).
  destruct (register_existing_views st pb gb cb b Hsync Hsb) as (fb & Hfb & Hvb).
  destruct (Hvb db) as (Hsync_b & Hocc_b & Hnext_b).
  destruct (register_existing_views (fb db) pa ga ca a Hsync_b Hsa) as (fa & Hfa & Hva).
  destruct (Hva da) as (_ & Hocc_ba & Hnext_ba).
  exists (fb db), (fa da). split; [by rewrite Hfb, Hdb|]. split; [by rewrite Hfa, Hda|].
  intros p g.
  rewrite Hocc_ab, Hocc_ba, Hnext_ab, Hnext_ba, !Hocc_a, !Hocc_b, !Hnext_a, !Hnext_b.
  apply (swap_views_aux (occupied st) (next_counter st)).
Qed.

Lemma same_views_refl st : same_views st st.
Proof. by intros p g. Qed.

Lemma same_views_trans st1 st2 st3 :
  same_views st1 st2 → same_views st2 st3 → same_views st1 st3.
Proof.
  intros H1 H2 p g. destruct (H1 p g) as [-> ->]. apply H2.
Qed.

Lemma register_all_same_views ids st1 st2 st1' :
  synced st1 → synced st2 → same_views st1 st2 →
  register_all base_char_set ids st1 = Ok st1' →
  ∃ st2', register_all base_char_set ids st2 = Ok st2' ∧ same_views st1' st2'.
Proof.
  revert st1 st2. induction ids as [|a ids IH]; intros st1 st2 Hs1 Hs2 Hv H; simpl in *.
  - simplify_eq. eauto.
  - destruct (register_existing _ st1 a) as [sa| |] eqn:E; simpl in H; try done.
    destruct (register_existing_same_views _ _ _ _ Hs1 Hs2 Hv E) as (sa' & E' & Hv').
    rewrite E'. simpl.
    destruct (register_existing_Ok _ _ _ Hs1 E) as (?&?&?&?&_&_&?&_).
    destruct (register_existing_Ok _ _ _ Hs2 E') as (?&?&?&?&_&_&?&_).
    apply (IH sa sa'); done.
Qed.

(** The state built by the first loop does not depend, up to the views,
    on the order of the rows. *)
Lemma register_all_perm ids ids' st1 st2 st1' :
  ids ≡ₚ ids' →
  synced st1 → synced st2 → same_views st1 st2 →
  register_all base_char_set ids st1 = Ok st1' →
  ∃ st2', register_all base_char_set ids' st2 = Ok st2' ∧ same_views st1' st2'.
Proof.
  intros Hperm. revert st1 st2 st1'.
  induction Hperm as [|a l l' Hperm IH|b a l|l l' l'' H1 IH1 H2 IH2];
    intros st1 st2 st1' Hs1 Hs2 Hv H.
  - simpl in *. simplify_eq. eauto.
  - simpl in *.
    destruct (register_existing _ st1 a) as [sa| |] eqn:E; simpl in H; try done.
    destruct (register_existing_same_views _ _ _ _ Hs1 Hs2 Hv E) as (sa' & E' & Hv').
    rewrite E'. simpl.
    destruct (register_existing_Ok _ _ _ Hs1 E) as (?&?&?&?&_&_&?&_).
    destruct (register_existing_Ok _ _ _ Hs2 E') as (?&?&?&?&_&_&?&_).
    apply (IH sa sa'); done.
  - simpl in H.
    destruct (register_existing _ st1 a) as [sa| |] eqn:Ea; simpl in H; try done.
    destruct (register_existing _ sa b) as [sab| |] eqn:Eb; simpl in H; try done.
    destruct (register_existing_swap _ _ _ _ _ Hs1 Ea Eb) as (sb & sba & Eb1 & Ea1 & Hsw).
    destruct (register_existing_same_views _ _ _ _ Hs1 Hs2 Hv Eb1) as (sb' & Eb2 & Hvb).
    destruct (register_existing_Ok _ _ _ Hs1 Eb1) as (?&?&?&?&_&_&Hsb&_).
    destruct (register_existing_Ok _ _ _ Hs2 Eb2) as (?&?&?&?&_&_&Hsb'&_).
    destruct (register_existing_same_views _ _ _ _ Hsb Hsb' Hvb Ea1) as (sba' & Ea2 & Hvba).
    destruct (register_existing_Ok _ _ _ Hsb Ea1) as (?&?&?&?&_&_&Hsba&_).
    destruct (register_existing_Ok _ _ _ Hsb' Ea2) as (?&?&?&?&_&_&Hsba'&_).
    destruct (register_existing_Ok _ _ _ Hs1 Ea) as (?&?&?&?&_&_&Hsa&_).
    destruct (register_existing_Ok _ _ _ Hsa Eb) as (?&?&?&?&_&_&Hsab&_).
    simpl. rewrite Eb2. simpl. rewrite Ea2. simpl.
    eapply register_all_same_views; [exact Hsab|exact Hsba'| |exact H].
    eapply same_views_trans; [exact Hsw|exact Hvba].
  - destruct (IH1 _ _ _ Hs1 Hs1 (same_views_refl _) H) as (sm & Hm & Hvm).
    destruct (register_all_cases l' st1 Hs1) as [[_ (sm' & Hm' & Hsm)]|[_ E]];
      [|rewrite E in Hm; discriminate].
    rewrite Hm in Hm'. simplify_eq.
    destruct (IH2 _ _ _ Hs1 Hs2 Hv Hm) as (st2' & H2' & Hv2).
    exists st2'. split; [done|]. by eapply same_views_trans.
Qed.

End StateFacts.

(** ** One assignment *)

Section AssignFacts.

Variable base_char_set : string.
Variable prefix : string.
Variable zero_padding : Z.

Hypothesis distinct_symbols : NoDup (chars base_char_set).
Hypothesis two_symbols : 2 ≤ encoding_base base_char_set.

(** The collision loop exits: every turn uses up one occupied code that
    no later counter can produce. *)
Lemma skip_occupied_spec fuel (occ live : gset string) c enc :
  0 ≤ c →
  encode_counter base_char_set c zero_padding = Ok enc →
  (∀ e d, e ∈ occ → decode_counter base_char_set e = Ok d → c ≤ d → e ∈ live) →
  (size live ≤ fuel)%nat →
  ∃ c' enc',
    skip_occupied base_char_set zero_padding fuel occ c enc = Ok (c', enc')
    ∧ c ≤ c'
    ∧ encode_counter base_char_set c' zero_padding = Ok enc'
    ∧ enc' ∉ occ.
Proof.
  revert live c enc. induction fuel as [|fuel IH]; intros live c enc Hc Henc Hlive Hsize.
  - simpl. destruct (decide (enc ∈ occ)) as [Hin|Hnin].
    + exfalso. assert (enc ∈ live).
      { eapply Hlive; [done| |reflexivity]. by eapply decode_encode_counter. }
      assert (size live = 0%nat) as Hz by lia.
      apply size_empty_inv in Hz. set_solver.
    + rewrite bool_decide_eq_false_2 by done. exists c, enc. by repeat split.
  - simpl. destruct (decide (enc ∈ occ)) as [Hin|Hnin].
    + rewrite bool_decide_eq_true_2 by done.
      destruct (encode_counter_total base_char_set (c + 1) zero_padding two_symbols)
        as [enc1 Henc1].
      rewrite Henc1. simpl.
      assert (Hdec : decode_counter base_char_set enc = Ok c)
        by (by eapply decode_encode_counter).
      assert (Hin' : enc ∈ live) by (eapply Hlive; [done|done|reflexivity]).
      destruct (IH (live ∖ {[enc]}) (c + 1) enc1) as (c' & enc' & E & Hle & He & Hn);
        [lia|done| |..].
      * intros e d He Hd Hcd. apply elem_of_difference. split.
        -- eapply Hlive; [done|done|lia].
        -- intros ->%elem_of_singleton. rewrite Hdec in Hd. simplify_eq. lia.
      * rewrite size_difference by set_solver. rewrite size_singleton.
        assert (size live ≠ 0%nat); [|lia].
        intros Hz. apply size_empty_inv in Hz. set_solver.
      * exists c', enc'. repeat split; [done|lia|done|done].
    + rewrite bool_decide_eq_false_2 by done. exists c, enc. by repeat split.
Qed.

Lemma next_free_spec (occ : gset string) n :
  0 ≤ n →
  ∃ c enc,
    next_free base_char_set zero_padding occ n = Ok (c, enc)
    ∧ n ≤ c
    ∧ encode_counter base_char_set c zero_padding = Ok enc
    ∧ enc ∉ occ.
Proof.
  intros Hn. unfold next_free.
  destruct (encode_counter_total base_char_set n zero_padding two_symbols) as [enc0 E0].
  rewrite E0. simpl.
  by apply (skip_occupied_spec (size occ) occ occ).
Qed.

(** The body of the assignment loop, in terms of the views. *)
Lemma assign_reef_id_views g st :
  synced st →
  assign_reef_id base_char_set prefix zero_padding g st
  = ('(c, enc) ← next_free base_char_set zero_padding
                   (occupied st prefix g) (next_counter st prefix g) ;
     Ok (c, make_id prefix g enc,
         {| grid_feature_count :=
              <[prefix := <[g := c + 1]>
                 (default ∅ (grid_feature_count st !! prefix))]>
                (grid_feature_count st);
            grid_existing_ids :=
              if bool_decide (grid_feature_count st !! prefix = None)
              then <[prefix := ∅]> (grid_existing_ids st)
              else grid_existing_ids st |})).
Proof.
  intros Hsync. unfold assign_reef_id, next_free, occupied, next_counter.
  destruct st as [count existing]. simpl.
  pose proof (Hsync prefix) as Hp. simpl in Hp.
  destruct (count !! prefix) as [count_p|] eqn:Ec.
  - destruct (existing !! prefix) as [ids_p|] eqn:Ee; [|by specialize (proj2 Hp eq_refl)].
    rewrite bool_decide_eq_false_2 by done.
    unfold dict_get. rewrite Ec, Ee. simpl.
    assert (Hn : default 0
              (match count_p !! g with
               | Some _ => count_p
               | None => <[g:=0]> count_p
               end !! g) = default 0 (count_p !! g)).
    { destruct (count_p !! g) eqn:Eg; [by rewrite Eg|by rewrite lookup_insert_eq]. }
    rewrite Hn.
    destruct (encode_counter _ _ _) as [enc0| |]; simpl; try done.
    destruct (skip_occupied _ _ _ _ _ _) as [[c enc]| |]; simpl; try done.
    do 3 f_equal. destruct (count_p !! g) eqn:Eg; [done|].
    by rewrite insert_insert_eq.
  - destruct (existing !! prefix) as [ids_p|] eqn:Ee; [by specialize (proj1 Hp eq_refl)|].
    rewrite bool_decide_eq_true_2 by done.
    unfold dict_get. rewrite !lookup_insert_eq. simpl.
    rewrite lookup_empty, lookup_insert_eq. simpl.
    destruct (encode_counter _ _ _) as [enc0| |]; simpl; try done.
    rewrite lookup_empty. simpl.
    destruct (skip_occupied _ _ _ _ _ _) as [[c enc]| |]; simpl; try done.
    do 3 f_equal. by rewrite !insert_insert_eq.
Qed.

Lemma assign_reef_id_spec g st :
  synced st → counters_nonneg st →
  ∃ c enc st',
    assign_reef_id base_char_set prefix zero_padding g st
    = Ok (c, make_id prefix g enc, st')
    ∧ next_free base_char_set zero_padding
        (occupied st prefix g) (next_counter st prefix g) = Ok (c, enc)
    ∧ next_counter st prefix g ≤ c
    ∧ encode_counter base_char_set c zero_padding = Ok enc
    ∧ (enc ∉ occupied st prefix g)
    ∧ synced st'
    ∧ (∀ p' g', occupied st' p' g' = occupied st p' g')
    ∧ (∀ p' g', next_counter st' p' g'
                = if decide (p' = prefix ∧ g' = g) then c + 1
                  else next_counter st p' g').
Proof.
  intros Hsync Hnn. rewrite assign_reef_id_views by done.
  destruct (next_free_spec (occupied st prefix g) (next_counter st prefix g) (Hnn _ _))
    as (c & enc & E & Hle & Henc & Hfree).
  rewrite E. simpl. eexists c, enc, _. split; [reflexivity|].
  repeat split; try done.
  - intros Hnone. simpl in *.
    destruct (decide (p = prefix)) as [->|Hne].
    + by rewrite lookup_insert_eq in Hnone.
    + rewrite lookup_insert_ne in Hnone by done.
      case_bool_decide; [rewrite lookup_insert_ne by done|]; by apply Hsync.
  - intros Hnone. simpl in *.
    destruct (decide (p = prefix)) as [->|Hne].
    + case_bool_decide as Hc; [by rewrite lookup_insert_eq in Hnone|].
      exfalso. apply Hc. by apply Hsync.
    + rewrite lookup_insert_ne by done.
      case_bool_decide; [rewrite lookup_insert_ne in Hnone by done|]; by apply Hsync.
  - intros p' g'. unfold occupied. simpl.
    case_bool_decide as Hc; [|done].
    destruct (decide (p' = prefix)) as [->|Hne].
    + rewrite lookup_insert_eq. simpl. rewrite lookup_empty.
      apply Hsync in Hc. by rewrite Hc.
    + by rewrite lookup_insert_ne.
  - intros p' g'. unfold next_counter. simpl.
    destruct (decide (p' = prefix)) as [->|Hne].
    + rewrite lookup_insert_eq. simpl.
      destruct (decide (g' = g)) as [->|Hg].
      * rewrite lookup_insert_eq. by rewrite decide_True.
      * rewrite lookup_insert_ne by done. rewrite decide_False by (by intros [??]).
        by destruct (grid_feature_count st !! prefix).
    + rewrite lookup_insert_ne by done. by rewrite decide_False by (by intros [??]).
Qed.

End AssignFacts.

(** ** Lists, sorting and grouping *)

Lemma sort_insert_perm x l : sort_insert x l ≡ₚ x :: l.
Proof.
  induction l as [|y l IH]; simpl; [done|].
  destruct (float_leb _ _); [done|]. rewrite IH. apply perm_swap.
Qed.

Lemma sort_values_perm l : sort_values l ≡ₚ l.
Proof.
  induction l as [|x l IH]; simpl; [done|]. by rewrite sort_insert_perm, IH.
Qed.

Lemma elem_of_iterrows gdf idx row :
  (idx, row) ∈ iterrows gdf ↔ gdf !! idx = Some row.
Proof.
  unfold iterrows. rewrite elem_of_lookup_imap. split.
  - intros (i & r & ? & ?). by simplify_eq.
  - intros. by exists idx, row.
Qed.

Lemma elem_of_select_cell grid_schemes g gdf idx row :
  (idx, row) ∈ select_cell grid_schemes g gdf
  ↔ grid_schemes !! idx = Some g ∧ gdf !! idx = Some row.
Proof.
  unfold select_cell. rewrite list_elem_of_filter, elem_of_iterrows. done.
Qed.

Lemma elem_of_unique (l : list string) x : x ∈ unique l ↔ x ∈ l.
Proof.
  induction l as [|y l IH]; simpl; [done|].
  rewrite !elem_of_cons, list_elem_of_filter, IH.
  destruct (decide (x = y)); naive_solver.
Qed.

Lemma StronglySorted_snoc {A} (R : A → A → Prop) l y :
  StronglySorted R l → Forall (λ x, R x y) l → StronglySorted R (l ++ [y]).
Proof.
  induction 1 as [|x l Hs IH Hx]; intros Hy; simpl.
  - repeat constructor.
  - apply Forall_cons in Hy as [Hxy Hy]. constructor; [by apply IH|].
    apply Forall_app. split; [done|by constructor].
Qed.

Lemma StronglySorted_elem_of {A} (R : A → A → Prop) l x y :
  StronglySorted R l → x ∈ l → y ∈ l → x = y ∨ R x y ∨ R y x.
Proof.
  induction 1 as [|z l Hs IH Hz]; intros Hx Hy; [by apply elem_of_nil in Hx|].
  rewrite Forall_forall in Hz.
  apply elem_of_cons in Hx as [->|Hx]; apply elem_of_cons in Hy as [->|Hy]; auto.
Qed.

(** ** The assignment loops *)

Section LoopFacts.

Variable base_char_set : string.
Variable prefix : string.
Variable zero_padding : Z.

Hypothesis distinct_symbols : NoDup (chars base_char_set).
Hypothesis two_symbols : 2 ≤ encoding_base base_char_set.

Variable gdf0 : list feature.
Variable st0 : alloc_state.

Local Abbreviation invariant :=
  (run_invariant base_char_set prefix zero_padding gdf0 st0).

Lemma row_ok_mono log e i row0 row :
  row_ok log i row0 row → row_ok (log ++ [e]) i row0 row.
Proof.
  unfold row_ok. destruct (ReefID row0); [done|].
  intros [->|(e' & ? & ? & ?)]; [by left|right].
  exists e'. split; [|done]. apply elem_of_app. by left.
Qed.

Lemma labeled_alter gdf idx id i :
  labeled gdf i → labeled (alter (set_ReefID id) idx gdf) i.
Proof.
  intros (row & rid & Hrow & Hid).
  destruct (decide (idx = i)) as [->|Hne].
  - exists (set_ReefID id row), id. split; [|done].
    by rewrite list_lookup_alter_eq, Hrow.
  - exists row, rid. by rewrite list_lookup_alter_ne.
Qed.

(** The inner loop runs to its end and keeps the invariant. *)
Lemma assign_rows_spec g sub gdf st log :
  hyphen_free g →
  invariant gdf st log →
  (∀ idx row row0, (idx, row) ∈ sub → ReefID row = None →
                   gdf0 !! idx = Some row0 → ReefID row0 = None) →
  ∃ gdf' st' log',
    assign_rows base_char_set prefix zero_padding g sub gdf st log
    = Ok (gdf', st', log')
    ∧ invariant gdf' st' log'
    ∧ (∀ i, labeled gdf i → labeled gdf' i)
    ∧ (∀ idx row, (idx, row) ∈ sub → ReefID row = None →
                  (idx < length gdf)%nat → labeled gdf' idx)
    ∧ (∀ p' g', (p', g') ≠ (prefix, g) →
                next_counter st' p' g' = next_counter st p' g').
Proof.
  intros Hg. revert gdf st log.
  induction sub as [|[idx row] sub IH]; intros gdf st log Hinv Hsub; simpl.
  - exists gdf, st, log. split_and!; try done.
    intros ?? Hin. by apply elem_of_nil in Hin.
  - destruct (ReefID row) as [rid|] eqn:Hrid.
    + destruct (IH gdf st log Hinv) as (gdf' & st' & log' & E & Hinv' & Hlab & Hnew & Hnext).
      { intros i r r0 Hin. apply Hsub. by right. }
      exists gdf', st', log'. split_and!; try done.
      intros i r Hin Hr Hlen. apply elem_of_cons in Hin as [Heq|Hin]; [|by eapply Hnew].
      simplify_eq.
    + destruct Hinv as [Hlen Hrows Hsync Hnn Hocc Hent Hgrids Hinc].
      destruct (assign_reef_id_spec base_char_set prefix zero_padding
                  distinct_symbols two_symbols g st Hsync Hnn)
        as (c & enc & st1 & E1 & _ & Hle & Henc & Hfree & Hsync1 & Hocc1 & Hnext1).
      rewrite E1. simpl.
      set (e := Assignment idx g c (make_id prefix g enc)).
      assert (Hinv1 : invariant (alter (set_ReefID (make_id prefix g enc)) idx gdf)
                        st1 (log ++ [e])).
      { split.
        - by rewrite length_alter.
        - intros i r0 r Hr0 Hr. destruct (decide (idx = i)) as [->|Hne].
          + rewrite list_lookup_alter_eq in Hr.
            destruct (gdf !! i) as [r_old|] eqn:Hold; simpl in Hr; [|done]. simplify_eq.
            pose proof (Hrows i r0 r_old Hr0 Hold) as Hok.
            assert (ReefID r0 = None) as Hnone by (eapply Hsub; [by left|done..]).
            unfold row_ok in *. rewrite Hnone in *. right.
            exists e. split; [apply elem_of_app; right; by apply list_elem_of_singleton|].
            split; [done|].
            destruct Hok as [->|(e' & _ & _ & ->)]; done.
          + rewrite list_lookup_alter_ne in Hr by done.
            apply row_ok_mono. by eapply Hrows.
        - done.
        - intros p' g'. rewrite Hnext1. case_decide; [|apply Hnn].
          pose proof (Hnn prefix g). lia.
        - intros p' g'. by rewrite Hocc1.
        - apply Forall_app. split.
          + eapply Forall_impl; [exact Hent|].
            intros e' (enc' & ? & ? & [? ?] & ?). exists enc'. split_and!; try done.
            rewrite Hnext1. case_decide as Hd; [|done].
            destruct Hd as [_ Hd]. rewrite Hd in *. lia.
          + constructor; [|constructor]. exists enc. simpl. split_and!; try done.
            * pose proof (Hnn prefix g). lia.
            * rewrite Hnext1. rewrite decide_True by done. lia.
            * by rewrite <- Hocc.
        - apply Forall_app. split; [done|]. by repeat constructor.
        - apply StronglySorted_snoc; [done|].
          eapply Forall_impl; [exact Hent|].
          intros e' (enc' & ? & ? & [? ?] & ?) Heq. simpl in *. rewrite Heq in *. lia. }
      destruct (IH _ _ _ Hinv1) as (gdf' & st' & log' & E & Hinv' & Hlab & Hnew & Hnext).
      { intros i r r0 Hin. apply Hsub. by right. }
      exists gdf', st', log'. split; [done|]. split; [done|]. split; [|split].
      * intros i Hi. by apply Hlab, labeled_alter.
      * intros i r Hin Hr Hlt. apply elem_of_cons in Hin as [Heq|Hin].
        -- simplify_eq. apply Hlab.
           destruct (lookup_lt_is_Some_2 gdf idx Hlt) as [r_old Hold].
           exists (set_ReefID (make_id prefix g enc) r_old), (make_id prefix g enc).
           split; [|done]. by rewrite list_lookup_alter_eq, Hold.
        -- apply (Hnew i r); [done..|]. by rewrite length_alter.
      * intros p' g' Hne. rewrite Hnext by done. rewrite Hnext1.
        rewrite decide_False; [done|]. intros [-> ->]. done.
Qed.

(** The outer loop runs to its end, keeps the invariant and leaves every
    row of the cells it visited with an identifier. *)
Lemma assign_cells_spec cells grid_schemes gdf st log :
  Forall hyphen_free cells →
  invariant gdf st log →
  ∃ gdf' st' log',
    assign_cells base_char_set prefix zero_padding cells grid_schemes gdf st log
    = Ok (gdf', st', log')
    ∧ invariant gdf' st' log'
    ∧ (∀ i, labeled gdf i → labeled gdf' i)
    ∧ (∀ i g, g ∈ cells → grid_schemes !! i = Some g →
              (i < length gdf)%nat → labeled gdf' i).
Proof.
  revert gdf st log.
  induction cells as [|g cells IH]; intros gdf st log Hcells Hinv; simpl.
  - exists gdf, st, log. split_and!; try done.
    intros ?? Hin. by apply elem_of_nil in Hin.
  - apply Forall_cons in Hcells as [Hg Hcells].
    set (sub := sort_values (select_cell grid_schemes g gdf)).
    assert (Hsub : ∀ idx row, (idx, row) ∈ sub ↔
                     grid_schemes !! idx = Some g ∧ gdf !! idx = Some row).
    { intros idx row. unfold sub. rewrite sort_values_perm.
      apply elem_of_select_cell. }
    destruct (assign_rows_spec g sub gdf st log Hg Hinv)
      as (gdf1 & st1 & log1 & E1 & Hinv1 & Hlab1 & Hnew1 & _).
    { intros idx row row0 Hin Hrow Hrow0. apply Hsub in Hin as [_ Hin].
      pose proof (inv_rows _ _ _ _ _ _ _ _ Hinv idx row0 row Hrow0 Hin) as Hok.
      unfold row_ok in Hok. destruct (ReefID row0) eqn:E0; [|done].
      subst row. congruence. }
    rewrite E1. simpl.
    destruct (IH gdf1 st1 log1 Hcells Hinv1) as (gdf' & st' & log' & E & Hinv' & Hlab & Hdone).
    exists gdf', st', log'. split; [done|]. split; [done|]. split.
    + intros i Hi. by apply Hlab, Hlab1.
    + assert (Hlen1 : length gdf1 = length gdf).
      { rewrite (inv_length _ _ _ _ _ _ _ _ Hinv1).
        by rewrite (inv_length _ _ _ _ _ _ _ _ Hinv). }
      intros i g' Hin Hgs Hlt. apply elem_of_cons in Hin as [->|Hin].
      * apply Hlab.
        destruct (lookup_lt_is_Some_2 gdf i Hlt) as [row Hrow].
        destruct (ReefID row) as [rid|] eqn:Hrid.
        -- apply Hlab1. by exists row, rid.
        -- apply (Hnew1 i row); [by apply Hsub|done..].
      * apply (Hdone i g'); [done..|]. by rewrite Hlen1.
Qed.

End LoopFacts.

(** ** Identifiers as strings *)

Lemma str_split_nonempty sep s : str_split sep s ≠ [].
Proof.
  destruct s as [|a s]; simpl; [done|].
  destruct (Ascii.eqb a sep); [done|]. by destruct (str_split sep s).
Qed.

Lemma str_split_app sep a b :
  str_split sep (a +:+ String sep b) = str_split sep a ++ str_split sep b.
Proof.
  induction a as [|c a IH].
  - change (str_split sep (String sep b) = [EmptyString] ++ str_split sep b).
    simpl. by rewrite Ascii.eqb_refl.
  - change (str_split sep (String c (a +:+ String sep b))
            = str_split sep (String c a) ++ str_split sep b).
    simpl. rewrite IH. destruct (Ascii.eqb c sep); [done|].
    pose proof (str_split_nonempty sep a).
    by destruct (str_split sep a).
Qed.

Lemma str_split_hyphen_free s : hyphen_free s → str_split "-" s = [s].
Proof.
  unfold hyphen_free, chars. induction s as [|c s IH]; intros H; simpl in *; [done|].
  destruct (Ascii.eqb c "-") eqn:E.
  - apply Ascii.eqb_eq in E as ->. exfalso. apply H. left.
  - rewrite IH; [done|]. intros Hin. apply H. by right.
Qed.

Lemma str_split_singleton sep s x : str_split sep s = [x] → x = s.
Proof.
  revert x. induction s as [|c s IH]; intros x H; simpl in H; [by simplify_eq|].
  pose proof (str_split_nonempty sep s).
  destruct (Ascii.eqb c sep); [destruct (str_split sep s); by simplify_eq|].
  destruct (str_split sep s) as [|w ws] eqn:E; [done|]. simplify_eq.
  by rewrite (IH w eq_refl).
Qed.

Lemma str_split_make_id p g e :
  hyphen_free g → hyphen_free e →
  str_split "-" (make_id p g e) = str_split "-" p ++ [g; e].
Proof.
  intros Hg He. unfold make_id.
  change ("-" +:+ g +:+ "-" +:+ e) with (String "-" (g +:+ String "-" e)).
  rewrite !str_split_app.
  rewrite (str_split_hyphen_free g), (str_split_hyphen_free e) by done. done.
Qed.

Lemma make_id_inj p g e g' e' :
  hyphen_free g → hyphen_free e → hyphen_free g' → hyphen_free e' →
  make_id p g e = make_id p g' e' → g = g' ∧ e = e'.
Proof.
  intros Hg He Hg' He' H. apply (f_equal (str_split "-")) in H.
  rewrite !str_split_make_id in H by done.
  apply app_inv_head in H. by simplify_eq.
Qed.

Lemma str_getitem_chars s i c : str_getitem s i = Ok c → c ∈ chars s.
Proof.
  unfold str_getitem. destruct (_ || _); [done|].
  destruct (String.get _ s) eqn:E; [|done]. intros. simplify_eq.
  by eapply string_get_chars.
Qed.

Section CodeChars.

Variable base_char_set : string.
Hypothesis alphabet_hyphen_free : hyphen_free base_char_set.

Lemma encode_counter_hyphen_free n w s :
  encode_counter base_char_set n w = Ok s → hyphen_free s.
Proof.
  unfold encode_counter. intros H. inv_bind H.
  assert (Hd : ∀ fuel c e s', hyphen_free e →
            encode_counter_digits base_char_set fuel c e = Ok s' → hyphen_free s').
  { clear -alphabet_hyphen_free. induction fuel as [|fuel IH]; intros c e s' He H; simpl in H.
    - destruct (0 <? c); by simplify_eq.
    - destruct (0 <? c); [|by simplify_eq].
      destruct (_ =? 0); [done|]. inv_bind H. eapply IH; [|exact H].
      unfold hyphen_free, chars in *. simpl. intros [<-|Hin]%elem_of_cons; [|done].
      apply alphabet_hyphen_free. by eapply str_getitem_chars. }
  assert (Hp : ∀ k e s', hyphen_free e →
            encode_counter_pad base_char_set k e = Ok s' → hyphen_free s').
  { clear -alphabet_hyphen_free. induction k as [|k IH]; intros e s' He H; simpl in H.
    - by simplify_eq.
    - inv_bind H. eapply IH; [|exact H].
      unfold hyphen_free, chars in *. simpl. intros [<-|Hin]%elem_of_cons; [|done].
      apply alphabet_hyphen_free. by eapply str_getitem_chars. }
  eapply Hp; [|exact H]. eapply Hd; [|exact E].
  unfold hyphen_free, chars. simpl. apply not_elem_of_nil.
Qed.

Lemma encode_grid_hyphen_free lon lat g :
  encode_grid base_char_set lon lat = Ok g → hyphen_free g.
Proof.
  unfold encode_grid. intros H.
  repeat (let a := fresh "a" in let Ha := fresh "E" in
          apply bind_Ok in H; destruct H as (a & Ha & H)).
  simplify_eq. unfold hyphen_free, chars. simpl.
  unfold encode_base_str in *.
  rewrite !elem_of_cons, elem_of_nil.
  intros [<-|[<-|[<-|[<-|[]]]]]; apply alphabet_hyphen_free;
    by eapply str_getitem_chars.
Qed.

Lemma encode_grids_spec rows gs :
  encode_grids base_char_set rows = Ok gs →
  length gs = length rows
  ∧ Forall hyphen_free gs
  ∧ ∀ i row, rows !! i = Some row →
      ∃ g, gs !! i = Some g
           ∧ encode_grid base_char_set (centroid_x row) (centroid_y row) = Ok g.
Proof.
  revert gs. induction rows as [|row rows IH]; intros gs H; simpl in H.
  - simplify_eq. split; [done|]. split; [constructor|]. intros i row Hi.
    by rewrite lookup_nil in Hi.
  - inv_bind H. inv_bind H. simplify_eq.
    destruct (IH _ E0) as (Hlen & Hall & Hrows).
    split; [simpl; by rewrite Hlen|]. split.
    + constructor; [by eapply encode_grid_hyphen_free|done].
    + intros [|i] r Hr; simpl in *; [simplify_eq; eauto|by apply Hrows].
Qed.

End CodeChars.

Lemma encode_grids_ext base_char_set rows rows' :
  Forall2 (λ r r', centroid_x r = centroid_x r' ∧ centroid_y r = centroid_y r') rows rows' →
  encode_grids base_char_set rows = encode_grids base_char_set rows'.
Proof.
  induction 1 as [|r r' rows rows' [Hx Hy] _ IH]; simpl; [done|].
  by rewrite Hx, Hy, IH.
Qed.

(** ** A whole run *)

Lemma process_shapefile_Ok base_char_set prefix zero_padding gdf out :
  process_shapefile base_char_set prefix zero_padding gdf = Ok out
  ↔ ∃ st log, allocate base_char_set prefix zero_padding gdf = Ok (out, st, log).
Proof.
  unfold process_shapefile. split.
  - intros H. inv_bind H. destruct a as [[out' st] log]. simplify_eq. eauto.
  - intros (st & log & ->). done.
Qed.

(** A malformed identifier anywhere in the frame aborts the run in the
    first loop. *)
Lemma allocate_malformed base_char_set prefix zero_padding gdf :
  ¬ Forall (well_formed_id base_char_set) (existing_ids gdf) →
  allocate base_char_set prefix zero_padding gdf = Raise ValueError.
Proof.
  intros H. unfold allocate. rewrite process_existing_register_all.
  destruct (register_all_cases base_char_set (existing_ids gdf) initial_state
              initial_state_synced) as [[Hall _]|[_ ->]]; done.
Qed.

Lemma initial_state_nonneg : counters_nonneg initial_state.
Proof. intros p g. unfold next_counter. simpl. by rewrite lookup_empty. Qed.

(** When no row lacks an identifier, the assignment loops change nothing. *)
Lemma assign_rows_all_labeled base_char_set prefix zero_padding g sub gdf st log :
  Forall (λ ir : nat * feature, ReefID ir.2 ≠ None) sub →
  assign_rows base_char_set prefix zero_padding g sub gdf st log = Ok (gdf, st, log).
Proof.
  induction 1 as [|[idx row] sub Hrow _ IH]; simpl; [done|].
  simpl in Hrow. by destruct (ReefID row).
Qed.

Lemma assign_cells_all_labeled base_char_set prefix zero_padding cells gs gdf st log :
  (∀ i row, gdf !! i = Some row → ReefID row ≠ None) →
  assign_cells base_char_set prefix zero_padding cells gs gdf st log = Ok (gdf, st, log).
Proof.
  intros Hall. induction cells as [|g cells IH]; simpl; [done|].
  rewrite assign_rows_all_labeled; [simpl; apply IH|].
  apply Forall_forall. intros [idx row] Hin.
  rewrite sort_values_perm in Hin. apply elem_of_select_cell in Hin as [_ Hin].
  by eapply Hall.
Qed.

Lemma NoDup_omap_lookup {A B} (f : A → option B) (l : list A) :
  NoDup (omap f l)
  ↔ ∀ i j x y b, i ≠ j → l !! i = Some x → l !! j = Some y →
                 f x = Some b → f y ≠ Some b.
Proof.
  induction l as [|a l IH]; simpl.
  - split; [|constructor]. intros _ i j x y b _ Hi. by rewrite lookup_nil in Hi.
  - split.
    + intros Hnd i j x y b Hij Hi Hj Hx Hy.
      destruct (f a) as [fa|] eqn:Ea.
      * apply NoDup_cons in Hnd as [Hnotin Hnd].
        destruct i as [|i], j as [|j]; simpl in *; simplify_eq.
        -- apply Hnotin. apply list_elem_of_omap. exists y. split; [|done].
           by eapply list_elem_of_lookup_2.
        -- apply Hnotin. apply list_elem_of_omap. exists x. split; [|done].
           by eapply list_elem_of_lookup_2.
        -- eapply (proj1 IH Hnd i j x y b); [lia|done..].
      * destruct i as [|i], j as [|j]; simpl in *; simplify_eq.
        eapply (proj1 IH Hnd i j x y b); [lia|done..].
    + intros H.
      assert (Htl : NoDup (omap f l)).
      { apply IH. intros i j x y b Hij Hi Hj. apply (H (S i) (S j)); [lia|done..]. }
      destruct (f a) as [fa|] eqn:Ea; [|done].
      apply NoDup_cons. split; [|done].
      intros (y & Hy & Hfy)%list_elem_of_omap.
      apply list_elem_of_lookup in Hy as [j Hj].
      by apply (H 0%nat (S j) a y fa).
Qed.

Section RunFacts.

Variable base_char_set : string.
Variable prefix : string.
Variable zero_padding : Z.

Hypothesis distinct_symbols : NoDup (chars base_char_set).
Hypothesis two_symbols : 2 ≤ encoding_base base_char_set.
Hypothesis alphabet_hyphen_free : hyphen_free base_char_set.

Lemma process_existing_Ok gdf st0 :
  process_existing base_char_set gdf initial_state = Ok st0 →
  Forall (well_formed_id base_char_set) (existing_ids gdf)
  ∧ synced st0 ∧ counters_nonneg st0
  ∧ (∀ reef_id p g c, reef_id ∈ existing_ids gdf →
                      str_split "-" reef_id = [p; g; c] → c ∈ occupied st0 p g).
Proof.
  rewrite process_existing_register_all. intros H.
  destruct (register_all_cases base_char_set (existing_ids gdf) initial_state
              initial_state_synced) as [[Hall _]|[_ E]]; [|rewrite E in H; done].
  destruct (register_all_views _ _ _ _ initial_state_synced H) as (Hs & Hnn & _ & Hreg).
  split_and!; [done|done| |done]. apply Hnn, initial_state_nonneg.
Qed.

(** What a completed run establishes. *)
Lemma allocate_Ok gdf out st log :
  allocate base_char_set prefix zero_padding gdf = Ok (out, st, log) →
  ∃ st0 gs,
    process_existing base_char_set gdf initial_state = Ok st0
    ∧ encode_grids base_char_set gdf = Ok gs
    ∧ run_invariant base_char_set prefix zero_padding gdf st0 out st log
    ∧ (∀ i, (i < length gdf)%nat → labeled out i).
Proof.
  unfold allocate. intros H. inv_bind H. rename a into st0. inv_bind H. rename a into gs.
  exists st0, gs. split; [done|]. split; [done|].
  destruct (process_existing_Ok _ _ E) as (_ & Hs & Hnn & _).
  destruct (encode_grids_spec _ alphabet_hyphen_free _ _ E0) as (Hlen & Hfree & Hgs).
  destruct (assign_cells_spec base_char_set prefix zero_padding distinct_symbols
              two_symbols gdf st0 (unique gs) gs gdf st0 [])
    as (gdf' & st' & log' & E' & Hinv & _ & Hdone).
  { apply Forall_forall. intros g Hg. apply (proj1 (elem_of_unique _ _)) in Hg.
    by apply (proj1 (Forall_forall _ _) Hfree). }
  { split; try done; try constructor.
    intros i r0 r Hr0 Hr. rewrite Hr0 in Hr. injection Hr as <-.
    unfold row_ok. destruct (ReefID r0); [done|by left]. }
  rewrite E' in H. simplify_eq. split; [done|].
  intros i Hi. destruct (lookup_lt_is_Some_2 gdf i Hi) as [row Hrow].
  destruct (Hgs i row Hrow) as (g & Hg & _).
  apply (Hdone i g); [|done..]. apply elem_of_unique. by eapply list_elem_of_lookup_2.
Qed.

(** The assignment loops never fail: a run completes as soon as the
    existing identifiers are well formed and every centroid has a grid
    code. *)
Lemma allocate_total gdf gs :
  Forall (well_formed_id base_char_set) (existing_ids gdf) →
  encode_grids base_char_set gdf = Ok gs →
  ∃ out st log, allocate base_char_set prefix zero_padding gdf = Ok (out, st, log).
Proof.
  intros Hwf Hgs. unfold allocate. rewrite process_existing_register_all.
  destruct (register_all_cases base_char_set (existing_ids gdf) initial_state
              initial_state_synced) as [[_ (st0 & E & Hs)]|[Hn _]]; [|done].
  rewrite E, Hgs. simpl.
  rewrite <- process_existing_register_all in E.
  destruct (process_existing_Ok _ _ E) as (_ & _ & Hnn & _).
  destruct (encode_grids_spec _ alphabet_hyphen_free _ _ Hgs) as (Hlen & Hfree & _).
  destruct (assign_cells_spec base_char_set prefix zero_padding distinct_symbols
              two_symbols gdf st0 (unique gs) gs gdf st0 [])
    as (gdf' & st' & log' & E' & _).
  { apply Forall_forall. intros g Hg. apply (proj1 (elem_of_unique _ _)) in Hg.
    by apply (proj1 (Forall_forall _ _) Hfree). }
  { split; try done; try constructor.
    intros i r0 r Hr0 Hr. rewrite Hr0 in Hr. injection Hr as <-.
    unfold row_ok. destruct (ReefID r0); [done|by left]. }
  eauto.
Qed.

(** Every row of a completed run against the row that was loaded. *)
Lemma allocate_rows gdf out st log st0 i row0 :
  run_invariant base_char_set prefix zero_padding gdf st0 out st log →
  (∀ i, (i < length gdf)%nat → labeled out i) →
  gdf !! i = Some row0 →
  ∃ row, out !! i = Some row
    ∧ match ReefID row0 with
      | Some _ => row = row0
      | None => ∃ e, e ∈ log ∧ asg_idx e = i
                     ∧ row = set_ReefID (asg_new_reef_id e) row0
      end.
Proof.
  intros Hinv Hlab Hrow0.
  destruct (Hlab i (lookup_lt_Some _ _ _ Hrow0)) as (row & rid & Hrow & Hrid).
  exists row. split; [done|].
  pose proof (inv_rows _ _ _ _ _ _ _ _ Hinv i row0 row Hrow0 Hrow) as Hok.
  unfold row_ok in Hok. destruct (ReefID row0) eqn:E0; [done|].
  destruct Hok as [->|Hok]; [congruence|done].
Qed.

End RunFacts.

(** ** Results on the allocator *)

Lemma two_symbols_BASE_CHAR_SETS b : 2 ≤ encoding_base (BASE_CHAR_SETS b).
Proof. destruct b; vm_compute; discriminate. Qed.

Lemma hyphen_free_BASE_CHAR_SETS b : hyphen_free (BASE_CHAR_SETS b).
Proof.
  destruct b; apply (@bool_decide_unpack _ (not_dec (list_elem_of_dec _ _)));
    vm_compute; exact I.
Qed.

(** C2.  A completed run leaves every feature that already had an
    identifier exactly as it was, whatever the other rows are; the only
    change it makes to the frame is to set the identifier of the features
    that had none. *)
Theorem existing_identifiers_unchanged (b : base_name) (prefix : string)
    (zero_padding : Z) (gdf out : list feature) :
  process_shapefile (BASE_CHAR_SETS b) prefix zero_padding gdf = Ok out →
  length out = length gdf
  ∧ ∀ i row, gdf !! i = Some row →
      ∃ row', out !! i = Some row'
        ∧ match ReefID row with
          | Some _ => row' = row
          | None => ∃ new_reef_id, row' = set_ReefID new_reef_id row
          end.
Proof.
  intros H. apply process_shapefile_Ok in H as (st & log & H).
  destruct (allocate_Ok _ prefix zero_padding (NoDup_BASE_CHAR_SETS b)
              (two_symbols_BASE_CHAR_SETS b) (hyphen_free_BASE_CHAR_SETS b) _ _ _ _ H)
    as (st0 & gs & _ & _ & Hinv & Hlab).
  split; [by apply (inv_length _ _ _ _ _ _ _ _ Hinv)|].
  intros i row Hrow.
  destruct (allocate_rows _ _ _ _ _ _ _ _ _ _ Hinv Hlab Hrow) as (row' & Hrow' & Hok).
  exists row'. split; [done|]. destruct (ReefID row); [done|].
  destruct Hok as (e & _ & _ & ->). eauto.
Qed.

Lemma existing_identifiers_unchanged_witness :
  let labeled_row :=
    Feature (Some "R-9038-000") (PyFloat.of_int 147) (PyFloat.of_int (-20)) in
  let gdf := [labeled_row; reef_a; reef_b] in
  let out := [labeled_row; set_ReefID "R-9038-001" reef_a;
              set_ReefID "R-9038-002" reef_b] in
  process_shapefile BASE_B10 "R" 3 gdf = Ok out
  ∧ length out = length gdf
  ∧ ∀ i row, gdf !! i = Some row →
      ∃ row', out !! i = Some row'
        ∧ match ReefID row with
          | Some _ => row' = row
          | None => ∃ new_reef_id, row' = set_ReefID new_reef_id row
          end.
Proof.
  intros labeled_row gdf out.
  assert (H : process_shapefile BASE_B10 "R" 3 gdf = Ok out) by (vm_compute; reflexivity).
  split; [exact H|].
  exact (existing_identifiers_unchanged B10 "R" 3 gdf out H).
Defined.

(** C6, as stated, fails: an existing identifier with two parts makes
    the run raise ValueError in the first loop; no other feature is
    processed and nothing is saved. *)
Lemma malformed_identifier_aborts :
  process_shapefile BASE_B10 "R" 3
    [Feature (Some "R-9038") (PyFloat.of_int 147) (PyFloat.of_int (-20)); reef_a]
  = Raise ValueError.
Proof. vm_compute. reflexivity. Qed.

(** C6, amended.  If an existing identifier does not split into exactly
    3 hyphen-separated parts, the run stops in the first loop with an
    uncaught ValueError: no identifier is assigned and no frame is
    returned for saving. *)
Theorem malformed_identifier_fatal (base_char_set prefix : string)
    (zero_padding : Z) (gdf : list feature) (reef_id : string) :
  reef_id ∈ existing_ids gdf →
  length (str_split "-" reef_id) ≠ 3%nat →
  allocate base_char_set prefix zero_padding gdf = Raise ValueError
  ∧ process_shapefile base_char_set prefix zero_padding gdf = Raise ValueError.
Proof.
  intros Hin Hlen.
  assert (H : allocate base_char_set prefix zero_padding gdf = Raise ValueError).
  { apply allocate_malformed. intros Hall.
    rewrite Forall_forall in Hall. destruct (Hall _ Hin) as (p & g & c & d & Hs & _).
    by rewrite Hs in Hlen. }
  split; [done|]. unfold process_shapefile. by rewrite H.
Qed.

Lemma malformed_identifier_fatal_witness :
  process_shapefile BASE_B10 "R" 3
    [reef_a; Feature (Some "R-9038-000-1") (PyFloat.of_int 147) (PyFloat.of_int (-20))]
  = Raise ValueError.
Proof.
  apply (malformed_identifier_fatal BASE_B10 "R" 3
           [reef_a; Feature (Some "R-9038-000-1") (PyFloat.of_int 147) (PyFloat.of_int (-20))]
           "R-9038-000-1").
  - vm_compute. apply list_elem_of_singleton. reflexivity.
  - vm_compute. discriminate.
Defined.

(** C10.  Every assignment commits a counter that is at least the stored
    next counter of its (prefix, grid code) pair, and stores that counter
    plus one; it leaves the occupied sets as the first loop built them.
    In the log of a completed run the counters committed for one grid code
    are therefore strictly increasing. *)
Theorem committed_counters_increase (b : base_name) (prefix : string)
    (zero_padding : Z) :
  (∀ grid_scheme st, synced st → counters_nonneg st →
     ∃ new_counter new_reef_id st',
       assign_reef_id (BASE_CHAR_SETS b) prefix zero_padding grid_scheme st
       = Ok (new_counter, new_reef_id, st')
       ∧ next_counter st prefix grid_scheme ≤ new_counter
       ∧ next_counter st' prefix grid_scheme = new_counter + 1
       ∧ ∀ p g, occupied st' p g = occupied st p g)
  ∧ (∀ gdf out st log,
       allocate (BASE_CHAR_SETS b) prefix zero_padding gdf = Ok (out, st, log) →
       increasing_per_cell log
       ∧ ∃ st0, process_existing (BASE_CHAR_SETS b) gdf initial_state = Ok st0
                ∧ ∀ p g, occupied st p g = occupied st0 p g).
Proof.
  split.
  - intros g st Hs Hnn.
    destruct (assign_reef_id_spec _ prefix zero_padding (NoDup_BASE_CHAR_SETS b)
                (two_symbols_BASE_CHAR_SETS b) g st Hs Hnn)
      as (c & enc & st' & E & _ & Hle & _ & _ & _ & Hocc & Hnext).
    exists c, (make_id prefix g enc), st'. split_and!; try done.
    rewrite Hnext. by rewrite decide_True.
  - intros gdf out st log H.
    destruct (allocate_Ok _ prefix zero_padding (NoDup_BASE_CHAR_SETS b)
                (two_symbols_BASE_CHAR_SETS b) (hyphen_free_BASE_CHAR_SETS b) _ _ _ _ H)
      as (st0 & gs & E0 & _ & Hinv & _).
    split; [apply (inv_increasing _ _ _ _ _ _ _ _ Hinv)|].
    exists st0. split; [done|]. apply (inv_occupied _ _ _ _ _ _ _ _ Hinv).
Qed.

Lemma committed_counters_increase_witness :
  assignment_log BASE_B10 "R" 3
    [reef_a; Feature (Some "R-9038-001") (PyFloat.of_int 147) (PyFloat.of_int (-20)); reef_b]
  = Ok [Assignment 0 "9038" 2 "R-9038-002"; Assignment 2 "9038" 3 "R-9038-003"]
  ∧ ∃ out st log,
      allocate BASE_B10 "R" 3
        [reef_a; Feature (Some "R-9038-001") (PyFloat.of_int 147) (PyFloat.of_int (-20));
         reef_b] = Ok (out, st, log)
      ∧ increasing_per_cell log.
Proof.
  split; [vm_compute; reflexivity|].
  destruct (allocate BASE_B10 "R" 3
              [reef_a; Feature (Some "R-9038-001") (PyFloat.of_int 147) (PyFloat.of_int (-20));
               reef_b]) as [[[out st] log]| |] eqn:E;
    [|vm_compute in E; discriminate E..].
  exists out, st, log. split; [reflexivity|].
  exact (proj1 (proj2 (committed_counters_increase B10 "R" 3) _ _ _ _ E)).
Defined.

Section Uniqueness.

Variable base_char_set : string.
Variable prefix : string.
Variable zero_padding : Z.

Hypothesis distinct_symbols : NoDup (chars base_char_set).
Hypothesis two_symbols : 2 ≤ encoding_base base_char_set.
Hypothesis alphabet_hyphen_free : hyphen_free base_char_set.

(** A new identifier differs from every identifier that was present. *)
Lemma new_id_not_existing gdf st0 st e reef_id :
  process_existing base_char_set gdf initial_state = Ok st0 →
  entry_ok base_char_set prefix zero_padding st0 st e →
  hyphen_free (asg_grid_scheme e) →
  reef_id ∈ existing_ids gdf →
  asg_new_reef_id e ≠ reef_id.
Proof.
  intros E0 (enc & Hid & Henc & _ & Hfree) Hg Hin Heq.
  destruct (process_existing_Ok _ _ _ E0) as (Hwf & _ & _ & Hreg).
  rewrite Forall_forall in Hwf. destruct (Hwf _ Hin) as (p & g & c & d & Hs & _).
  pose proof (Hreg _ _ _ _ Hin Hs) as Hocc.
  rewrite <- Heq, Hid in Hs.
  rewrite str_split_make_id in Hs;
    [|done|exact (encode_counter_hyphen_free _ alphabet_hyphen_free _ _ _ Henc)].
  destruct (str_split "-" prefix) as [|x [|y l]] eqn:Ep; simpl in Hs.
  - by apply str_split_nonempty in Ep.
  - simplify_eq. apply str_split_singleton in Ep as ->. done.
  - apply (f_equal length) in Hs. simpl in Hs. rewrite length_app in Hs.
    simpl in Hs. lia.
Qed.

(** Two different log lines carry different identifiers. *)
Lemma log_ids_distinct st0 st log e1 e2 :
  Forall (entry_ok base_char_set prefix zero_padding st0 st) log →
  Forall (λ e, hyphen_free (asg_grid_scheme e)) log →
  increasing_per_cell log →
  e1 ∈ log → e2 ∈ log → asg_idx e1 ≠ asg_idx e2 →
  asg_new_reef_id e1 ≠ asg_new_reef_id e2.
Proof.
  intros Hent Hgrids Hinc H1 H2 Hidx Heq.
  rewrite Forall_forall in Hent. rewrite Forall_forall in Hgrids.
  destruct (Hent _ H1) as (enc1 & Hid1 & Henc1 & [Hc1 _] & _).
  destruct (Hent _ H2) as (enc2 & Hid2 & Henc2 & [Hc2 _] & _).
  rewrite Hid1, Hid2 in Heq.
  apply make_id_inj in Heq as [Hg Henc];
    [|by apply Hgrids|exact (encode_counter_hyphen_free _ alphabet_hyphen_free _ _ _ Henc1)
     |by apply Hgrids|exact (encode_counter_hyphen_free _ alphabet_hyphen_free _ _ _ Henc2)].
  subst enc2.
  pose proof (encode_counter_inj _ distinct_symbols _ _ _ _ Hc1 Hc2 Henc1 Henc2) as Hc.
  destruct (StronglySorted_elem_of _ _ _ _ Hinc H1 H2) as [->|[Hlt|Hlt]];
    [done|specialize (Hlt Hg)|specialize (Hlt (eq_sym Hg))]; lia.
Qed.

Lemma allocate_unique gdf out st log :
  NoDup (existing_ids gdf) →
  allocate base_char_set prefix zero_padding gdf = Ok (out, st, log) →
  NoDup (existing_ids out) ∧ length (existing_ids out) = length out.
Proof.
  intros Hnd H.
  destruct (allocate_Ok _ prefix zero_padding distinct_symbols two_symbols
              alphabet_hyphen_free _ _ _ _ H) as (st0 & gs & E0 & _ & Hinv & Hlab).
  assert (Hlen : length out = length gdf) by apply (inv_length _ _ _ _ _ _ _ _ Hinv).
  split.
  - apply NoDup_omap_lookup. intros i j ri rj a Hij Hi Hj Hai Haj.
    destruct (lookup_lt_is_Some_2 gdf i) as [r0i H0i];
      [rewrite <- Hlen; by eapply lookup_lt_Some|].
    destruct (lookup_lt_is_Some_2 gdf j) as [r0j H0j];
      [rewrite <- Hlen; by eapply lookup_lt_Some|].
    destruct (allocate_rows _ _ _ _ _ _ _ _ _ _ Hinv Hlab H0i) as (ri' & Hi' & Hoki).
    destruct (allocate_rows _ _ _ _ _ _ _ _ _ _ Hinv Hlab H0j) as (rj' & Hj' & Hokj).
    rewrite Hi in Hi'. rewrite Hj in Hj'. simplify_eq.
    destruct (ReefID r0i) as [ai|] eqn:Ei, (ReefID r0j) as [aj|] eqn:Ej.
    + subst ri' rj'.
      exact (proj1 (NoDup_omap_lookup ReefID gdf) Hnd i j r0i r0j a Hij H0i H0j Hai Haj).
    + destruct Hokj as (e & He & _ & ->). subst ri'. simpl in Haj.
      injection Haj as <-.
      apply (new_id_not_existing gdf st0 st e (asg_new_reef_id e)); [done| | | |done].
      * by apply (proj1 (Forall_forall _ _) (inv_entries _ _ _ _ _ _ _ _ Hinv)).
      * by apply (proj1 (Forall_forall _ _) (inv_grids _ _ _ _ _ _ _ _ Hinv)).
      * apply list_elem_of_omap. exists r0i. split; [|done].
        by eapply list_elem_of_lookup_2.
    + destruct Hoki as (e & He & _ & ->). subst rj'. simpl in Hai.
      injection Hai as <-.
      apply (new_id_not_existing gdf st0 st e (asg_new_reef_id e)); [done| | | |done].
      * by apply (proj1 (Forall_forall _ _) (inv_entries _ _ _ _ _ _ _ _ Hinv)).
      * by apply (proj1 (Forall_forall _ _) (inv_grids _ _ _ _ _ _ _ _ Hinv)).
      * apply list_elem_of_omap. exists r0j. split; [|done].
        by eapply list_elem_of_lookup_2.
    + destruct Hoki as (e1 & He1 & Hidx1 & ->). destruct Hokj as (e2 & He2 & Hidx2 & ->).
      simpl in Hai, Haj. injection Hai as <-. injection Haj as Heq.
      apply (log_ids_distinct st0 st log e1 e2); [| | |done|done| |done].
      * apply (inv_entries _ _ _ _ _ _ _ _ Hinv).
      * apply (inv_grids _ _ _ _ _ _ _ _ Hinv).
      * apply (inv_increasing _ _ _ _ _ _ _ _ Hinv).
      * congruence.
  - assert (Hall : ∀ l : list feature,
              (∀ i, (i < length l)%nat → labeled l i) →
              length (existing_ids l) = length l).
    { clear. induction l as [|r l IH]; intros Hl; [done|].
      unfold existing_ids in *. simpl.
      destruct (Hl 0%nat) as (r' & id & Hr & Hid); [simpl; lia|].
      simpl in Hr. simplify_eq. rewrite Hid. simpl. f_equal. apply IH.
      intros i Hi. destruct (Hl (S i)) as (r2 & id2 & Hr2 & Hid2); [simpl; lia|].
      by exists r2, id2. }
    apply Hall. intros i Hi. apply Hlab. by rewrite <- Hlen.
Qed.

(** The identifiers of a completed run are well formed when the prefix
    has no hyphen, so a second run gets through its first loop. *)
Lemma allocate_well_formed gdf out st log :
  hyphen_free prefix →
  allocate base_char_set prefix zero_padding gdf = Ok (out, st, log) →
  Forall (well_formed_id base_char_set) (existing_ids out)
  ∧ (∀ i row, out !! i = Some row → ReefID row ≠ None)
  ∧ encode_grids base_char_set out = encode_grids base_char_set gdf.
Proof.
  intros Hp H.
  destruct (allocate_Ok _ prefix zero_padding distinct_symbols two_symbols
              alphabet_hyphen_free _ _ _ _ H) as (st0 & gs & E0 & _ & Hinv & Hlab).
  assert (Hlen : length out = length gdf) by apply (inv_length _ _ _ _ _ _ _ _ Hinv).
  destruct (process_existing_Ok _ _ _ E0) as (Hwf & _).
  rewrite Forall_forall in Hwf.
  split_and!.
  - apply Forall_forall. intros a (row & Hrow & Ha)%list_elem_of_omap.
    apply list_elem_of_lookup in Hrow as [i Hi].
    destruct (lookup_lt_is_Some_2 gdf i) as [r0 H0];
      [rewrite <- Hlen; by eapply lookup_lt_Some|].
    destruct (allocate_rows _ _ _ _ _ _ _ _ _ _ Hinv Hlab H0) as (row' & Hi' & Hok).
    rewrite Hi in Hi'. simplify_eq.
    destruct (ReefID r0) as [a0|] eqn:E.
    + subst. apply Hwf. apply list_elem_of_omap. exists r0. split; [|congruence].
      by eapply list_elem_of_lookup_2.
    + destruct Hok as (e & He & _ & ->). simpl in Ha. simplify_eq.
      pose proof (proj1 (Forall_forall _ _) (inv_entries _ _ _ _ _ _ _ _ Hinv) e He)
        as (enc & Hid & Henc & [Hc _] & _).
      pose proof (proj1 (Forall_forall _ _) (inv_grids _ _ _ _ _ _ _ _ Hinv) e He) as Hg.
      exists prefix, (asg_grid_scheme e), enc, (asg_new_counter e). split.
      * rewrite Hid, str_split_make_id;
          [|done|exact (encode_counter_hyphen_free _ alphabet_hyphen_free _ _ _ Henc)].
        by rewrite str_split_hyphen_free.
      * by eapply decode_encode_counter.
  - intros i row Hrow. destruct (Hlab i) as (row' & a & Hrow' & Ha);
      [rewrite <- Hlen; by eapply lookup_lt_Some|]. congruence.
  - apply encode_grids_ext. apply Forall2_same_length_lookup_2; [done|].
    intros i row r0 Hrow H0.
    destruct (allocate_rows _ _ _ _ _ _ _ _ _ _ Hinv Hlab H0) as (row' & Hi' & Hok).
    rewrite Hrow in Hi'. simplify_eq.
    destruct (ReefID r0); [by subst|]. by destruct Hok as (e & _ & _ & ->).
Qed.

Lemma allocate_idempotent gdf out :
  hyphen_free prefix →
  process_shapefile base_char_set prefix zero_padding gdf = Ok out →
  process_shapefile base_char_set prefix zero_padding out = Ok out.
Proof.
  intros Hp H. apply process_shapefile_Ok in H as (st & log & H).
  destruct (allocate_well_formed _ _ _ _ Hp H) as (Hwf & Hall & Hgs).
  destruct (allocate_Ok _ prefix zero_padding distinct_symbols two_symbols
              alphabet_hyphen_free _ _ _ _ H) as (st0 & gs & _ & Egs & _).
  unfold process_shapefile, allocate. rewrite process_existing_register_all.
  destruct (register_all_cases base_char_set (existing_ids out) initial_state
              initial_state_synced) as [[_ (st1 & -> & _)]|[Hn _]]; [|done].
  simpl. rewrite Hgs, Egs. simpl.
  by rewrite assign_cells_all_labeled.
Qed.

End Uniqueness.

(** C1, as stated, fails when the input already carries one identifier
    twice: both rows keep it. *)
Lemma duplicate_identifiers_kept :
  let row := Feature (Some "R-9038-000") (PyFloat.of_int 147) (PyFloat.of_int (-20)) in
  process_shapefile BASE_B10 "R" 3 [row; row; reef_a]
  = Ok [row; row; set_ReefID "R-9038-001" reef_a]
  ∧ ¬ NoDup (existing_ids [row; row; set_ReefID "R-9038-001" reef_a]).
Proof.
  split; [vm_compute; reflexivity|].
  intros H. apply NoDup_cons in H as [H _]. apply H. left.
Qed.

(** C1, amended.  If the identifiers already present in the input are
    pairwise distinct, then after a completed run every feature has an
    identifier and no two features share one. *)
Theorem identifiers_unique (b : base_name) (prefix : string) (zero_padding : Z)
    (gdf out : list feature) :
  NoDup (existing_ids gdf) →
  process_shapefile (BASE_CHAR_SETS b) prefix zero_padding gdf = Ok out →
  NoDup (existing_ids out) ∧ length (existing_ids out) = length out.
Proof.
  intros Hnd H. apply process_shapefile_Ok in H as (st & log & H).
  by eapply (allocate_unique _ prefix zero_padding (NoDup_BASE_CHAR_SETS b)
               (two_symbols_BASE_CHAR_SETS b) (hyphen_free_BASE_CHAR_SETS b)).
Qed.

Lemma identifiers_unique_witness :
  let row := Feature (Some "R-9038-000") (PyFloat.of_int 147) (PyFloat.of_int (-20)) in
  let out := [row; set_ReefID "R-9038-001" reef_a; set_ReefID "R-9038-002" reef_b] in
  NoDup (existing_ids out) ∧ length (existing_ids out) = length out.
Proof.
  intros row out.
  apply (identifiers_unique B10 "R" 3 [row; reef_a; reef_b] out).
  - apply (@bool_decide_unpack _ (NoDup_dec _)). vm_compute. exact I.
  - vm_compute. reflexivity.
Defined.

(** A string with a hyphen splits into two parts or more. *)
Lemma str_split_hyphen_parts s :
  "-"%char ∈ chars s → (2 ≤ length (str_split "-" s))%nat.
Proof.
  unfold chars. induction s as [|c s IH]; intros Hin; simpl in *.
  - by apply elem_of_nil in Hin.
  - pose proof (str_split_nonempty "-" s) as Hne.
    destruct (Ascii.eqb c "-") eqn:E.
    + destruct (str_split "-" s); [done|]. simpl. lia.
    + apply elem_of_cons in Hin as [<-|Hin]; [by rewrite Ascii.eqb_refl in E|].
      specialize (IH Hin). destruct (str_split "-" s) as [|w ws]; [done|].
      simpl in *. lia.
Qed.

(** An identifier built on a prefix with a hyphen has four parts or more. *)
Lemma make_id_parts p g e :
  "-"%char ∈ chars p → length (str_split "-" (make_id p g e)) ≠ 3%nat.
Proof.
  intros Hp. unfold make_id.
  change ("-" +:+ g +:+ "-" +:+ e) with (String "-" (g +:+ String "-" e)).
  rewrite !str_split_app, !length_app.
  pose proof (str_split_hyphen_parts p Hp).
  pose proof (str_split_nonempty "-" g). pose proof (str_split_nonempty "-" e).
  destruct (str_split "-" g); [done|]. destruct (str_split "-" e); [done|].
  simpl. lia.
Qed.

(** A run on a frame in which every feature has a well-formed identifier
    returns the frame as it is, whatever the prefix and the padding. *)
Lemma rerun_unchanged base_char_set prefix zero_padding out gs :
  Forall (well_formed_id base_char_set) (existing_ids out) →
  (∀ i row, out !! i = Some row → ReefID row ≠ None) →
  encode_grids base_char_set out = Ok gs →
  process_shapefile base_char_set prefix zero_padding out = Ok out.
Proof.
  intros Hwf Hall Hgs.
  unfold process_shapefile, allocate. rewrite process_existing_register_all.
  destruct (register_all_cases base_char_set (existing_ids out) initial_state
              initial_state_synced) as [[_ (st1 & -> & _)]|[Hn _]]; [|done].
  simpl. rewrite Hgs. simpl.
  by rewrite assign_cells_all_labeled.
Qed.

(** C3, as stated, fails for a prefix that contains a hyphen: the first
    run assigns "A-B-9038-000", and the second run, given that output,
    raises ValueError when it splits the identifier into four parts. *)
Lemma second_run_aborts_on_hyphen_prefix :
  process_shapefile BASE_B10 "A-B" 3 [reef_a] = Ok [set_ReefID "A-B-9038-000" reef_a]
  ∧ process_shapefile BASE_B10 "A-B" 3 [set_ReefID "A-B-9038-000" reef_a]
    = Raise ValueError.
Proof. split; vm_compute; reflexivity. Qed.

(** C3, amended.  After a completed run no feature is without an
    identifier.  A second run on the frame it returned, with the same base
    and any prefix and padding, completes and returns that frame unchanged
    (every row equal, nothing assigned or altered) when the prefix of the
    first run has no hyphen or the first run found nothing to label.  When
    the prefix of the first run has a hyphen and the first run labelled a
    feature, the second run raises ValueError in its first loop.  The frame
    is the one handed to [to_file]; the bytes written are not modelled. *)
Theorem second_run_changes_nothing (b : base_name) (prefix : string)
    (zero_padding : Z) (prefix' : string) (zero_padding' : Z)
    (gdf out : list feature) :
  process_shapefile (BASE_CHAR_SETS b) prefix zero_padding gdf = Ok out →
  (∀ i row, out !! i = Some row → ReefID row ≠ None)
  ∧ (hyphen_free prefix ∨ (∀ i row, gdf !! i = Some row → ReefID row ≠ None) →
     process_shapefile (BASE_CHAR_SETS b) prefix' zero_padding' out = Ok out)
  ∧ (¬ hyphen_free prefix → (∃ i row, gdf !! i = Some row ∧ ReefID row = None) →
     process_shapefile (BASE_CHAR_SETS b) prefix' zero_padding' out = Raise ValueError).
Proof.
  intros H. apply process_shapefile_Ok in H as (st & log & H).
  pose proof (NoDup_BASE_CHAR_SETS b) as Hnd.
  pose proof (two_symbols_BASE_CHAR_SETS b) as Htwo.
  pose proof (hyphen_free_BASE_CHAR_SETS b) as Hhf.
  destruct (allocate_Ok _ prefix zero_padding Hnd Htwo Hhf _ _ _ _ H)
    as (st0 & gs & E0 & Egs & Hinv & Hlab).
  assert (Hlen : length out = length gdf) by apply (inv_length _ _ _ _ _ _ _ _ Hinv).
  assert (Hall : ∀ i row, out !! i = Some row → ReefID row ≠ None).
  { intros i row Hi. destruct (Hlab i) as (row' & rid & Hrow' & Hrid).
    - rewrite <- Hlen. by eapply lookup_lt_Some.
    - rewrite Hi in Hrow'. injection Hrow' as <-. by rewrite Hrid. }
  split_and!; [exact Hall| |].
  - intros [Hp|Hgdf].
    + destruct (allocate_well_formed _ prefix zero_padding Hnd Htwo Hhf _ _ _ _ Hp H)
        as (Hwf & _ & Hgs).
      apply (rerun_unchanged _ _ _ _ gs); [done|done|]. by rewrite Hgs.
    + assert (out = gdf) as ->.
      { apply (list_eq_same_length _ _ (length gdf)); [done..|].
        intros i row' row0 _ Hout Hin.
        destruct (allocate_rows _ _ _ _ _ _ _ _ _ _ Hinv Hlab Hin) as (r & Hr & Hok).
        rewrite Hout in Hr. injection Hr as <-.
        destruct (ReefID row0) eqn:Hid; [done|]. by destruct (Hgdf i row0 Hin). }
      destruct (process_existing_Ok _ _ _ E0) as (Hwf & _).
      by apply (rerun_unchanged _ _ _ _ gs).
  - intros Hp (i & row0 & Hin & Hnone).
    assert (Hhyphen : "-"%char ∈ chars prefix).
    { destruct (decide ("-"%char ∈ chars prefix)) as [|Hn]; [done|]. by destruct Hp. }
    destruct (allocate_rows _ _ _ _ _ _ _ _ _ _ Hinv Hlab Hin) as (r & Hr & Hok).
    rewrite Hnone in Hok. destruct Hok as (e & He & _ & ->).
    pose proof (inv_entries _ _ _ _ _ _ _ _ Hinv) as Hent.
    rewrite Forall_forall in Hent. destruct (Hent e He) as (enc & Hid & _).
    unfold process_shapefile. rewrite allocate_malformed; [done|].
    intros Hwf. rewrite Forall_forall in Hwf.
    destruct (Hwf (asg_new_reef_id e)) as (p & g & c & d & Hs & _).
    + unfold existing_ids. apply list_elem_of_omap.
      exists (set_ReefID (asg_new_reef_id e) row0). split; [|done].
      by eapply list_elem_of_lookup_2.
    + apply (make_id_parts prefix (asg_grid_scheme e) enc Hhyphen).
      by rewrite <- Hid, Hs.
Qed.

Lemma second_run_changes_nothing_witness :
  let out := [set_ReefID "R-9038-000" reef_a; set_ReefID "R-9038-001" reef_b] in
  process_shapefile (BASE_CHAR_SETS B10) "Q" 2 out = Ok out.
Proof.
  intros out.
  apply (proj1 (proj2 (second_run_changes_nothing B10 "R" 3 "Q" 2 [reef_a; reef_b] out
                         ltac:(vm_compute; reflexivity)))).
  left. apply (@bool_decide_unpack _ (not_dec (list_elem_of_dec _ _))). vm_compute. exact I.
Defined.


(** ** The order of [sort_values] *)

Lemma float_leb_total x y : float_leb x y = true ∨ float_leb y x = true.
Proof.
  unfold float_leb. destruct (float_rank x) as [a k], (float_rank y) as [b l].
  destruct (a <? b) eqn:E1, (b <? a) eqn:E2, (a =? b) eqn:E3, (b =? a) eqn:E4,
    (k <=? l) eqn:E5, (l <=? k) eqn:E6; simpl; auto; lia.
Qed.

Lemma float_leb_trans x y z :
  float_leb x y = true → float_leb y z = true → float_leb x z = true.
Proof.
  unfold float_leb.
  destruct (float_rank x) as [a k], (float_rank y) as [b l], (float_rank z) as [c m].
  rewrite !orb_true_iff, !andb_true_iff. lia.
Qed.

Lemma float_rank_inj x y : float_rank x = float_rank y → x = y.
Proof.
  destruct x as [k|[]|], y as [l|[]|]; simpl; intros H; by simplify_eq.
Qed.

Lemma float_leb_antisym x y :
  float_leb x y = true → float_leb y x = true → x = y.
Proof.
  intros H1 H2. apply float_rank_inj. unfold float_leb in *.
  destruct (float_rank x) as [a k], (float_rank y) as [b l].
  rewrite !orb_true_iff, !andb_true_iff in *. f_equal; lia.
Qed.

Lemma float_leb_refl x : float_leb x x = true.
Proof. by destruct (float_leb_total x x). Qed.

Lemma sort_insert_sorted x l :
  StronglySorted sum_le l → StronglySorted sum_le (sort_insert x l).
Proof.
  induction 1 as [|y l Hs IH Hy]; simpl; [repeat constructor|].
  destruct (float_leb _ _) eqn:E.
  - constructor; [by constructor|]. constructor; [done|].
    eapply Forall_impl; [exact Hy|]. intros z Hz. unfold sum_le in *.
    by eapply float_leb_trans.
  - constructor; [done|]. rewrite sort_insert_perm. constructor; [|done].
    unfold sum_le. destruct (float_leb_total (centroid_sum x.2) (centroid_sum y.2));
      [congruence|done].
Qed.

Lemma sort_values_sorted l : StronglySorted sum_le (sort_values l).
Proof.
  induction l as [|x l IH]; simpl; [constructor|]. by apply sort_insert_sorted.
Qed.

(** ** More on lists *)

Lemma filter_ext_elem_of {A} (P Q : A → Prop)
    `{!∀ x, Decision (P x), !∀ x, Decision (Q x)} (l : list A) :
  (∀ x, x ∈ l → (P x ↔ Q x)) → filter P l = filter Q l.
Proof.
  induction l as [|a l IH]; intros Hext; [done|].
  assert (Hl : filter P l = filter Q l).
  { apply IH. intros x Hx. apply Hext. by right. }
  destruct (decide (P a)) as [Ha|Ha].
  - rewrite !filter_cons_True; [by rewrite Hl| |done]. apply Hext; [left|done].
  - rewrite !filter_cons_False; [done| |done]. intros HQ. apply Ha, Hext; [left|done].
Qed.

Lemma filter_none_elem_of {A} (P : A → Prop) `{!∀ x, Decision (P x)} (l : list A) :
  (∀ x, x ∈ l → ¬ P x) → filter P l = [].
Proof.
  induction l as [|a l IH]; intros Hnone; [done|].
  rewrite filter_cons_False; [|apply Hnone; left].
  apply IH. intros x Hx. apply Hnone. by right.
Qed.

Lemma length_filter_Forall2 {A B} (P : A → Prop) (Q : B → Prop)
    `{!∀ x, Decision (P x), !∀ y, Decision (Q y)} (l1 : list A) (l2 : list B) :
  Forall2 (λ x y, P x ↔ Q y) l1 l2 →
  length (filter P l1) = length (filter Q l2).
Proof.
  induction 1 as [|x y l1 l2 Hxy _ IH]; [done|].
  destruct (decide (P x)) as [Hx|Hx].
  - rewrite !filter_cons_True; [simpl; by rewrite IH| |done]. by apply Hxy.
  - rewrite !filter_cons_False; [done| |done]. intros Hy. by apply Hx, Hxy.
Qed.

Lemma NoDup_filter_fst {A B} (P : A * B → Prop) `{!∀ x, Decision (P x)}
    (l : list (A * B)) :
  NoDup (l.*1) → NoDup ((filter P l).*1).
Proof.
  induction l as [|[a b] l IH]; intros Hl; [done|].
  rewrite fmap_cons in Hl. apply NoDup_cons in Hl as [Hnotin Hnd].
  destruct (decide (P (a, b))).
  - rewrite filter_cons_True by done. rewrite fmap_cons. apply NoDup_cons.
    split; [|by apply IH].
    intros Hin. apply Hnotin. apply list_elem_of_fmap in Hin as ([a' b'] & -> & Hin).
    apply list_elem_of_filter in Hin as [_ Hin].
    apply list_elem_of_fmap. by exists (a', b').
  - rewrite filter_cons_False by done. by apply IH.
Qed.

Lemma iterrows_fst gdf : (iterrows gdf).*1 = seq 0 (length gdf).
Proof.
  unfold iterrows. rewrite fmap_imap.
  rewrite (imap_ext _ (λ j _, j)) by done.
  rewrite imap_seq_0. by rewrite list_fmap_id.
Qed.

Lemma NoDup_unique l : NoDup (unique l).
Proof.
  induction l as [|x l IH]; simpl; [constructor|].
  apply NoDup_cons. split.
  - intros Hin. apply list_elem_of_filter in Hin as [Hne _]. done.
  - by apply NoDup_filter.
Qed.

Lemma count_unlabeled_cons ir sub :
  count_unlabeled (ir :: sub)
  = match ReefID ir.2 with
    | None => S (count_unlabeled sub)
    | Some _ => count_unlabeled sub
    end.
Proof.
  unfold count_unlabeled. destruct (ReefID ir.2) eqn:E.
  - rewrite filter_cons_False; [done|]. by rewrite E.
  - by rewrite filter_cons_True.
Qed.

(** ** The assignment in closed form *)

Section ClosedForm.

Variable base_char_set : string.
Variable prefix : string.
Variable zero_padding : Z.

Hypothesis distinct_symbols : NoDup (chars base_char_set).
Hypothesis two_symbols : 2 ≤ encoding_base base_char_set.

Lemma nth_free_total (occ : gset string) n k :
  0 ≤ n → ∃ c enc, nth_free base_char_set zero_padding occ n k = Ok (c, enc).
Proof.
  revert n. induction k as [|k IH]; intros n Hn; simpl.
  - destruct (next_free_spec base_char_set zero_padding distinct_symbols two_symbols
                occ n Hn) as (c & enc & E & _). eauto.
  - destruct (next_free_spec base_char_set zero_padding distinct_symbols two_symbols
                occ n Hn) as (c & enc & E & Hle & _).
    rewrite E. simpl. apply IH. lia.
Qed.

(** The inner loop in closed form: the unlabelled row at position [k] of
    the sorted cell receives the counter of rank "number of unlabelled rows
    before it". *)
Lemma assign_rows_closed g sub gdf st log :
  synced st → counters_nonneg st →
  NoDup (sub.*1) →
  (∀ idx row, (idx, row) ∈ sub → gdf !! idx = Some row) →
  ∃ gdf' st' log',
    assign_rows base_char_set prefix zero_padding g sub gdf st log
    = Ok (gdf', st', log')
    ∧ length gdf' = length gdf
    ∧ (∀ i, i ∉ sub.*1 → gdf' !! i = gdf !! i)
    ∧ (∀ k idx row, sub !! k = Some (idx, row) →
         gdf' !! idx
         = Some match ReefID row with
                | Some _ => row
                | None =>
                    match nth_free base_char_set zero_padding
                            (occupied st prefix g) (next_counter st prefix g)
                            (count_unlabeled (take k sub)) with
                    | Ok (_, enc) => set_ReefID (make_id prefix g enc) row
                    | _ => row
                    end
                end)
    ∧ synced st' ∧ counters_nonneg st'
    ∧ (∀ p' g', occupied st' p' g' = occupied st p' g')
    ∧ (∀ p' g', (p', g') ≠ (prefix, g) →
                next_counter st' p' g' = next_counter st p' g').
Proof.
  revert gdf st log.
  induction sub as [|[idx row] sub IH]; intros gdf st log Hsync Hnn Hnd Hsub; simpl.
  - exists gdf, st, log. split_and!; done.
  - rewrite fmap_cons in Hnd. apply NoDup_cons in Hnd as [Hnotin Hnd]. simpl in Hnotin.
    assert (Hrow : gdf !! idx = Some row) by (apply Hsub; left).
    destruct (ReefID row) as [rid|] eqn:Hrid.
    + destruct (IH gdf st log Hsync Hnn Hnd) as
        (gdf' & st' & log' & E & Hlen & Hout & Hin & Hs' & Hnn' & Hocc' & Hnext').
      { intros i r Hi. apply Hsub. by right. }
      exists gdf', st', log'. split_and!; try done.
      * intros i Hi. apply Hout. intros Hi'. apply Hi. by right.
      * intros [|k] i r Hk; simpl in Hk.
        -- simplify_eq. rewrite Hrid. by rewrite Hout.
        -- rewrite (Hin k i r Hk). simpl. rewrite count_unlabeled_cons. simpl.
           by rewrite Hrid.
    + destruct (assign_reef_id_spec base_char_set prefix zero_padding
                  distinct_symbols two_symbols g st Hsync Hnn)
        as (c & enc & st1 & E1 & Hfree & Hle & Henc & _ & Hsync1 & Hocc1 & Hnext1).
      rewrite E1. simpl.
      assert (Hnn1 : counters_nonneg st1).
      { intros p' g'. rewrite Hnext1. case_decide; [|apply Hnn].
        pose proof (Hnn prefix g). lia. }
      destruct (IH (alter (set_ReefID (make_id prefix g enc)) idx gdf) st1
                  (log ++ [Assignment idx g c (make_id prefix g enc)]) Hsync1 Hnn1 Hnd)
        as (gdf' & st' & log' & E & Hlen & Hout & Hin & Hs' & Hnn' & Hocc' & Hnext').
      { intros i r Hi. rewrite list_lookup_alter_ne.
        - apply Hsub. by right.
        - intros ->. apply Hnotin. apply list_elem_of_fmap. by exists (i, r). }
      exists gdf', st', log'. split_and!; try done.
      * by rewrite Hlen, length_alter.
      * intros i Hi. rewrite Hout.
        -- apply list_lookup_alter_ne. intros ->. apply Hi. left.
        -- intros Hi'. apply Hi. by right.
      * intros [|k] i r Hk; simpl in Hk.
        -- simplify_eq. rewrite Hrid. rewrite Hout by done.
           rewrite list_lookup_alter_eq, Hrow. simpl.
           unfold count_unlabeled. simpl. by rewrite Hfree.
        -- rewrite (Hin k i r Hk). simpl. rewrite count_unlabeled_cons. simpl.
           rewrite Hrid. simpl. rewrite Hfree. simpl.
           rewrite Hocc1, Hnext1. by rewrite decide_True.
      * intros p' g'. by rewrite Hocc', Hocc1.
      * intros p' g' Hne. rewrite Hnext' by done. rewrite Hnext1.
        rewrite decide_False; [done|]. by intros [-> ->].
Qed.

(** In a sorted cell without ties among the unlabelled rows, the number
    of unlabelled rows before a position is the number of unlabelled rows
    with a strictly smaller centroid sum. *)
Lemma position_is_rank sub k idx row :
  StronglySorted sum_le sub →
  (∀ k1 k2 x y, k1 ≠ k2 → sub !! k1 = Some x → sub !! k2 = Some y →
     ReefID x.2 = None → ReefID y.2 = None →
     centroid_sum x.2 ≠ centroid_sum y.2) →
  sub !! k = Some (idx, row) → ReefID row = None →
  count_unlabeled (take k sub)
  = length (filter (λ ir : nat * feature,
                      ReefID ir.2 = None ∧ sum_ltb ir.2 row = true) sub).
Proof.
  intros Hsorted Hdist Hk Hrow.
  rewrite <- (take_drop_middle sub k (idx, row) Hk) at 2.
  rewrite <- (take_drop_middle sub k (idx, row) Hk) in Hsorted.
  rewrite filter_app.
  rewrite (filter_none_elem_of _ ((idx, row) :: drop (S k) sub)).
  - rewrite app_nil_r. unfold count_unlabeled. f_equal.
    apply filter_ext_elem_of. intros x Hx. split; [|by intros [? _]].
    intros Hun. split; [done|].
    assert (Hle : sum_le x (idx, row)).
    { eapply StronglySorted_app_1_elem_of; [exact Hsorted|done|left]. }
    apply elem_of_take in Hx as (k1 & Hk1 & Hlt).
    unfold sum_ltb. unfold sum_le in Hle. simpl in Hle. rewrite Hle. simpl.
    destruct (float_leb (centroid_sum row) (centroid_sum x.2)) eqn:E; [|done].
    exfalso. apply (Hdist k1 k x (idx, row)); [lia|done..|].
    by apply float_leb_antisym.
  - intros x Hx [_ Hlt]. unfold sum_ltb in Hlt.
    apply StronglySorted_app_1_r in Hsorted.
    apply StronglySorted_cons in Hsorted as [Hall _]. rewrite Forall_forall in Hall.
    apply elem_of_cons in Hx as [->|Hx]; simpl in Hlt.
    + by rewrite float_leb_refl in Hlt.
    + pose proof (Hall x Hx) as Hle. unfold sum_le in Hle. simpl in Hle.
      rewrite Hle in Hlt. simpl in Hlt. by rewrite andb_false_r in Hlt.
Qed.

Variable gdf0 : list feature.
Variable gs : list string.
Variable st0 : alloc_state.

Hypothesis grids_known :
  ∀ i row, gdf0 !! i = Some row →
    ∃ g, gs !! i = Some g ∧ grid_of base_char_set row = Ok g.
Hypothesis no_ties : distinct_sums base_char_set gdf0.

Local Abbreviation closed := (closed_invariant base_char_set prefix zero_padding gdf0 gs st0).

(** The rows selected for a cell not yet visited are rows as loaded. *)
Lemma select_cell_loaded g visited gdf st i r :
  g ∉ visited → closed visited gdf st →
  (i, r) ∈ select_cell gs g gdf →
  gs !! i = Some g ∧ gdf !! i = Some r ∧ gdf0 !! i = Some r
  ∧ grid_of base_char_set r = Ok g.
Proof.
  intros Hg (Hlen & Hrows & _) Hin.
  apply elem_of_select_cell in Hin as [Hgi Hi].
  destruct (lookup_lt_is_Some_2 gdf0 i) as [r0 Hr0].
  { rewrite <- Hlen. by eapply lookup_lt_Some. }
  pose proof (Hrows i r0 g Hr0 Hgi) as Hrow.
  rewrite decide_False in Hrow by done.
  assert (r = r0) as -> by congruence.
  destruct (grids_known i r0 Hr0) as (g' & Hg' & Hgrid).
  assert (g' = g) as -> by congruence. done.
Qed.

(** The position of an unlabelled row in its sorted cell, counted in
    unlabelled rows, is its rank in the loaded frame. *)
Lemma cell_rank_position g visited gdf st k idx row :
  g ∉ visited → closed visited gdf st →
  sort_values (select_cell gs g gdf) !! k = Some (idx, row) →
  ReefID row = None →
  count_unlabeled (take k (sort_values (select_cell gs g gdf)))
  = cell_rank base_char_set gdf0 row.
Proof.
  intros Hg Hinv Hk Hrow.
  assert (Hsel : ∀ i r, (i, r) ∈ sort_values (select_cell gs g gdf) →
                        gs !! i = Some g ∧ gdf !! i = Some r ∧ gdf0 !! i = Some r
                        ∧ grid_of base_char_set r = Ok g).
  { intros i r Hin. rewrite sort_values_perm in Hin.
    by eapply select_cell_loaded. }
  assert (Hnd : NoDup ((sort_values (select_cell gs g gdf)).*1)).
  { rewrite sort_values_perm. apply NoDup_filter_fst.
    rewrite iterrows_fst. apply NoDup_seq. }
  rewrite (position_is_rank _ k idx row); [|apply sort_values_sorted| |done|done].
  - destruct (Hsel idx row) as (_ & _ & _ & Hgrow).
    { by eapply list_elem_of_lookup_2. }
    unfold cell_rank. rewrite sort_values_perm.
    unfold select_cell. rewrite list_filter_filter.
    apply length_filter_Forall2.
    apply Forall2_same_length_lookup_2.
    { unfold iterrows. rewrite length_imap. by destruct Hinv as (-> & _). }
    intros j [j' r] r0 Hj Hj0. unfold iterrows in Hj.
    rewrite list_lookup_imap in Hj.
    destruct (gdf !! j) as [r'|] eqn:Hgj; simpl in Hj; [|done].
    injection Hj as <- ->.
    destruct (grids_known j r0 Hj0) as (gj & Hgsj & Hgrid).
    destruct Hinv as (_ & Hrows & _).
    pose proof (Hrows j r0 gj Hj0 Hgsj) as Hr. rewrite Hgj in Hr.
    unfold before_in_cell. rewrite Hgrid, Hgrow. simpl.
    destruct (decide (gj = g)) as [->|Hne].
    + rewrite decide_False in Hr by done. injection Hr as ->.
      rewrite (bool_decide_true (Ok g = Ok g)) by done.
      rewrite andb_true_r. split.
      * intros [[Hun Hlt] _]. by rewrite bool_decide_true.
      * intros [Hun Hlt]%andb_prop. apply bool_decide_eq_true in Hun. done.
    + split.
      * intros [_ Hq]. congruence.
      * intros [[_ Heq]%andb_prop _]%andb_prop.
        apply bool_decide_eq_true in Heq. congruence.
  - intros k1 k2 [i1 r1] [i2 r2] Hne H1 H2 Hu1 Hu2. simpl in *.
    destruct (Hsel i1 r1) as (_ & _ & H01 & Hg1); [by eapply list_elem_of_lookup_2|].
    destruct (Hsel i2 r2) as (_ & _ & H02 & Hg2); [by eapply list_elem_of_lookup_2|].
    apply (no_ties i1 i2 r1 r2); try done; [|congruence].
    intros ->. apply Hne.
    eapply (NoDup_lookup _ k1 k2 i2 Hnd); rewrite list_lookup_fmap.
    + by rewrite H1.
    + by rewrite H2.
Qed.

(** One turn of the outer loop. *)
Lemma assign_cell_closed g visited gdf st log :
  g ∉ visited → closed visited gdf st →
  ∃ gdf' st' log',
    assign_rows base_char_set prefix zero_padding g
      (sort_values (select_cell gs g gdf)) gdf st log = Ok (gdf', st', log')
    ∧ closed (g :: visited) gdf' st'.
Proof.
  intros Hg Hinv.
  pose proof Hinv as (Hlen & Hrows & Hsync & Hnn & Hocc & Hnext).
  assert (Hnd : NoDup ((sort_values (select_cell gs g gdf)).*1)).
  { rewrite sort_values_perm. apply NoDup_filter_fst.
    rewrite iterrows_fst. apply NoDup_seq. }
  destruct (assign_rows_closed g (sort_values (select_cell gs g gdf)) gdf st log
              Hsync Hnn Hnd)
    as (gdf' & st' & log' & E & Hlen' & Hout & Hin & Hsync' & Hnn' & Hocc' & Hnext').
  { intros i r Hi. rewrite sort_values_perm in Hi.
    by destruct (select_cell_loaded g visited gdf st i r Hg Hinv Hi) as (_ & ? & _). }
  exists gdf', st', log'. split; [done|].
  split_and!; try done.
  - congruence.
  - intros i row0 g' Hi0 Hgi.
    destruct (decide (g' = g)) as [->|Hne].
    + rewrite decide_True by left.
      pose proof (Hrows i row0 g Hi0 Hgi) as Hi. rewrite decide_False in Hi by done.
      assert (Hsel : (i, row0) ∈ sort_values (select_cell gs g gdf)).
      { rewrite sort_values_perm. by apply elem_of_select_cell. }
      apply list_elem_of_lookup_1 in Hsel as [k Hk].
      rewrite (Hin k i row0 Hk). f_equal.
      unfold allocated_row.
      destruct (ReefID row0) eqn:Hrid; [done|].
      destruct (grids_known i row0 Hi0) as (g' & Hg' & ->).
      assert (g' = g) as -> by congruence.
      rewrite (cell_rank_position g visited gdf st k i row0 Hg Hinv Hk Hrid).
      by rewrite Hocc, (Hnext g Hg).
    + rewrite Hout.
      * rewrite (Hrows i row0 g' Hi0 Hgi).
        f_equal. destruct (decide (g' ∈ visited)) as [Hv|Hv].
        -- rewrite decide_True; [done|by right].
        -- rewrite decide_False; [done|]. intros [->|?]%elem_of_cons; done.
      * intros [[i' r] [Hi' Hir]]%list_elem_of_fmap. simpl in Hi'. subst i'.
        rewrite sort_values_perm in Hir.
        apply elem_of_select_cell in Hir as [Hgi' _]. congruence.
  - intros p' g'. by rewrite Hocc'.
  - intros g' Hg'. rewrite Hnext'.
    + apply Hnext. intros ?. apply Hg'. by right.
    + intros [= ->]. apply Hg'. by left.
Qed.

(** The outer loop. *)
Lemma assign_cells_closed cells visited gdf st log :
  NoDup cells → (∀ g, g ∈ cells → g ∉ visited) →
  closed visited gdf st →
  ∃ gdf' st' log' visited',
    assign_cells base_char_set prefix zero_padding cells gs gdf st log
    = Ok (gdf', st', log')
    ∧ (∀ g, g ∈ cells ∨ g ∈ visited → g ∈ visited')
    ∧ closed visited' gdf' st'.
Proof.
  revert visited gdf st log.
  induction cells as [|g cells IH]; intros visited gdf st log Hnd Hfresh Hinv; simpl.
  - exists gdf, st, log, visited. split_and!; [done| |done].
    intros g [Hg|Hg]; [by apply elem_of_nil in Hg|done].
  - apply NoDup_cons in Hnd as [Hg Hnd].
    destruct (assign_cell_closed g visited gdf st log) as (gdf1 & st1 & log1 & E & Hinv1);
      [apply Hfresh; left|done|].
    rewrite E. simpl.
    destruct (IH (g :: visited) gdf1 st1 log1 Hnd) as
      (gdf' & st' & log' & visited' & E' & Hall & Hinv'); [|done|].
    { intros g' Hg' [->|Hv]%elem_of_cons; [done|].
      apply (Hfresh g'); [by right|done]. }
    exists gdf', st', log', visited'. split_and!; [done| |done].
    intros g' [[->|Hg']%elem_of_cons|Hv]; apply Hall.
    + right. left.
    + by left.
    + right. by right.
Qed.

End ClosedForm.

(** ** The result of a run in closed form *)

Lemma encode_grids_lookup base_char_set rows gs :
  encode_grids base_char_set rows = Ok gs →
  length gs = length rows
  ∧ ∀ i row, rows !! i = Some row →
      ∃ g, gs !! i = Some g ∧ grid_of base_char_set row = Ok g.
Proof.
  revert gs. induction rows as [|row rows IH]; intros gs H; simpl in H.
  - simplify_eq. split; [done|]. intros i row Hi. by rewrite lookup_nil in Hi.
  - inv_bind H. inv_bind H. simplify_eq.
    destruct (IH _ E0) as (Hlen & Hrows).
    split; [simpl; by rewrite Hlen|].
    intros [|i] r Hi; simpl in Hi.
    + simplify_eq. by exists a.
    + by apply Hrows.
Qed.

Lemma encode_grids_Ok_iff base_char_set rows :
  (∃ gs, encode_grids base_char_set rows = Ok gs)
  ↔ Forall (λ row, ∃ g, grid_of base_char_set row = Ok g) rows.
Proof.
  induction rows as [|row rows IH]; simpl.
  - split; [constructor|by exists []].
  - rewrite Forall_cons, <- IH. split.
    + intros [gs H]. inv_bind H. inv_bind H. split; [by exists a|by exists a0].
    + intros [[g Hg] [gs Hgs]]. unfold grid_of in Hg. rewrite Hg, Hgs. simpl. eauto.
Qed.

Lemma cell_rank_perm base_char_set gdf gdf' row :
  gdf ≡ₚ gdf' → cell_rank base_char_set gdf row = cell_rank base_char_set gdf' row.
Proof. unfold cell_rank. by intros ->. Qed.

Lemma allocated_row_same_views base_char_set prefix zero_padding st st' k row :
  same_views st st' →
  allocated_row base_char_set prefix zero_padding st k row
  = allocated_row base_char_set prefix zero_padding st' k row.
Proof.
  intros Hv. unfold allocated_row.
  destruct (ReefID row); [done|].
  destruct (grid_of base_char_set row) as [g| |]; [|done..].
  by destruct (Hv prefix g) as [-> ->].
Qed.

Lemma distinct_sums_perm base_char_set gdf gdf' :
  gdf ≡ₚ gdf' → distinct_sums base_char_set gdf → distinct_sums base_char_set gdf'.
Proof.
  intros Hp Hd i j row row' Hne Hi Hj.
  symmetry in Hp. apply Permutation_inj in Hp as [_ (f & Hinj & Hf)].
  rewrite Hf in Hi, Hj. apply (Hd (f i) (f j)); [|done..].
  intros Heq. by apply Hne, Hinj.
Qed.

(** Every row of the result is determined by the row as loaded, its rank
    in its cell and the state left by the first loop. *)
Lemma allocate_closed base_char_set prefix zero_padding gdf out st log st0 :
  NoDup (chars base_char_set) → 2 ≤ encoding_base base_char_set →
  distinct_sums base_char_set gdf →
  process_existing base_char_set gdf initial_state = Ok st0 →
  allocate base_char_set prefix zero_padding gdf = Ok (out, st, log) →
  out = (λ row, allocated_row base_char_set prefix zero_padding st0
                  (cell_rank base_char_set gdf row) row) <$> gdf.
Proof.
  intros Hnd Htwo Hdist E0 H. unfold allocate in H. rewrite E0 in H. simpl in H.
  inv_bind H. rename a into gs.
  destruct (encode_grids_lookup _ _ _ E) as (Hlen & Hgrids).
  destruct (process_existing_Ok _ _ _ E0) as (_ & Hsync & Hnn & _).
  destruct (assign_cells_closed base_char_set prefix zero_padding Hnd Htwo
              gdf gs st0 Hgrids Hdist (unique gs) [] gdf st0 [])
    as (out' & st' & log' & visited & E' & Hall & Hlen' & Hrows & _).
  { apply NoDup_unique. }
  { intros g _ Hg. by apply elem_of_nil in Hg. }
  { unfold closed_invariant. by split_and!. }
  rewrite E' in H. simplify_eq.
  apply list_eq. intros i. rewrite list_lookup_fmap.
  destruct (gdf !! i) as [row0|] eqn:Hi; simpl.
  - destruct (Hgrids i row0 Hi) as (g & Hg & _).
    rewrite (Hrows i row0 g Hi Hg). rewrite decide_True; [done|].
    apply Hall. left. apply elem_of_unique. by eapply list_elem_of_lookup_2.
  - apply lookup_ge_None_2. rewrite Hlen'. by apply lookup_ge_None_1.
Qed.

(** A run on the rows in another order succeeds and leaves the same views
    after the first loop. *)
Lemma allocate_perm_total (b : base_name) prefix zero_padding gdf gdf' out st log st0 :
  gdf ≡ₚ gdf' →
  process_existing (BASE_CHAR_SETS b) gdf initial_state = Ok st0 →
  allocate (BASE_CHAR_SETS b) prefix zero_padding gdf = Ok (out, st, log) →
  ∃ st0' out' st' log',
    process_existing (BASE_CHAR_SETS b) gdf' initial_state = Ok st0'
    ∧ same_views st0 st0'
    ∧ allocate (BASE_CHAR_SETS b) prefix zero_padding gdf' = Ok (out', st', log').
Proof.
  intros Hp E0 H.
  assert (Hids : existing_ids gdf ≡ₚ existing_ids gdf').
  { unfold existing_ids. by rewrite Hp. }
  pose proof E0 as E0'. rewrite process_existing_register_all in E0'.
  destruct (register_all_perm _ _ _ _ initial_state _ Hids initial_state_synced
              initial_state_synced (same_views_refl _) E0') as (st0' & E1 & Hv).
  rewrite <- process_existing_register_all in E1.
  destruct (process_existing_Ok _ _ _ E1) as (Hwf & _).
  unfold allocate in H. rewrite E0 in H. simpl in H. inv_bind H.
  assert (Hgs : ∃ gs', encode_grids (BASE_CHAR_SETS b) gdf' = Ok gs').
  { apply encode_grids_Ok_iff. rewrite <- Hp. apply encode_grids_Ok_iff. eauto. }
  destruct Hgs as [gs' Hgs'].
  destruct (allocate_total (BASE_CHAR_SETS b) prefix zero_padding
              (NoDup_BASE_CHAR_SETS b) (two_symbols_BASE_CHAR_SETS b)
              (hyphen_free_BASE_CHAR_SETS b) gdf' gs' Hwf Hgs')
    as (out' & st' & log' & E').
  exists st0', out', st', log'. done.
Qed.

(** ** Independence of the row order *)

(** C7, as stated, fails when two unlabelled features of one grid cell
    have the same centroid sum: the features at (147, -20) and
    (147.125, -20.125) both have the sum 127.0 and lie in the B10 cell 9038;
    the sort leaves them in the order of the rows, so the feature that comes
    first in the input receives the counter 000 and exchanging the two rows
    exchanges their identifiers. *)
Lemma row_order_changes_assignment :
  [reef_a; reef_b] ≡ₚ [reef_b; reef_a]
  ∧ centroid_sum reef_a = centroid_sum reef_b
  ∧ process_shapefile BASE_B10 "R" 3 [reef_a; reef_b]
    = Ok [set_ReefID "R-9038-000" reef_a; set_ReefID "R-9038-001" reef_b]
  ∧ process_shapefile BASE_B10 "R" 3 [reef_b; reef_a]
    = Ok [set_ReefID "R-9038-000" reef_b; set_ReefID "R-9038-001" reef_a].
Proof.
  split; [apply perm_swap|]. split_and!; vm_compute; reflexivity.
Qed.

(** C7, amended.  For each of the five alphabets: when no two unlabelled
    features of one grid cell have the same centroid sum, a run that
    completes determines the returned row of every feature from the
    feature alone, and a run over the same rows in any other order (same
    base, prefix and padding) completes and returns the same row for every
    feature.  The run itself is a function of its input, so two runs over
    the same frame agree. *)
Theorem assignment_order_independent (b : base_name) (prefix : string)
    (zero_padding : Z) (gdf gdf' out : list feature) :
  distinct_sums (BASE_CHAR_SETS b) gdf →
  gdf ≡ₚ gdf' →
  process_shapefile (BASE_CHAR_SETS b) prefix zero_padding gdf = Ok out →
  ∃ f : feature → feature,
    out = f <$> gdf
    ∧ process_shapefile (BASE_CHAR_SETS b) prefix zero_padding gdf' = Ok (f <$> gdf').
Proof.
  intros Hdist Hp H. apply process_shapefile_Ok in H as (st & log & H).
  destruct (allocate_Ok _ prefix zero_padding (NoDup_BASE_CHAR_SETS b)
              (two_symbols_BASE_CHAR_SETS b) (hyphen_free_BASE_CHAR_SETS b)
              _ _ _ _ H) as (st0 & _ & E0 & _).
  destruct (allocate_perm_total b prefix zero_padding gdf gdf' out st log st0 Hp E0 H)
    as (st0' & out' & st' & log' & E0' & Hv & H').
  exists (λ row, allocated_row (BASE_CHAR_SETS b) prefix zero_padding st0
                   (cell_rank (BASE_CHAR_SETS b) gdf row) row).
  split.
  - by apply (allocate_closed _ prefix zero_padding gdf out st log st0
                (NoDup_BASE_CHAR_SETS b) (two_symbols_BASE_CHAR_SETS b)).
  - apply process_shapefile_Ok. exists st', log'. rewrite H'. do 3 f_equal.
    rewrite (allocate_closed _ prefix zero_padding gdf' out' st' log' st0'
               (NoDup_BASE_CHAR_SETS b) (two_symbols_BASE_CHAR_SETS b)
               (distinct_sums_perm _ _ _ Hp Hdist) E0' H').
    apply list_fmap_ext. intros i row _.
    rewrite <- (cell_rank_perm _ gdf gdf' row Hp).
    symmetry. by apply allocated_row_same_views.
Qed.

Lemma assignment_order_independent_witness :
  let lab := Feature (Some "R-9038-000") (PyFloat.of_int 147) (PyFloat.of_int (-20)) in
  ∃ f : feature → feature,
    [set_ReefID "R-9038-002" reef_c; set_ReefID "R-9038-001" reef_a; lab]
    = f <$> [reef_c; reef_a; lab]
    ∧ process_shapefile (BASE_CHAR_SETS B10) "R" 3 [reef_a; reef_c; lab]
      = Ok (f <$> [reef_a; reef_c; lab]).
Proof.
  intros lab.
  apply (assignment_order_independent B10 "R" 3 [reef_c; reef_a; lab]
           [reef_a; reef_c; lab]).
  - intros i j row row' Hne Hi Hj Hu Hu' _.
    destruct i as [|[|[|i]]], j as [|[|[|j]]]; cbv [lookup list_lookup] in Hi, Hj;
      try discriminate Hi; try discriminate Hj; try (by destruct Hne);
      injection Hi as <-; injection Hj as <-;
      try discriminate Hu; try discriminate Hu';
      vm_compute; discriminate.
  - apply perm_swap.
  - vm_compute. reflexivity.
Defined.

(** * Further properties of the code *)

(** ** Symbols, indices and counter codes *)

Lemma str_index_Ok s c i :
  str_index s c = Ok i →
  0 ≤ i < str_len s ∧ String.get (Z.to_nat i) s = Some c.
Proof.
  revert i. induction s as [|a s IH]; intros i H; simpl in H; [done|].
  destruct (Ascii.eqb a c) eqn:Heq.
  - apply Ascii.eqb_eq in Heq as ->. simplify_eq. unfold str_len. simpl. split; [lia|done].
  - inv_bind H. simplify_eq. destruct (IH _ E) as [Hr Hget].
    unfold str_len in *. simpl. split; [lia|].
    replace (Z.to_nat (a0 + 1)) with (S (Z.to_nat a0)) by lia. done.
Qed.

Lemma str_index_cases s c :
  (∃ i, str_index s c = Ok i) ∨ (str_index s c = Raise ValueError ∧ c ∉ chars s).
Proof.
  induction s as [|a s IH]; simpl.
  - right. split; [done|]. apply not_elem_of_nil.
  - destruct (Ascii.eqb a c) eqn:Heq; [eauto|].
    destruct IH as [[i ->]|[-> Hn]]; simpl; [eauto|].
    right. split; [done|]. intros [->|?]%elem_of_cons; [|done].
    by rewrite Ascii.eqb_refl in Heq.
Qed.

Lemma str_getitem_cases s i :
  (- str_len s ≤ i < str_len s
   ∧ ∃ c, str_getitem s i = Ok c ∧ c ∈ chars s
          ∧ String.get (Z.to_nat (if i <? 0 then i + str_len s else i)) s = Some c)
  ∨ ((i < - str_len s ∨ str_len s ≤ i) ∧ str_getitem s i = Raise IndexError).
Proof.
  unfold str_getitem, str_len.
  set (n := Z.of_nat (String.length s)).
  destruct (i <? 0) eqn:E1.
  - destruct (i + n <? 0) eqn:E2; simpl.
    + right. split; [lia|done].
    + destruct (n <=? i + n) eqn:E3; [lia|].
      left. split; [lia|].
      destruct (string_get_lt s (Z.to_nat (i + n))) as [c Hc]; [lia|].
      rewrite Hc. exists c. split_and!; try done. by eapply string_get_chars.
  - destruct (i <? 0) eqn:E2; [lia|]. simpl.
    destruct (n <=? i) eqn:E3.
    + right. split; [lia|done].
    + left. split; [lia|].
      destruct (string_get_lt s (Z.to_nat i)) as [c Hc]; [lia|].
      rewrite Hc. exists c. split_and!; try done. by eapply string_get_chars.
Qed.

(** X1.  Symbols and indices.  For a character set of distinct symbols,
    [encode_base_str] returns a symbol for every index from 0 up to the
    number of symbols, and [decode_base_str] takes that symbol back to the
    index.  Conversely, whenever [decode_base_str] returns an index for a
    character, the index is in that range and [encode_base_str] returns
    the character for it. *)
Theorem base_str_roundtrip (base_char_set : string) :
  NoDup (chars base_char_set) →
  (∀ value, 0 ≤ value < encoding_base base_char_set →
     ∃ char, encode_base_str base_char_set value = Ok char
             ∧ decode_base_str base_char_set char = Ok value)
  ∧ (∀ char value, decode_base_str base_char_set char = Ok value →
       0 ≤ value < encoding_base base_char_set
       ∧ encode_base_str base_char_set value = Ok char).
Proof.
  intros Hnd. split.
  - intros v Hv. destruct (str_getitem_Ok base_char_set v Hv) as (c & Hc & _).
    exists c. split; [done|]. apply str_getitem_index; [done|lia|done].
  - intros c v H. apply str_index_Ok in H as [Hv Hget]. split; [done|].
    destruct (str_getitem_Ok base_char_set v Hv) as (c' & Hc' & Hget').
    unfold encode_base_str. rewrite Hc'. congruence.
Qed.

Lemma base_str_roundtrip_witness :
  (∀ value, 0 ≤ value < encoding_base BASE_B32_CAPS →
     ∃ char, encode_base_str BASE_B32_CAPS value = Ok char
             ∧ decode_base_str BASE_B32_CAPS char = Ok value)
  ∧ (∀ char value, decode_base_str BASE_B32_CAPS char = Ok value →
       0 ≤ value < encoding_base BASE_B32_CAPS
       ∧ encode_base_str BASE_B32_CAPS value = Ok char).
Proof.
  apply (base_str_roundtrip BASE_B32_CAPS).
  apply (@bool_decide_unpack _ (NoDup_dec _)). vm_compute. exact I.
Defined.

(** X2.  [encode_base_str] is a Python string lookup.  With [n] the number
    of symbols: for [-n ≤ value < n] it returns a symbol of the set; a
    negative value of that range counts from the end and gives the symbol
    of [value + n]; every other value raises IndexError. *)
Theorem encode_base_str_bounds (base_char_set : string) (value : Z) :
  let n := encoding_base base_char_set in
  (- n ≤ value < n →
     ∃ char, encode_base_str base_char_set value = Ok char ∧ char ∈ chars base_char_set)
  ∧ (- n ≤ value < 0 →
     encode_base_str base_char_set value = encode_base_str base_char_set (value + n))
  ∧ (value < - n ∨ n ≤ value →
     encode_base_str base_char_set value = Raise IndexError).
Proof.
  intros n. unfold encode_base_str. subst n. unfold encoding_base.
  split_and!.
  - intros Hv. destruct (str_getitem_cases base_char_set value) as [(_ & c & Hc & Hin & _)|[? _]];
      [eauto|lia].
  - intros Hv.
    destruct (str_getitem_cases base_char_set value) as [(_ & c & Hc & _ & Hget)|[? _]]; [|lia].
    destruct (str_getitem_cases base_char_set (value + str_len base_char_set))
      as [(_ & c' & Hc' & _ & Hget')|[? _]]; [|lia].
    rewrite Hc, Hc'. f_equal.
    destruct (value <? 0) eqn:E1; [|lia].
    destruct (value + str_len base_char_set <? 0) eqn:E2; [lia|]. congruence.
  - intros Hv. destruct (str_getitem_cases base_char_set value) as [[? _]|[_ H]]; [lia|done].
Qed.

Lemma encode_base_str_bounds_witness :
  (∃ char, encode_base_str BASE_B10 (-1) = Ok char ∧ char ∈ chars BASE_B10)
  ∧ encode_base_str BASE_B10 (-1) = encode_base_str BASE_B10 9
  ∧ encode_base_str BASE_B10 10 = Raise IndexError.
Proof.
  pose proof (encode_base_str_bounds BASE_B10 (-1)) as (H1 & H2 & _).
  pose proof (encode_base_str_bounds BASE_B10 10) as (_ & _ & H3).
  split_and!.
  - apply H1. vm_compute. split; [discriminate|reflexivity].
  - apply H2. vm_compute. split; [discriminate|reflexivity].
  - apply H3. right. vm_compute. discriminate.
Defined.

Lemma str_len_String a s : str_len (String a s) = str_len s + 1.
Proof. unfold str_len. simpl. lia. Qed.

Lemma str_len_nonneg s : 0 ≤ str_len s.
Proof. unfold str_len. lia. Qed.

Lemma decode_counter_from_value base_char_set n s :
  Forall (λ c, c ∈ chars base_char_set) (chars s) →
  ∃ m, decode_counter_from base_char_set n s
       = Ok (n * encoding_base base_char_set ^ str_len s + m)
       ∧ 0 ≤ m < encoding_base base_char_set ^ str_len s.
Proof.
  revert n. induction s as [|a s IH]; intros n Hall; simpl.
  - exists 0. split; [f_equal; change (str_len "") with 0; lia|].
    change (str_len "") with 0. lia.
  - change (chars (String a s)) with (a :: chars s) in Hall.
    apply Forall_cons in Hall as [Ha Hall].
    unfold decode_base_str.
    destruct (str_index_cases base_char_set a) as [[d Hd]|[_ Hn]]; [|done].
    rewrite Hd. simpl. apply str_index_Ok in Hd as [Hd _].
    destruct (IH (n * encoding_base base_char_set + d) Hall) as (m & -> & Hm).
    rewrite str_len_String.
    pose proof (str_len_nonneg s).
    rewrite Z.pow_add_r by lia. rewrite Z.pow_1_r.
    fold (encoding_base base_char_set) in Hd.
    set (B := encoding_base base_char_set) in *.
    set (P := B ^ str_len s) in *.
    exists (d * P + m). split; [f_equal; lia|]. nia.
Qed.

Lemma decode_counter_from_foreign base_char_set n s c :
  c ∈ chars s → c ∉ chars base_char_set →
  decode_counter_from base_char_set n s = Raise ValueError.
Proof.
  revert n. induction s as [|a s IH]; intros n Hin Hout; simpl.
  - by apply elem_of_nil in Hin.
  - change (chars (String a s)) with (a :: chars s) in Hin.
    unfold decode_base_str.
    destruct (str_index_cases base_char_set a) as [[d Hd]|[Hd Hn]].
    + rewrite Hd. simpl. apply IH; [|done].
      apply elem_of_cons in Hin as [->|Hin]; [|done].
      apply str_index_Ok in Hd as [_ Hget]. exfalso. apply Hout.
      by eapply string_get_chars.
    + by rewrite Hd.
Qed.

(** X3.  [decode_counter] returns for every string made of symbols of the
    character set, with a value from 0 up to (not including) the base to
    the power of the string's length, the empty string giving 0.  If the
    string holds a character outside the set, it raises ValueError. *)
Theorem decode_counter_cases (base_char_set encoded_counter : string) :
  (Forall (λ c, c ∈ chars base_char_set) (chars encoded_counter) →
     ∃ n, decode_counter base_char_set encoded_counter = Ok n
          ∧ 0 ≤ n < encoding_base base_char_set ^ str_len encoded_counter)
  ∧ (∀ c, c ∈ chars encoded_counter → c ∉ chars base_char_set →
       decode_counter base_char_set encoded_counter = Raise ValueError).
Proof.
  split.
  - intros Hall. destruct (decode_counter_from_value base_char_set 0 _ Hall) as (m & E & Hm).
    exists m. split; [|done]. unfold decode_counter. rewrite E. f_equal; lia.
  - intros c Hin Hout. by eapply decode_counter_from_foreign.
Qed.

Lemma decode_counter_cases_witness :
  (∃ n, decode_counter BASE_B16 "00A" = Ok n ∧ 0 ≤ n < encoding_base BASE_B16 ^ str_len "00A")
  ∧ decode_counter BASE_B10 "00A" = Raise ValueError.
Proof.
  split.
  - apply (proj1 (decode_counter_cases BASE_B16 "00A")).
    apply (@bool_decide_unpack _ (Forall_dec _ _)). vm_compute. exact I.
  - apply (proj2 (decode_counter_cases BASE_B10 "00A") "A"%char).
    + apply (@bool_decide_unpack _ (list_elem_of_dec _ _)). vm_compute. exact I.
    + apply (@bool_decide_unpack _ (not_dec (list_elem_of_dec _ _))). vm_compute. exact I.
Defined.

(** X4.  An existing identifier with three parts whose counter part holds
    a character outside the active character set (an identifier written
    under another [--base], say) stops the run in the first loop with an
    uncaught ValueError, whatever the other rows are. *)
Theorem undecodable_counter_fatal (base_char_set prefix : string) (zero_padding : Z)
    (gdf : list feature) (reef_id p g code : string) (c : ascii) :
  reef_id ∈ existing_ids gdf →
  str_split "-" reef_id = [p; g; code] →
  c ∈ chars code → c ∉ chars base_char_set →
  process_shapefile base_char_set prefix zero_padding gdf = Raise ValueError.
Proof.
  intros Hin Hsplit Hc Hout.
  assert (H : allocate base_char_set prefix zero_padding gdf = Raise ValueError).
  { apply allocate_malformed. intros Hall.
    rewrite Forall_forall in Hall. destruct (Hall _ Hin) as (p' & g' & c' & d & Hs & Hd).
    rewrite Hsplit in Hs. simplify_eq.
    unfold decode_counter in Hd.
    by rewrite (decode_counter_from_foreign _ 0 _ c Hc Hout) in Hd. }
  unfold process_shapefile. by rewrite H.
Qed.

Lemma undecodable_counter_fatal_witness :
  process_shapefile BASE_B10 "R" 3
    [reef_a; Feature (Some "R-9038-00A") (PyFloat.of_int 147) (PyFloat.of_int (-20))]
  = Raise ValueError.
Proof.
  apply (undecodable_counter_fatal BASE_B10 "R" 3 _ "R-9038-00A" "R" "9038" "00A" "A"%char).
  - vm_compute. apply list_elem_of_singleton. reflexivity.
  - vm_compute. reflexivity.
  - apply (@bool_decide_unpack _ (list_elem_of_dec _ _)). vm_compute. exact I.
  - apply (@bool_decide_unpack _ (not_dec (list_elem_of_dec _ _))). vm_compute. exact I.
Defined.

Section CounterLength.

Variable base_char_set : string.
Local Abbreviation B := (encoding_base base_char_set).

Lemma encode_counter_digits_length fuel counter encoded s k :
  1 ≤ B → 0 ≤ k →
  encode_counter_digits base_char_set fuel counter encoded = Ok s →
  str_len encoded ≤ str_len s
  ∧ (counter < B ^ k → str_len s ≤ str_len encoded + k)
  ∧ (B ^ k ≤ counter → str_len encoded + k < str_len s).
Proof.
  intros HB. revert counter encoded k.
  induction fuel as [|fuel IH]; intros counter encoded k Hk H; simpl in H.
  - destruct (0 <? counter) eqn:E; [done|]. simplify_eq.
    assert (0 < B ^ k) by (apply Z.pow_pos_nonneg; lia).
    split_and!; lia.
  - destruct (0 <? counter) eqn:E.
    + destruct (B =? 0) eqn:EB; [done|]. inv_bind H.
      assert (Hlen : str_len (String a encoded) = str_len encoded + 1)
        by apply str_len_String.
      destruct (IH _ _ 0 ltac:(lia) H) as (Hge & _ & _).
      split_and!; [lia| |].
      * intros Hlt. destruct (decide (k = 0)) as [->|Hk0]; [simpl in Hlt; lia|].
        destruct (IH _ _ (k - 1) ltac:(lia) H) as (_ & Hle & _).
        rewrite Hlen in Hle. etrans; [apply Hle|lia].
        apply Z.div_lt_upper_bound; [lia|].
        replace k with (1 + (k - 1)) in Hlt by lia.
        rewrite Z.pow_add_r, Z.pow_1_r in Hlt by lia. done.
      * intros Hle. destruct (decide (k = 0)) as [->|Hk0]; [lia|].
        destruct (IH _ _ (k - 1) ltac:(lia) H) as (_ & _ & Hgt).
        rewrite Hlen in Hgt.
        assert (B ^ (k - 1) ≤ counter / B); [|lia].
        apply Z.div_le_lower_bound; [lia|].
        replace k with (1 + (k - 1)) in Hle by lia.
        rewrite Z.pow_add_r, Z.pow_1_r in Hle by lia. done.
    + simplify_eq. assert (0 < B ^ k) by (apply Z.pow_pos_nonneg; lia).
      split_and!; lia.
Qed.

Lemma encode_counter_pad_length n encoded s :
  encode_counter_pad base_char_set n encoded = Ok s →
  str_len s = str_len encoded + Z.of_nat n.
Proof.
  revert encoded. induction n as [|n IH]; intros encoded H; simpl in H.
  - simplify_eq. lia.
  - inv_bind H. apply IH in H. rewrite str_len_String in H. lia.
Qed.

Lemma encode_counter_digits_chars fuel counter encoded s :
  encode_counter_digits base_char_set fuel counter encoded = Ok s →
  Forall (λ c, c ∈ chars base_char_set) (chars encoded) →
  Forall (λ c, c ∈ chars base_char_set) (chars s).
Proof.
  revert counter encoded. induction fuel as [|fuel IH]; intros counter encoded H Hall;
    simpl in H.
  - destruct (0 <? counter); [done|]. by simplify_eq.
  - destruct (0 <? counter); [|by simplify_eq].
    destruct (B =? 0); [done|]. inv_bind H.
    apply (IH _ _ H). change (chars (String a encoded)) with (a :: chars encoded).
    constructor; [|done]. by eapply str_getitem_chars.
Qed.

Lemma encode_counter_pad_chars n encoded s :
  encode_counter_pad base_char_set n encoded = Ok s →
  Forall (λ c, c ∈ chars base_char_set) (chars encoded) →
  Forall (λ c, c ∈ chars base_char_set) (chars s).
Proof.
  revert encoded. induction n as [|n IH]; intros encoded H Hall; simpl in H.
  - by simplify_eq.
  - inv_bind H. apply (IH _ H). change (chars (String a encoded)) with (a :: chars encoded).
    constructor; [|done]. by eapply str_getitem_chars.
Qed.

Lemma encode_counter_chars n w s :
  encode_counter base_char_set n w = Ok s →
  Forall (λ c, c ∈ chars base_char_set) (chars s).
Proof.
  unfold encode_counter. intros H. inv_bind H.
  apply (encode_counter_pad_chars _ _ _ H).
  apply (encode_counter_digits_chars _ _ _ _ E). constructor.
Qed.

Lemma encode_counter_len n w s :
  1 ≤ B → 0 ≤ w →
  encode_counter base_char_set n w = Ok s →
  w ≤ str_len s
  ∧ (n < B ^ w → str_len s = w)
  ∧ (B ^ w ≤ n → w < str_len s).
Proof.
  intros HB Hw H. unfold encode_counter in H. inv_bind H.
  apply encode_counter_pad_length in H.
  destruct (encode_counter_digits_length _ _ _ _ w HB Hw E) as (_ & Hlt & Hge).
  change (str_len "") with 0 in *.
  split_and!; [lia| |]; intros Hn; [specialize (Hlt Hn)|specialize (Hge Hn)]; lia.
Qed.

Lemma decode_counter_from_inj a s t v :
  NoDup (chars base_char_set) →
  Forall (λ c, c ∈ chars base_char_set) (chars s) →
  Forall (λ c, c ∈ chars base_char_set) (chars t) →
  str_len s = str_len t →
  decode_counter_from base_char_set a s = Ok v →
  decode_counter_from base_char_set a t = Ok v →
  s = t.
Proof.
  intros Hnd. revert a t v.
  induction s as [|x s IH]; intros a [|y t] v Hs Ht Hlen H1 H2; try done.
  rewrite !str_len_String in Hlen.
  change (chars (String x s)) with (x :: chars s) in Hs.
  change (chars (String y t)) with (y :: chars t) in Ht.
  apply Forall_cons in Hs as [_ Hs]. apply Forall_cons in Ht as [_ Ht].
  simpl in H1, H2. inv_bind H1. inv_bind H2.
  unfold decode_base_str in *.
  destruct (str_index_Ok _ _ _ E) as [Hd1 Hg1].
  destruct (str_index_Ok _ _ _ E0) as [Hd2 Hg2].
  destruct (decode_counter_from_value base_char_set (a * B + a0) s Hs) as (m1 & F1 & Hm1).
  destruct (decode_counter_from_value base_char_set (a * B + a1) t Ht) as (m2 & F2 & Hm2).
  assert (Hlen' : str_len t = str_len s) by lia.
  rewrite Hlen' in F2, Hm2.
  assert (a0 = a1) as ->.
  { rewrite F1 in H1. rewrite F2 in H2. simplify_eq.
    set (P := B ^ str_len s) in *. nia. }
  assert (x = y) as -> by congruence.
  f_equal. apply (IH (a * B + a1) t v Hs Ht); [lia|done..].
Qed.

End CounterLength.

(** X5.  Width of a counter code.  For a padding of 0 or more and a set of
    at least one symbol, whatever [encode_counter] returns has at least
    [zero_padding] symbols, all of the character set; it has exactly
    [zero_padding] symbols while the counter is below the base to the power
    [zero_padding], and more from there on: a counter beyond the capacity
    of the padding is not an error, its code is longer. *)
Theorem encode_counter_width (base_char_set : string) (counter zero_padding : Z)
    (encoded : string) :
  1 ≤ encoding_base base_char_set → 0 ≤ zero_padding →
  encode_counter base_char_set counter zero_padding = Ok encoded →
  zero_padding ≤ str_len encoded
  ∧ Forall (λ c, c ∈ chars base_char_set) (chars encoded)
  ∧ (counter < encoding_base base_char_set ^ zero_padding →
     str_len encoded = zero_padding)
  ∧ (encoding_base base_char_set ^ zero_padding ≤ counter →
     zero_padding < str_len encoded).
Proof.
  intros HB Hw H.
  destruct (encode_counter_len _ _ _ _ HB Hw H) as (H1 & H2 & H3).
  split_and!; try done. by eapply encode_counter_chars.
Qed.

Lemma encode_counter_width_witness :
  3 ≤ str_len "1000"
  ∧ Forall (λ c, c ∈ chars BASE_B10) (chars "1000")
  ∧ (1000 < encoding_base BASE_B10 ^ 3 → str_len "1000" = 3)
  ∧ (encoding_base BASE_B10 ^ 3 ≤ 1000 → 3 < str_len "1000").
Proof.
  apply (encode_counter_width BASE_B10 1000 3 "1000").
  - vm_compute. discriminate.
  - lia.
  - vm_compute. reflexivity.
Defined.

(** X6.  The round trip from codes.  For distinct symbols, two or more,
    a code made of symbols of the set is decoded by [decode_counter] to a
    counter that [encode_counter], padding to the length of the code,
    encodes back to the same code. *)
Theorem encode_decode_counter_roundtrip (base_char_set encoded_counter : string) :
  NoDup (chars base_char_set) → 2 ≤ encoding_base base_char_set →
  Forall (λ c, c ∈ chars base_char_set) (chars encoded_counter) →
  ∃ counter,
    decode_counter base_char_set encoded_counter = Ok counter
    ∧ encode_counter base_char_set counter (str_len encoded_counter)
      = Ok encoded_counter.
Proof.
  intros Hnd HB Hall.
  destruct (decode_counter_from_value base_char_set 0 _ Hall) as (n & E & Hn).
  replace (0 * encoding_base base_char_set ^ str_len encoded_counter + n) with n in E by lia.
  exists n. split; [done|].
  destruct (encode_counter_total base_char_set n (str_len encoded_counter) HB) as [t Ht].
  rewrite Ht. f_equal.
  pose proof (decode_encode_counter _ Hnd _ _ _ (proj1 Hn) Ht) as Hd.
  assert (HB1 : 1 ≤ encoding_base base_char_set) by lia.
  destruct (encode_counter_len _ _ _ _ HB1 (str_len_nonneg _) Ht) as (_ & Hlen & _).
  apply (decode_counter_from_inj base_char_set 0 t encoded_counter n Hnd); try done.
  - by eapply encode_counter_chars.
  - apply Hlen, Hn.
Qed.

Lemma encode_decode_counter_roundtrip_witness :
  ∃ counter,
    decode_counter BASE_B32_CAPS "22ZZ" = Ok counter
    ∧ encode_counter BASE_B32_CAPS counter (str_len "22ZZ") = Ok "22ZZ".
Proof.
  apply (encode_decode_counter_roundtrip BASE_B32_CAPS "22ZZ").
  - apply (@bool_decide_unpack _ (NoDup_dec _)). vm_compute. exact I.
  - vm_compute. discriminate.
  - apply (@bool_decide_unpack _ (Forall_dec _ _)). vm_compute. exact I.
Defined.

Section Located.

Variable base_char_set : string.
Variable prefix : string.
Variable zero_padding : Z.

Hypothesis distinct_symbols : NoDup (chars base_char_set).
Hypothesis two_symbols : 2 ≤ encoding_base base_char_set.

Variable gs : list string.
Variable st0 : alloc_state.

Local Abbreviation located := (entry_located prefix gs st0).

Lemma assign_rows_located g sub gdf st log gdf' st' log' :
  synced st → counters_nonneg st →
  (∀ g', next_counter st0 prefix g' ≤ next_counter st prefix g') →
  (∀ idx row, (idx, row) ∈ sub → gs !! idx = Some g) →
  Forall located log →
  assign_rows base_char_set prefix zero_padding g sub gdf st log = Ok (gdf', st', log') →
  synced st' ∧ counters_nonneg st'
  ∧ (∀ g', next_counter st0 prefix g' ≤ next_counter st' prefix g')
  ∧ Forall located log'.
Proof.
  revert gdf st log.
  induction sub as [|[idx row] sub IH]; intros gdf st log Hsync Hnn Hmono Hsub Hlog H;
    simpl in H.
  - by simplify_eq.
  - destruct (ReefID row) as [rid|] eqn:Hrid.
    + apply (IH gdf st log); try done. intros i r Hi. apply (Hsub i r). by right.
    + destruct (assign_reef_id_spec base_char_set prefix zero_padding
                  distinct_symbols two_symbols g st Hsync Hnn)
        as (c & enc & st1 & E1 & _ & Hle & _ & _ & Hsync1 & _ & Hnext1).
      rewrite E1 in H. simpl in H.
      apply (IH _ _ _) in H; try done.
      * intros p' g'. rewrite Hnext1. case_decide; [|apply Hnn].
        pose proof (Hnn prefix g). lia.
      * intros g'. rewrite Hnext1. case_decide as Hd; [|apply Hmono].
        destruct Hd as [_ ->]. pose proof (Hmono g). lia.
      * intros i r Hi. apply (Hsub i r). by right.
      * apply Forall_app. split; [done|]. constructor; [|constructor].
        split; simpl.
        -- apply (Hsub idx row). by left.
        -- pose proof (Hmono g). lia.
Qed.

Lemma assign_cells_located cells gdf st log gdf' st' log' :
  synced st → counters_nonneg st →
  (∀ g', next_counter st0 prefix g' ≤ next_counter st prefix g') →
  Forall located log →
  assign_cells base_char_set prefix zero_padding cells gs gdf st log = Ok (gdf', st', log') →
  Forall located log'.
Proof.
  revert gdf st log.
  induction cells as [|g cells IH]; intros gdf st log Hsync Hnn Hmono Hlog H; simpl in H.
  - by simplify_eq.
  - inv_bind H. destruct a as [[gdf1 st1] log1].
    apply assign_rows_located in E as (Hsync1 & Hnn1 & Hmono1 & Hlog1); try done.
    + by apply (IH gdf1 st1 log1).
    + intros idx row Hin. rewrite sort_values_perm in Hin.
      by apply elem_of_select_cell in Hin as [? _].
Qed.

End Located.

(** The first loop: how the next counters move. *)
Lemma register_all_counters base_char_set ids st st' :
  synced st →
  register_all base_char_set ids st = Ok st' →
  (∀ p g, next_counter st p g ≤ next_counter st' p g)
  ∧ (∀ reef_id p g c d, reef_id ∈ ids → str_split "-" reef_id = [p; g; c] →
       decode_counter base_char_set c = Ok d → d < next_counter st' p g)
  ∧ (∀ p g, next_counter st' p g = next_counter st p g
            ∨ ∃ reef_id c d, reef_id ∈ ids ∧ str_split "-" reef_id = [p; g; c]
                ∧ decode_counter base_char_set c = Ok d
                ∧ next_counter st' p g = d + 1)
  ∧ (∀ p g c, c ∈ occupied st' p g →
       c ∈ occupied st p g
       ∨ ∃ reef_id, reef_id ∈ ids ∧ str_split "-" reef_id = [p; g; c]).
Proof.
  revert st. induction ids as [|reef_id ids IH]; intros st Hsync H; simpl in H.
  - simplify_eq. split_and!; try done; [|by left|by left].
    intros ????? Hin. by apply elem_of_nil in Hin.
  - destruct (register_existing _ st reef_id) as [st1| |] eqn:E; simpl in H; try done.
    destruct (register_existing_Ok _ _ _ _ Hsync E) as (p0&g0&c0&d0&Hs&Hd&Hsync1&Hocc&Hnext).
    destruct (IH st1 Hsync1 H) as (Hmono & Hlt & Hval & Hoc).
    assert (Hstep : ∀ p g, next_counter st p g ≤ next_counter st1 p g).
    { intros p g. rewrite Hnext. case_decide as Hd'; [|done].
      destruct Hd' as [-> ->]. lia. }
    split_and!.
    + intros p g. etrans; [apply Hstep|apply Hmono].
    + intros id p g c d Hin Hsp Hdec. apply elem_of_cons in Hin as [->|Hin];
        [|by eapply Hlt].
      rewrite Hs in Hsp. simplify_eq.
      pose proof (Hmono p g) as Hm. rewrite Hnext in Hm.
      rewrite decide_True in Hm by done.
      assert (d = d0) by congruence. lia.
    + intros p g. destruct (Hval p g) as [Heq|(id & c & d & Hin & Hsp & Hdec & Heq)].
      * rewrite Heq, Hnext. case_decide as Hd'; [|by left].
        destruct Hd' as [-> ->].
        destruct (Z.max_spec (next_counter st p0 g0) (d0 + 1)) as [[_ ->]|[_ ->]].
        -- right. exists reef_id, c0, d0. split_and!; try done. by left.
        -- by left.
      * right. exists id, c, d. split_and!; try done. by right.
    + intros p g c Hc. destruct (Hoc p g c Hc) as [Hin|(id & Hin & Hsp)].
      * rewrite Hocc in Hin. case_decide as Hd'; [|by left].
        destruct Hd' as [-> ->].
        apply elem_of_union in Hin as [Hin|Hin]; [by left|].
        apply elem_of_singleton in Hin as ->. right. exists reef_id. split; [by left|done].
      * right. exists id. split; [by right|done].
Qed.

(** X7.  What the first loop records.  When it completes, the codes stored
    in [grid_existing_ids] for a prefix and a grid code are exactly the
    third parts of the identifiers present whose first two parts are that
    prefix and grid code (the parts of the identifier, not the place of the
    feature that carries it); the next counter in [grid_feature_count]
    is above the decoded counter of every such identifier, and it is 0 or
    one more than the decoded counter of one of them. *)
Theorem existing_identifiers_registered (base_char_set : string) (gdf : list feature)
    (st0 : alloc_state) (p g : string) :
  process_existing base_char_set gdf initial_state = Ok st0 →
  (∀ c, c ∈ occupied st0 p g
        ↔ ∃ reef_id, reef_id ∈ existing_ids gdf ∧ str_split "-" reef_id = [p; g; c])
  ∧ (∀ reef_id c d, reef_id ∈ existing_ids gdf → str_split "-" reef_id = [p; g; c] →
       decode_counter base_char_set c = Ok d → d < next_counter st0 p g)
  ∧ (next_counter st0 p g = 0
     ∨ ∃ reef_id c d, reef_id ∈ existing_ids gdf ∧ str_split "-" reef_id = [p; g; c]
         ∧ decode_counter base_char_set c = Ok d ∧ next_counter st0 p g = d + 1).
Proof.
  intros H. rewrite process_existing_register_all in H.
  destruct (register_all_views _ _ _ _ initial_state_synced H) as (_ & _ & _ & Hreg).
  destruct (register_all_counters _ _ _ _ initial_state_synced H)
    as (_ & Hlt & Hval & Hocc).
  split_and!.
  - intros c. split.
    + intros Hc. destruct (Hocc p g c Hc) as [Hin|Hin]; [|done].
      unfold occupied in Hin. simpl in Hin. rewrite lookup_empty in Hin. set_solver.
    + intros (id & Hin & Hsp). by eapply Hreg.
  - intros id c d. apply Hlt.
  - destruct (Hval p g) as [->|Hex]; [left|by right].
    unfold next_counter. simpl. by rewrite lookup_empty.
Qed.

Lemma existing_identifiers_registered_witness :
  ∃ st0,
    process_existing BASE_B10
      [Feature (Some "R-9038-007") (PyFloat.of_int 147) (PyFloat.of_int (-20)); reef_a]
      initial_state = Ok st0
    ∧ (∀ c, c ∈ occupied st0 "R" "9038"
          ↔ ∃ reef_id,
              reef_id ∈ existing_ids
                [Feature (Some "R-9038-007") (PyFloat.of_int 147) (PyFloat.of_int (-20));
                 reef_a]
              ∧ str_split "-" reef_id = ["R"; "9038"; c]).
Proof.
  destruct (process_existing BASE_B10
      [Feature (Some "R-9038-007") (PyFloat.of_int 147) (PyFloat.of_int (-20)); reef_a]
      initial_state) as [st0| |] eqn:E; [|vm_compute in E; discriminate E..].
  exists st0. split; [reflexivity|].
  exact (proj1 (existing_identifiers_registered BASE_B10 _ st0 "R" "9038" E)).
Defined.

Section NewRows.

Variable base_char_set : string.
Variable prefix : string.
Variable zero_padding : Z.

Hypothesis distinct_symbols : NoDup (chars base_char_set).
Hypothesis two_symbols : 2 ≤ encoding_base base_char_set.
Hypothesis alphabet_hyphen_free : hyphen_free base_char_set.

(** The row returned for a feature that had no identifier. *)
Lemma allocate_new_row gdf out st log i row :
  allocate base_char_set prefix zero_padding gdf = Ok (out, st, log) →
  gdf !! i = Some row → ReefID row = None →
  ∃ st0 g c enc,
    process_existing base_char_set gdf initial_state = Ok st0
    ∧ grid_of base_char_set row = Ok g
    ∧ encode_counter base_char_set c zero_padding = Ok enc
    ∧ 0 ≤ c ∧ next_counter st0 prefix g ≤ c
    ∧ (enc ∉ occupied st0 prefix g)
    ∧ out !! i = Some (set_ReefID (make_id prefix g enc) row).
Proof.
  intros H Hrow Hnone.
  destruct (allocate_Ok _ prefix zero_padding distinct_symbols two_symbols
              alphabet_hyphen_free _ _ _ _ H) as (st0 & gs & E0 & Egs & Hinv & Hlab).
  destruct (allocate_rows _ _ _ _ _ _ _ _ _ _ Hinv Hlab Hrow) as (row' & Hrow' & Hok).
  rewrite Hnone in Hok. destruct Hok as (e & He & Hidx & ->).
  pose proof (inv_entries _ _ _ _ _ _ _ _ Hinv) as Hent.
  rewrite Forall_forall in Hent.
  destruct (Hent e He) as (enc & Hid & Henc & [Hc0 _] & Hfree).
  destruct (process_existing_Ok _ _ _ E0) as (_ & Hsync & Hnn & _).
  assert (Hloc : Forall (entry_located prefix gs st0) log).
  { unfold allocate in H. rewrite E0, Egs in H. simpl in H.
    by apply (assign_cells_located base_char_set prefix zero_padding distinct_symbols
                two_symbols gs st0 (unique gs) gdf st0 [] out st log). }
  rewrite Forall_forall in Hloc. destruct (Hloc e He) as [Hg Hle].
  destruct (encode_grids_lookup _ _ _ Egs) as (_ & Hgrids).
  destruct (Hgrids i row Hrow) as (g & Hgi & Hgrid).
  rewrite Hidx, Hgi in Hg. injection Hg as Hg.
  exists st0, g, (asg_new_counter e), enc.
  rewrite Hrow', Hid, <- Hg. rewrite <- Hg in Hle, Hfree. done.
Qed.

End NewRows.

(** X8.  The identifier given to a feature that had none.  In a completed
    run, the row returned for such a feature is the row loaded with its
    ReefID set to prefix, hyphen, the grid code of the feature's own
    centroid, hyphen, and the code of a counter of 0 or more encoded with
    the padding of the run. *)
Theorem new_identifier_format (b : base_name) (prefix : string) (zero_padding : Z)
    (gdf out : list feature) (i : nat) (row : feature) :
  process_shapefile (BASE_CHAR_SETS b) prefix zero_padding gdf = Ok out →
  gdf !! i = Some row → ReefID row = None →
  ∃ grid_scheme new_counter encoded_counter,
    encode_grid (BASE_CHAR_SETS b) (centroid_x row) (centroid_y row) = Ok grid_scheme
    ∧ 0 ≤ new_counter
    ∧ encode_counter (BASE_CHAR_SETS b) new_counter zero_padding = Ok encoded_counter
    ∧ out !! i
      = Some (set_ReefID (prefix +:+ "-" +:+ grid_scheme +:+ "-" +:+ encoded_counter) row).
Proof.
  intros H Hrow Hnone. apply process_shapefile_Ok in H as (st & log & H).
  destruct (allocate_new_row _ prefix zero_padding (NoDup_BASE_CHAR_SETS b)
              (two_symbols_BASE_CHAR_SETS b) (hyphen_free_BASE_CHAR_SETS b)
              _ _ _ _ _ _ H Hrow Hnone)
    as (st0 & g & c & enc & _ & Hg & Henc & Hc & _ & _ & Hout).
  by exists g, c, enc.
Qed.

Lemma new_identifier_format_witness :
  ∃ grid_scheme new_counter encoded_counter,
    encode_grid (BASE_CHAR_SETS B10) (centroid_x reef_b) (centroid_y reef_b) = Ok grid_scheme
    ∧ 0 ≤ new_counter
    ∧ encode_counter (BASE_CHAR_SETS B10) new_counter 3 = Ok encoded_counter
    ∧ [set_ReefID "R-9038-000" reef_a; set_ReefID "R-9038-001" reef_b] !! 1%nat
      = Some (set_ReefID ("R" +:+ "-" +:+ grid_scheme +:+ "-" +:+ encoded_counter) reef_b).
Proof.
  apply (new_identifier_format B10 "R" 3 [reef_a; reef_b]).
  - vm_compute. reflexivity.
  - reflexivity.
  - reflexivity.
Defined.

(** X9.  Gaps are not filled.  In a completed run, the counter of the
    identifier given to a feature that had none is larger than the decoded
    counter of every identifier already present with the same prefix and
    grid code. *)
Theorem new_counter_above_existing (b : base_name) (prefix : string) (zero_padding : Z)
    (gdf out : list feature) (i : nat) (row : feature) :
  process_shapefile (BASE_CHAR_SETS b) prefix zero_padding gdf = Ok out →
  gdf !! i = Some row → ReefID row = None →
  ∃ grid_scheme new_counter encoded_counter,
    out !! i
    = Some (set_ReefID (prefix +:+ "-" +:+ grid_scheme +:+ "-" +:+ encoded_counter) row)
    ∧ decode_counter (BASE_CHAR_SETS b) encoded_counter = Ok new_counter
    ∧ ∀ reef_id feature_counter d,
        reef_id ∈ existing_ids gdf →
        str_split "-" reef_id = [prefix; grid_scheme; feature_counter] →
        decode_counter (BASE_CHAR_SETS b) feature_counter = Ok d →
        d < new_counter.
Proof.
  intros H Hrow Hnone. apply process_shapefile_Ok in H as (st & log & H).
  destruct (allocate_new_row _ prefix zero_padding (NoDup_BASE_CHAR_SETS b)
              (two_symbols_BASE_CHAR_SETS b) (hyphen_free_BASE_CHAR_SETS b)
              _ _ _ _ _ _ H Hrow Hnone)
    as (st0 & g & c & enc & E0 & Hg & Henc & Hc & Hle & _ & Hout).
  exists g, c, enc. split_and!; [done| |].
  - by eapply decode_encode_counter; [apply NoDup_BASE_CHAR_SETS|..].
  - intros id code d Hin Hsp Hd.
    rewrite process_existing_register_all in E0.
    destruct (register_all_counters _ _ _ _ initial_state_synced E0) as (_ & Hlt & _).
    pose proof (Hlt id prefix g code d Hin Hsp Hd). lia.
Qed.

Lemma new_counter_above_existing_witness :
  let lab := Feature (Some "R-9038-007") (PyFloat.of_int 147) (PyFloat.of_int (-20)) in
  ∃ grid_scheme new_counter encoded_counter,
    [lab; set_ReefID "R-9038-008" reef_a] !! 1%nat
    = Some (set_ReefID ("R" +:+ "-" +:+ grid_scheme +:+ "-" +:+ encoded_counter) reef_a)
    ∧ decode_counter (BASE_CHAR_SETS B10) encoded_counter = Ok new_counter
    ∧ ∀ reef_id feature_counter d,
        reef_id ∈ existing_ids [lab; reef_a] →
        str_split "-" reef_id = ["R"; grid_scheme; feature_counter] →
        decode_counter (BASE_CHAR_SETS B10) feature_counter = Ok d →
        d < new_counter.
Proof.
  intros lab.
  apply (new_counter_above_existing B10 "R" 3 [lab; reef_a]).
  - vm_compute. reflexivity.
  - reflexivity.
  - reflexivity.
Defined.

(** With nothing occupied, the free counters are consecutive. *)
Lemma nth_free_empty base_char_set zero_padding n k c enc :
  nth_free base_char_set zero_padding ∅ n k = Ok (c, enc) →
  c = n + Z.of_nat k ∧ encode_counter base_char_set c zero_padding = Ok enc.
Proof.
  revert n. induction k as [|k IH]; intros n H; simpl in H.
  - unfold next_free in H. inv_bind H. rewrite size_empty in H. simpl in H.
    rewrite bool_decide_eq_false_2 in H by set_solver. simplify_eq.
    split; [lia|done].
  - inv_bind H. destruct a as [c0 enc0].
    unfold next_free in E. inv_bind E. rewrite size_empty in E. simpl in E.
    rewrite bool_decide_eq_false_2 in E by set_solver. simplify_eq.
    destruct (IH _ H) as [-> Henc]. split; [lia|done].
Qed.

(** X10.  A frame without identifiers, in which no two features of one grid
    cell have the same centroid sum.  In a completed run every feature
    receives prefix, hyphen, its grid code, hyphen, and the code of its
    rank in the cell: the number of features of the same grid cell that
    come before it in the order of [sort_values] on the centroid sum. *)
Theorem fresh_run_counts_by_rank (b : base_name) (prefix : string) (zero_padding : Z)
    (gdf out : list feature) (i : nat) (row : feature) :
  Forall (λ row, ReefID row = None) gdf →
  distinct_sums (BASE_CHAR_SETS b) gdf →
  process_shapefile (BASE_CHAR_SETS b) prefix zero_padding gdf = Ok out →
  gdf !! i = Some row →
  ∃ grid_scheme encoded_counter,
    encode_grid (BASE_CHAR_SETS b) (centroid_x row) (centroid_y row) = Ok grid_scheme
    ∧ encode_counter (BASE_CHAR_SETS b)
        (Z.of_nat (cell_rank (BASE_CHAR_SETS b) gdf row)) zero_padding
      = Ok encoded_counter
    ∧ out !! i
      = Some (set_ReefID (prefix +:+ "-" +:+ grid_scheme +:+ "-" +:+ encoded_counter) row).
Proof.
  intros Hfresh Hdist H Hrow. apply process_shapefile_Ok in H as (st & log & H).
  assert (E0 : process_existing (BASE_CHAR_SETS b) gdf initial_state = Ok initial_state).
  { rewrite process_existing_register_all.
    assert (existing_ids gdf = []) as ->; [|done].
    clear -Hfresh. induction Hfresh as [|r l Hr _ IH]; [done|].
    unfold existing_ids in *. simpl. by rewrite Hr. }
  pose proof (allocate_closed _ prefix zero_padding gdf out st log initial_state
                (NoDup_BASE_CHAR_SETS b) (two_symbols_BASE_CHAR_SETS b) Hdist E0 H) as ->.
  rewrite list_lookup_fmap, Hrow. simpl.
  unfold allocate in H. rewrite E0 in H. simpl in H. inv_bind H.
  destruct (encode_grids_lookup _ _ _ E) as (_ & Hgrids).
  destruct (Hgrids i row Hrow) as (g & _ & Hg).
  rewrite Forall_forall in Hfresh.
  assert (Hnone : ReefID row = None).
  { apply Hfresh. by eapply list_elem_of_lookup_2. }
  unfold allocated_row. rewrite Hnone, Hg.
  assert (Hocc : occupied initial_state prefix g = ∅).
  { unfold occupied. simpl. by rewrite lookup_empty. }
  assert (Hnext : next_counter initial_state prefix g = 0).
  { unfold next_counter. simpl. by rewrite lookup_empty. }
  rewrite Hocc, Hnext.
  destruct (nth_free_total (BASE_CHAR_SETS b) zero_padding (NoDup_BASE_CHAR_SETS b)
              (two_symbols_BASE_CHAR_SETS b) ∅ 0
              (cell_rank (BASE_CHAR_SETS b) gdf row)) as (c & enc & Hfree); [lia|].
  rewrite Hfree. destruct (nth_free_empty _ _ _ _ _ _ Hfree) as [-> Henc].
  exists g, enc. split_and!; [done| |done].
  by rewrite Z.add_0_l in Henc.
Qed.

Lemma fresh_run_counts_by_rank_witness :
  ∃ grid_scheme encoded_counter,
    encode_grid (BASE_CHAR_SETS B10) (centroid_x reef_c) (centroid_y reef_c) = Ok grid_scheme
    ∧ encode_counter (BASE_CHAR_SETS B10)
        (Z.of_nat (cell_rank (BASE_CHAR_SETS B10) [reef_c; reef_a] reef_c)) 3
      = Ok encoded_counter
    ∧ [set_ReefID "R-9038-001" reef_c; set_ReefID "R-9038-000" reef_a] !! 0%nat
      = Some (set_ReefID ("R" +:+ "-" +:+ grid_scheme +:+ "-" +:+ encoded_counter) reef_c).
Proof.
  apply (fresh_run_counts_by_rank B10 "R" 3 [reef_c; reef_a]).
  - repeat constructor.
  - intros i j row row' Hne Hi Hj Hu Hu' _.
    destruct i as [|[|i]], j as [|[|j]]; cbv [lookup list_lookup] in Hi, Hj;
      try discriminate Hi; try discriminate Hj; try (by destruct Hne);
      injection Hi as <-; injection Hj as <-;
      vm_compute; discriminate.
  - vm_compute. reflexivity.
  - reflexivity.
Defined.

(** ** How a run can end *)

Section GridOutcomes.
Import PyFloat PyFloatFacts.

Variable base_char_set : string.

Lemma to_int_cases d :
  (∃ q, to_int d = Ok q) ∨ to_int d = Raise ValueError ∨ to_int d = Raise OverflowError.
Proof. destruct d; simpl; eauto. Qed.

Lemma grid_axis_constants degrees :
  grid_axis_check base_char_set degrees = true →
  ∃ slice subslice,
    int_truediv degrees (encoding_base base_char_set) = Ok (Finite slice)
    ∧ truediv (Finite slice) (of_int (encoding_base base_char_set)) = Ok (Finite subslice)
    ∧ 0 < slice ∧ 0 < subslice.
Proof.
  unfold grid_axis_check. intros Hc.
  destruct (finite_value (int_truediv _ _)) as [slice|] eqn:E1; [|done].
  destruct (finite_value (truediv _ _)) as [subslice|] eqn:E2; [|done].
  apply finite_value_Some in E1, E2. exists slice, subslice.
  unfold axis_check in Hc.
  apply andb_prop in Hc as [Hc _]. apply andb_prop in Hc as [Hc _].
  apply andb_prop in Hc as [Hc _]. apply andb_prop in Hc as [Hc _].
  apply andb_prop in Hc as [Hc _]. apply andb_prop in Hc as [Hc _].
  apply andb_prop in Hc as [Hs Hss]. split_and!; try done; lia.
Qed.

Lemma grid_major_cases v slice :
  0 < slice →
  (∃ q, grid_major v (Finite slice) = Ok q)
  ∨ grid_major v (Finite slice) = Raise ValueError
  ∨ grid_major v (Finite slice) = Raise OverflowError.
Proof.
  intros Hs. unfold grid_major, floordiv. rewrite is_zero_pos by done. simpl.
  apply to_int_cases.
Qed.

Lemma grid_sub_cases v slice subslice :
  0 < slice → 0 < subslice →
  truediv (Finite slice) (of_int (encoding_base base_char_set)) = Ok (Finite subslice) →
  (∃ q, grid_sub base_char_set v (Finite slice) = Ok q)
  ∨ grid_sub base_char_set v (Finite slice) = Raise ValueError
  ∨ grid_sub base_char_set v (Finite slice) = Raise OverflowError.
Proof.
  intros Hs Hss Ht. unfold grid_sub, modulo. rewrite is_zero_pos by done. simpl.
  rewrite Ht. simpl. unfold floordiv. rewrite is_zero_pos by done. simpl.
  apply to_int_cases.
Qed.

Lemma encode_base_str_cases q :
  (∃ c, encode_base_str base_char_set q = Ok c)
  ∨ encode_base_str base_char_set q = Raise IndexError.
Proof.
  unfold encode_base_str.
  destruct (str_getitem_cases base_char_set q) as [(_ & c & Hc & _)|[_ H]]; eauto.
Qed.

Hypothesis checked : grid_check base_char_set = true.

Lemma encode_grid_cases lon lat :
  (∃ g, encode_grid base_char_set lon lat = Ok g)
  ∨ encode_grid base_char_set lon lat = Raise ValueError
  ∨ encode_grid base_char_set lon lat = Raise OverflowError
  ∨ encode_grid base_char_set lon lat = Raise IndexError.
Proof.
  pose proof checked as Hc. unfold grid_check in Hc.
  apply andb_prop in Hc as [Hc _]. apply andb_prop in Hc as [Hc _].
  apply andb_prop in Hc as [Hc _]. apply andb_prop in Hc as [Hc _].
  apply andb_prop in Hc as [Hlon Hlat].
  destruct (grid_axis_constants 360 Hlon) as (S1 & T1 & E1 & F1 & HS1 & HT1).
  destruct (grid_axis_constants 180 Hlat) as (S2 & T2 & E2 & F2 & HS2 & HT2).
  unfold encode_grid, LON_SLICE_SIZE, LAT_SLICE_SIZE. rewrite E1, E2. simpl.
  destruct (grid_major_cases (add lon (of_int 180)) S1 HS1) as [[q1 ->]|[->| ->]];
    simpl; [|eauto..].
  destruct (grid_major_cases (add lat (of_int 90)) S2 HS2) as [[q2 ->]|[->| ->]];
    simpl; [|eauto..].
  destruct (grid_sub_cases (add lon (of_int 180)) S1 T1 HS1 HT1 F1) as [[q3 ->]|[->| ->]];
    simpl; [|eauto..].
  destruct (grid_sub_cases (add lat (of_int 90)) S2 T2 HS2 HT2 F2) as [[q4 ->]|[->| ->]];
    simpl; [|eauto..].
  destruct (encode_base_str_cases q1) as [[c1 ->]| ->]; simpl; [|eauto 6].
  destruct (encode_base_str_cases q3) as [[c2 ->]| ->]; simpl; [|eauto 6].
  destruct (encode_base_str_cases q2) as [[c3 ->]| ->]; simpl; [|eauto 6].
  destruct (encode_base_str_cases q4) as [[c4 ->]| ->]; simpl; [|eauto 6].
  eauto.
Qed.

Lemma encode_grids_cases rows :
  (∃ gs, encode_grids base_char_set rows = Ok gs)
  ∨ encode_grids base_char_set rows = Raise ValueError
  ∨ encode_grids base_char_set rows = Raise OverflowError
  ∨ encode_grids base_char_set rows = Raise IndexError.
Proof.
  induction rows as [|row rows IH]; simpl; [eauto|].
  destruct (encode_grid_cases (centroid_x row) (centroid_y row))
    as [[g ->]|[->|[->| ->]]]; simpl; [|eauto 6..].
  destruct IH as [[gs ->]|[->|[->| ->]]]; simpl; eauto 6.
Qed.

End GridOutcomes.

(** The ways in which the allocation of a frame can end. *)
Lemma process_shapefile_cases (b : base_name) (prefix : string) (zero_padding : Z)
    (gdf : list feature) :
  (∃ out, process_shapefile (BASE_CHAR_SETS b) prefix zero_padding gdf = Ok out)
  ∨ process_shapefile (BASE_CHAR_SETS b) prefix zero_padding gdf = Raise ValueError
  ∨ process_shapefile (BASE_CHAR_SETS b) prefix zero_padding gdf = Raise OverflowError
  ∨ process_shapefile (BASE_CHAR_SETS b) prefix zero_padding gdf = Raise IndexError.
Proof.
  destruct (register_all_cases (BASE_CHAR_SETS b) (existing_ids gdf) initial_state
              initial_state_synced) as [[Hwf _]|[Hwf _]].
  - destruct (encode_grids_cases _ (grid_check_BASE_CHAR_SETS b) gdf) as [[gs Hgs]|Herr].
    + destruct (allocate_total (BASE_CHAR_SETS b) prefix zero_padding
                  (NoDup_BASE_CHAR_SETS b) (two_symbols_BASE_CHAR_SETS b)
                  (hyphen_free_BASE_CHAR_SETS b) gdf gs Hwf Hgs) as (out & st & log & E).
      left. exists out. apply process_shapefile_Ok. eauto.
    + right. unfold process_shapefile, allocate.
      rewrite process_existing_register_all.
      destruct (register_all_cases (BASE_CHAR_SETS b) (existing_ids gdf) initial_state
                  initial_state_synced) as [[_ (st0 & -> & _)]|[Hn _]]; [|done].
      simpl. destruct Herr as [->|[->| ->]]; simpl; eauto.
  - right. left. unfold process_shapefile.
    by rewrite (allocate_malformed _ prefix zero_padding gdf Hwf).
Qed.

(** X11.  For each of the five character sets and every frame whose
    features all have a geometry, the allocation always ends (the digit
    loop of [encode_counter] and the collision loop exit), and it raises
    neither KeyError on its two dictionaries nor ZeroDivisionError. *)
Theorem process_shapefile_ends_without_key_error (b : base_name) (prefix : string)
    (zero_padding : Z) (gdf : list feature) :
  process_shapefile (BASE_CHAR_SETS b) prefix zero_padding gdf ≠ Diverge
  ∧ process_shapefile (BASE_CHAR_SETS b) prefix zero_padding gdf ≠ Raise KeyError
  ∧ process_shapefile (BASE_CHAR_SETS b) prefix zero_padding gdf
    ≠ Raise ZeroDivisionError.
Proof.
  destruct (process_shapefile_cases b prefix zero_padding gdf)
    as [[out ->]|[->|[->| ->]]]; by split_and!.
Qed.

(** X12.  A run completes exactly when every identifier present splits
    into three hyphen-separated parts whose third part [decode_counter]
    decodes, and [encode_grid] returns for the centroid of every feature,
    labelled or not. *)
Theorem process_shapefile_completes_iff (b : base_name) (prefix : string)
    (zero_padding : Z) (gdf : list feature) :
  (∃ out, process_shapefile (BASE_CHAR_SETS b) prefix zero_padding gdf = Ok out)
  ↔ Forall (λ reef_id, ∃ existing_prefix grid_scheme feature_counter d,
                str_split "-" reef_id = [existing_prefix; grid_scheme; feature_counter]
                ∧ decode_counter (BASE_CHAR_SETS b) feature_counter = Ok d)
      (existing_ids gdf)
    ∧ Forall (λ row, ∃ g, encode_grid (BASE_CHAR_SETS b) (centroid_x row) (centroid_y row)
                          = Ok g) gdf.
Proof.
  split.
  - intros [out H]. apply process_shapefile_Ok in H as (st & log & H).
    destruct (allocate_Ok _ prefix zero_padding (NoDup_BASE_CHAR_SETS b)
                (two_symbols_BASE_CHAR_SETS b) (hyphen_free_BASE_CHAR_SETS b)
                _ _ _ _ H) as (st0 & gs & E0 & Egs & _).
    split.
    + by destruct (process_existing_Ok _ _ _ E0) as (Hwf & _).
    + apply (encode_grids_Ok_iff (BASE_CHAR_SETS b) gdf). eauto.
  - intros [Hwf Hgrids].
    apply (encode_grids_Ok_iff (BASE_CHAR_SETS b) gdf) in Hgrids as [gs Hgs].
    destruct (allocate_total (BASE_CHAR_SETS b) prefix zero_padding
                (NoDup_BASE_CHAR_SETS b) (two_symbols_BASE_CHAR_SETS b)
                (hyphen_free_BASE_CHAR_SETS b) gdf gs Hwf Hgs) as (out & st & log & E).
    exists out. apply process_shapefile_Ok. eauto.
Qed.

Lemma process_shapefile_completes_iff_witness :
  Forall (λ reef_id, ∃ existing_prefix grid_scheme feature_counter d,
            str_split "-" reef_id = [existing_prefix; grid_scheme; feature_counter]
            ∧ decode_counter (BASE_CHAR_SETS B10) feature_counter = Ok d)
    (existing_ids [set_ReefID "A-1-2" reef_a; reef_b])
  ∧ Forall (λ row, ∃ g, encode_grid (BASE_CHAR_SETS B10) (centroid_x row) (centroid_y row)
                        = Ok g) [set_ReefID "A-1-2" reef_a; reef_b].
Proof.
  apply (proj1 (process_shapefile_completes_iff B10 "R" 3
                  [set_ReefID "A-1-2" reef_a; reef_b])).
  eexists. vm_compute. reflexivity.
Defined.

(** ** The grid cell of a point *)

Section GridCell.
Import PyFloat PyFloatFacts.

Variable base_char_set : string.
Variables total slice subslice : Z.

Hypothesis checked :
  axis_check (encoding_base base_char_set) total slice subslice = true.
Hypothesis subslice_eq :
  truediv (Finite slice) (of_int (encoding_base base_char_set)) = Ok (Finite subslice).

Lemma grid_major_exact x :
  0 ≤ x < total →
  grid_major (Finite x) (Finite slice) = Ok (x / slice)
  ∧ 0 ≤ x / slice < encoding_base base_char_set.
Proof.
  pose proof checked as Hc. unfold axis_check in Hc. intros Hx.
  apply andb_prop in Hc as [Hc _]. apply andb_prop in Hc as [Hc Htab].
  apply andb_prop in Hc as [Hc _]. apply andb_prop in Hc as [Hc _].
  apply andb_prop in Hc as [Hc _]. apply andb_prop in Hc as [Hc Hq].
  apply andb_prop in Hc as [Hs Hss].
  assert (0 ≤ x / slice < encoding_base base_char_set).
  { split; [apply Z.div_pos; lia|].
    eapply Z.le_lt_trans; [apply (Z.div_le_mono x (total - 1))|]; lia. }
  split; [|done]. unfold grid_major.
  rewrite floordiv_pos by lia. simpl.
  rewrite (is_finite_eq _ _ (forallb_below _ _ _ Htab H)).
  apply to_int_integral.
Qed.

Lemma grid_sub_exact x :
  0 ≤ x → (quantum x | x) →
  grid_sub base_char_set (Finite x) (Finite slice) = Ok (x mod slice / subslice)
  ∧ 0 ≤ x mod slice / subslice < encoding_base base_char_set.
Proof.
  pose proof checked as Hc. unfold axis_check in Hc. intros Hx Hqx.
  apply andb_prop in Hc as [Hc Htab]. apply andb_prop in Hc as [Hc _].
  apply andb_prop in Hc as [Hc Hpred]. apply andb_prop in Hc as [Hc Hlow].
  apply andb_prop in Hc as [Hc Hqs]. apply andb_prop in Hc as [Hc _].
  apply andb_prop in Hc as [Hs Hss].
  set (m := x mod slice).
  pose proof (Z.mod_pos_bound x slice ltac:(lia)) as Hm. fold m in Hm.
  assert (Hqm : (quantum m | m)).
  { apply quantum_divide_mod; [lia..|done|]. apply Z.mod_divide; [|lia].
    pose proof (quantum_pos slice). lia. }
  assert (Hlt : m < encoding_base base_char_set * subslice).
  { destruct (decide (m < 2 ^ Z.log2 slice)) as [|Hge]; [lia|].
    assert (Hq : quantum m = quantum slice) by (apply quantum_same_binade; lia).
    assert (m ≤ slice - quantum m).
    { apply float_below; [lia|done|]. apply Z.mod_divide; [|lia].
      pose proof (quantum_pos slice). lia. }
    unfold pred in Hpred. lia. }
  assert (0 ≤ m / subslice < encoding_base base_char_set).
  { split; [apply Z.div_pos; lia|]. apply Z.div_lt_upper_bound; lia. }
  split; [|done]. unfold grid_sub.
  rewrite modulo_pos by lia. simpl. fold m.
  rewrite subslice_eq. simpl.
  rewrite floordiv_pos by lia. simpl.
  rewrite (is_finite_eq _ _ (forallb_below _ _ _ Htab H)).
  apply to_int_integral.
Qed.

Lemma in_cell_div_mod x :
  0 ≤ x → in_cell slice subslice (x / slice) (x mod slice / subslice) x.
Proof.
  pose proof checked as Hc. unfold axis_check in Hc. intros Hx.
  apply andb_prop in Hc as [Hc _]. apply andb_prop in Hc as [Hc _].
  apply andb_prop in Hc as [Hc _]. apply andb_prop in Hc as [Hc _].
  apply andb_prop in Hc as [Hc _]. apply andb_prop in Hc as [Hc _].
  apply andb_prop in Hc as [Hs Hss].
  unfold in_cell.
  pose proof (Z.div_mod x slice ltac:(lia)) as Hdm.
  pose proof (Z.mod_pos_bound x slice ltac:(lia)) as Hm.
  set (m := x mod slice) in *.
  pose proof (Z.div_mod m subslice ltac:(lia)) as Hdm'.
  pose proof (Z.mod_pos_bound m subslice ltac:(lia)) as Hm'.
  set (q := x / slice) in *. set (s := m / subslice) in *.
  nia.
Qed.

End GridCell.

Section GridLocates.
Import PyFloat PyFloatFacts.

Variable base_char_set : string.
Hypothesis checked : grid_check base_char_set = true.
Hypothesis distinct_symbols : NoDup (chars base_char_set).

Lemma grid_axis_exact degrees x :
  grid_axis_check base_char_set degrees = true →
  0 ≤ x < degrees * one → (quantum x | x) →
  ∃ slice subslice c_major c_sub major sub,
    int_truediv degrees (encoding_base base_char_set) = Ok (Finite slice)
    ∧ truediv (Finite slice) (of_int (encoding_base base_char_set)) = Ok (Finite subslice)
    ∧ grid_major (Finite x) (Finite slice) = Ok major
    ∧ grid_sub base_char_set (Finite x) (Finite slice) = Ok sub
    ∧ encode_base_str base_char_set major = Ok c_major
    ∧ encode_base_str base_char_set sub = Ok c_sub
    ∧ decode_base_str base_char_set c_major = Ok major
    ∧ decode_base_str base_char_set c_sub = Ok sub
    ∧ in_cell slice subslice major sub x.
Proof.
  unfold grid_axis_check. intros Hc Hx Hqx.
  destruct (finite_value (int_truediv _ _)) as [slice|] eqn:E1; [|done].
  destruct (finite_value (truediv _ _)) as [subslice|] eqn:E2; [|done].
  apply finite_value_Some in E1, E2.
  destruct (grid_major_exact _ _ _ _ Hc x Hx) as (Hmajor & Hr1).
  destruct (grid_sub_exact _ _ _ _ Hc E2 x (proj1 Hx) Hqx) as (Hsub & Hr2).
  destruct (str_getitem_Ok base_char_set _ Hr1) as (c1 & G1 & _).
  destruct (str_getitem_Ok base_char_set _ Hr2) as (c2 & G2 & _).
  exists slice, subslice, c1, c2, (x / slice), (x mod slice / subslice).
  split_and!; try done.
  - apply str_getitem_index; [done|lia|done].
  - apply str_getitem_index; [done|lia|done].
  - by apply (in_cell_div_mod base_char_set _ _ _ Hc); lia.
Qed.

Lemma encode_grid_cell lon lat :
  representable lon → representable lat →
  - (180 * one) ≤ lon < 180 * one → lon ≠ pred (180 * one) →
  - (90 * one) ≤ lat < 90 * one → lat ≠ pred (90 * one) →
  ∃ x y lon_slice lon_subslice lat_slice lat_subslice c1 c2 c3 c4
    lon_major lon_sub lat_major lat_sub,
    add (Finite lon) (of_int 180) = Finite x
    ∧ add (Finite lat) (of_int 90) = Finite y
    ∧ LON_SLICE_SIZE base_char_set = Ok (Finite lon_slice)
    ∧ LAT_SLICE_SIZE base_char_set = Ok (Finite lat_slice)
    ∧ truediv (Finite lon_slice) (of_int (encoding_base base_char_set))
      = Ok (Finite lon_subslice)
    ∧ truediv (Finite lat_slice) (of_int (encoding_base base_char_set))
      = Ok (Finite lat_subslice)
    ∧ encode_grid base_char_set (Finite lon) (Finite lat)
      = Ok (String c1 (String c2 (String c3 (String c4 EmptyString))))
    ∧ decode_base_str base_char_set c1 = Ok lon_major
    ∧ decode_base_str base_char_set c2 = Ok lon_sub
    ∧ decode_base_str base_char_set c3 = Ok lat_major
    ∧ decode_base_str base_char_set c4 = Ok lat_sub
    ∧ in_cell lon_slice lon_subslice lon_major lon_sub x
    ∧ in_cell lat_slice lat_subslice lat_major lat_sub y.
Proof.
  pose proof checked as Hc. unfold grid_check in Hc.
  intros Hrlon Hrlat Hdlon Hnlon Hdlat Hnlat.
  apply andb_prop in Hc as [Hc H90]. apply andb_prop in Hc as [Hc H180].
  apply andb_prop in Hc as [Hc Hs90]. apply andb_prop in Hc as [Hc Hs180].
  apply andb_prop in Hc as [Hlon Hlat].
  apply is_finite_eq in H180, H90.
  destruct (shift_in_range _ lon Hs180 Hrlon Hdlon Hnlon) as (x & Hx & Hxr & Hxq).
  destruct (shift_in_range _ lat Hs90 Hrlat Hdlat Hnlat) as (y & Hy & Hyr & Hyq).
  destruct (grid_axis_exact 360 x Hlon)
    as (S1 & T1 & c1 & c2 & M1 & s1 & E1 & F1 & A1 & B1 & G1 & G2 & D1 & D2 & I1);
    [lia|done|].
  destruct (grid_axis_exact 180 y Hlat)
    as (S2 & T2 & c3 & c4 & M2 & s2 & E2 & F2 & A2 & B2 & G3 & G4 & D3 & D4 & I2);
    [lia|done|].
  assert (Hgrid : encode_grid base_char_set (Finite lon) (Finite lat)
                  = Ok (String c1 (String c2 (String c3 (String c4 EmptyString))))).
  { unfold encode_grid, LON_SLICE_SIZE, LAT_SLICE_SIZE.
    rewrite H180, H90, Hx, Hy, E1, E2. simpl.
    rewrite A1. simpl. rewrite A2. simpl. rewrite B1. simpl. rewrite B2. simpl.
    rewrite G1. simpl. rewrite G2. simpl. rewrite G3. simpl. rewrite G4. reflexivity. }
  exists x, y, S1, T1, S2, T2, c1, c2, c3, c4, M1, s1, M2, s2.
  rewrite H180, H90.
  exact (conj Hx (conj Hy (conj E1 (conj E2 (conj F1 (conj F2 (conj Hgrid
           (conj D1 (conj D2 (conj D3 (conj D4 (conj I1 I2)))))))))))).
Qed.

End GridLocates.

(** X13.  The grid code names the cell that holds the point.  For doubles
    [-180 ≤ lon < 180] and [-90 ≤ lat < 90], other than the largest doubles
    below 180 and below 90: with [x = lon + 180] and [y = lat + 90] as the
    code computes them, and the slice and sub-slice sizes as the code
    computes them, the four symbols returned decode to a longitude slice
    and sub-slice and a latitude slice and sub-slice such that
    [major * slice + sub * subslice ≤ x < major * slice + (sub + 1) * subslice],
    and likewise for [y]: the float floor division and remainder lose
    nothing here. *)
Theorem encode_grid_locates (b : base_name) (lon lat : Z) :
  PyFloat.representable lon → PyFloat.representable lat →
  - (180 * PyFloat.one) ≤ lon < 180 * PyFloat.one →
  lon ≠ PyFloat.pred (180 * PyFloat.one) →
  - (90 * PyFloat.one) ≤ lat < 90 * PyFloat.one →
  lat ≠ PyFloat.pred (90 * PyFloat.one) →
  ∃ x y lon_slice lon_subslice lat_slice lat_subslice c1 c2 c3 c4
    lon_major lon_sub lat_major lat_sub,
    PyFloat.add (Finite lon) (PyFloat.of_int 180) = Finite x
    ∧ PyFloat.add (Finite lat) (PyFloat.of_int 90) = Finite y
    ∧ LON_SLICE_SIZE (BASE_CHAR_SETS b) = Ok (Finite lon_slice)
    ∧ LAT_SLICE_SIZE (BASE_CHAR_SETS b) = Ok (Finite lat_slice)
    ∧ PyFloat.truediv (Finite lon_slice) (PyFloat.of_int (encoding_base (BASE_CHAR_SETS b)))
      = Ok (Finite lon_subslice)
    ∧ PyFloat.truediv (Finite lat_slice) (PyFloat.of_int (encoding_base (BASE_CHAR_SETS b)))
      = Ok (Finite lat_subslice)
    ∧ encode_grid (BASE_CHAR_SETS b) (Finite lon) (Finite lat)
      = Ok (String c1 (String c2 (String c3 (String c4 EmptyString))))
    ∧ decode_base_str (BASE_CHAR_SETS b) c1 = Ok lon_major
    ∧ decode_base_str (BASE_CHAR_SETS b) c2 = Ok lon_sub
    ∧ decode_base_str (BASE_CHAR_SETS b) c3 = Ok lat_major
    ∧ decode_base_str (BASE_CHAR_SETS b) c4 = Ok lat_sub
    ∧ in_cell lon_slice lon_subslice lon_major lon_sub x
    ∧ in_cell lat_slice lat_subslice lat_major lat_sub y.
Proof.
  apply encode_grid_cell; [apply grid_check_BASE_CHAR_SETS|apply NoDup_BASE_CHAR_SETS].
Qed.

Lemma encode_grid_locates_witness :
  ∃ x y lon_slice lon_subslice lat_slice lat_subslice c1 c2 c3 c4
    lon_major lon_sub lat_major lat_sub,
    PyFloat.add (Finite (147 * PyFloat.one)) (PyFloat.of_int 180) = Finite x
    ∧ PyFloat.add (Finite (-20 * PyFloat.one)) (PyFloat.of_int 90) = Finite y
    ∧ LON_SLICE_SIZE (BASE_CHAR_SETS B10) = Ok (Finite lon_slice)
    ∧ LAT_SLICE_SIZE (BASE_CHAR_SETS B10) = Ok (Finite lat_slice)
    ∧ PyFloat.truediv (Finite lon_slice) (PyFloat.of_int (encoding_base (BASE_CHAR_SETS B10)))
      = Ok (Finite lon_subslice)
    ∧ PyFloat.truediv (Finite lat_slice) (PyFloat.of_int (encoding_base (BASE_CHAR_SETS B10)))
      = Ok (Finite lat_subslice)
    ∧ encode_grid (BASE_CHAR_SETS B10) (Finite (147 * PyFloat.one))
        (Finite (-20 * PyFloat.one))
      = Ok (String c1 (String c2 (String c3 (String c4 EmptyString))))
    ∧ decode_base_str (BASE_CHAR_SETS B10) c1 = Ok lon_major
    ∧ decode_base_str (BASE_CHAR_SETS B10) c2 = Ok lon_sub
    ∧ decode_base_str (BASE_CHAR_SETS B10) c3 = Ok lat_major
    ∧ decode_base_str (BASE_CHAR_SETS B10) c4 = Ok lat_sub
    ∧ in_cell lon_slice lon_subslice lon_major lon_sub x
    ∧ in_cell lat_slice lat_subslice lat_major lat_sub y.
Proof.
  apply (encode_grid_locates B10 (147 * PyFloat.one) (-20 * PyFloat.one));
    try (split; vm_compute; first [reflexivity | discriminate]);
    vm_compute; discriminate.
Defined.

(** ** Coordinates that are not numbers *)

Section GridNonFinite.
Import PyFloat PyFloatFacts.

Variable base_char_set : string.
Hypothesis checked : grid_check base_char_set = true.

Lemma grid_major_nonfinite v h slice :
  0 < slice → (∀ k, v ≠ Finite k) →
  grid_major (add v (Finite h)) (Finite slice) = Raise ValueError.
Proof.
  intros Hs Hv. unfold grid_major, floordiv. rewrite is_zero_pos by done. simpl.
  destruct v as [k|s|]; [by destruct (Hv k)|..];
    unfold float_div_mod; simpl; destruct (negb _); reflexivity.
Qed.

Lemma encode_grid_lon_nonfinite lon lat :
  (∀ k, lon ≠ Finite k) →
  encode_grid base_char_set lon lat = Raise ValueError.
Proof.
  intros Hlon. pose proof checked as Hc. unfold grid_check in Hc.
  apply andb_prop in Hc as [Hc H90]. apply andb_prop in Hc as [Hc H180].
  apply andb_prop in Hc as [Hc _]. apply andb_prop in Hc as [Hc _].
  apply andb_prop in Hc as [Hclon Hclat].
  apply is_finite_eq in H180, H90.
  destruct (grid_axis_constants base_char_set 360 Hclon) as (S1 & T1 & E1 & F1 & HS1 & HT1).
  destruct (grid_axis_constants base_char_set 180 Hclat) as (S2 & T2 & E2 & F2 & HS2 & HT2).
  unfold encode_grid, LON_SLICE_SIZE, LAT_SLICE_SIZE. rewrite E1, E2, H180. simpl.
  by rewrite grid_major_nonfinite.
Qed.

Lemma encode_grid_lat_nonfinite lon lat :
  representable lon → - (180 * one) ≤ lon < 180 * one → lon ≠ pred (180 * one) →
  (∀ k, lat ≠ Finite k) →
  encode_grid base_char_set (Finite lon) lat = Raise ValueError.
Proof.
  intros Hrlon Hdlon Hnlon Hlat. pose proof checked as Hc. unfold grid_check in Hc.
  apply andb_prop in Hc as [Hc H90]. apply andb_prop in Hc as [Hc H180].
  apply andb_prop in Hc as [Hc _]. apply andb_prop in Hc as [Hc Hs180].
  apply andb_prop in Hc as [Hclon Hclat].
  apply is_finite_eq in H180, H90.
  destruct (shift_in_range _ lon Hs180 Hrlon Hdlon Hnlon) as (x & Hx & Hxr & Hxq).
  destruct (grid_axis_in_range base_char_set 360 x Hclon)
    as (S1 & M1 & s1 & E1 & A1 & _); [lia|done|].
  destruct (grid_axis_constants base_char_set 180 Hclat) as (S2 & T2 & E2 & F2 & HS2 & HT2).
  unfold encode_grid, LON_SLICE_SIZE, LAT_SLICE_SIZE.
  rewrite E1, E2, H180, H90, Hx. simpl. rewrite A1. simpl.
  by rewrite grid_major_nonfinite.
Qed.

End GridNonFinite.

(** X14.  Coordinates that are not numbers.  A NaN or infinite longitude
    makes [encode_grid] raise ValueError (the floor division yields NaN,
    which [int] rejects), whatever the latitude; so does a NaN or infinite
    latitude for a longitude of the domain. *)
Theorem encode_grid_nonfinite (b : base_name) :
  (∀ lon lat, (∀ k, lon ≠ Finite k) →
     encode_grid (BASE_CHAR_SETS b) lon lat = Raise ValueError)
  ∧ (∀ lon lat,
       PyFloat.representable lon →
       - (180 * PyFloat.one) ≤ lon < 180 * PyFloat.one →
       lon ≠ PyFloat.pred (180 * PyFloat.one) →
       (∀ k, lat ≠ Finite k) →
       encode_grid (BASE_CHAR_SETS b) (Finite lon) lat = Raise ValueError).
Proof.
  split.
  - intros lon lat. apply encode_grid_lon_nonfinite, grid_check_BASE_CHAR_SETS.
  - intros lon lat. apply encode_grid_lat_nonfinite, grid_check_BASE_CHAR_SETS.
Qed.

Lemma encode_grid_nonfinite_witness :
  encode_grid (BASE_CHAR_SETS B10) NaN (PyFloat.of_int 0) = Raise ValueError
  ∧ encode_grid (BASE_CHAR_SETS B10) (Finite (147 * PyFloat.one)) (Infinity false)
    = Raise ValueError.
Proof.
  split.
  - apply (proj1 (encode_grid_nonfinite B10)). discriminate.
  - apply (proj2 (encode_grid_nonfinite B10));
      try (split; vm_compute; first [reflexivity | discriminate]);
      try (vm_compute; discriminate); discriminate.
Defined.

(** ** Counters follow the sort order *)

Section FreeCounters.

Variable base_char_set : string.
Variable zero_padding : Z.
Hypothesis distinct_symbols : NoDup (chars base_char_set).
Hypothesis two_symbols : 2 ≤ encoding_base base_char_set.

Lemma next_free_lower (occ : gset string) n c enc :
  0 ≤ n → next_free base_char_set zero_padding occ n = Ok (c, enc) → n ≤ c.
Proof.
  intros Hn H.
  destruct (next_free_spec base_char_set zero_padding distinct_symbols two_symbols
              occ n Hn) as (c' & enc' & E & Hle & _).
  rewrite E in H. by simplify_eq.
Qed.

Lemma nth_free_lower (occ : gset string) n k c enc :
  0 ≤ n → nth_free base_char_set zero_padding occ n k = Ok (c, enc) →
  n + Z.of_nat k ≤ c.
Proof.
  revert n. induction k as [|k IH]; intros n Hn H; simpl in H.
  - apply next_free_lower in H; lia.
  - inv_bind H. destruct a as [c0 enc0]. apply next_free_lower in E; [|done].
    apply IH in H; lia.
Qed.

Lemma nth_free_mono (occ : gset string) n k k' c enc c' enc' :
  0 ≤ n → (k < k')%nat →
  nth_free base_char_set zero_padding occ n k = Ok (c, enc) →
  nth_free base_char_set zero_padding occ n k' = Ok (c', enc') →
  c < c'.
Proof.
  revert n k'. induction k as [|k IH]; intros n k' Hn Hlt H H'.
  - destruct k' as [|k']; [lia|]. simpl in H, H'. rewrite H in H'. simpl in H'.
    apply next_free_lower in H; [|done]. apply nth_free_lower in H'; lia.
  - destruct k' as [|k']; [lia|]. simpl in H, H'.
    inv_bind H. destruct a as [c0 enc0]. rewrite E in H'. simpl in H'.
    apply next_free_lower in E; [|done].
    apply (IH (c0 + 1) k'); [lia|lia|done..].
Qed.

End FreeCounters.

Lemma length_filter_lt {A} (P Q : A → Prop)
    `{!∀ x, Decision (P x), !∀ x, Decision (Q x)} (l : list A) y :
  (∀ x, x ∈ l → P x → Q x) → y ∈ l → Q y → ¬ P y →
  (length (filter P l) < length (filter Q l))%nat.
Proof.
  intros Himp Hy HQ HP.
  assert (Hle : ∀ l', (∀ x, x ∈ l' → P x → Q x) →
                      (length (filter P l') ≤ length (filter Q l'))%nat).
  { clear. induction l' as [|x l' IH]; intros Himp; [done|].
    rewrite !filter_cons.
    assert (Hrec : (length (filter P l') ≤ length (filter Q l'))%nat).
    { apply IH. intros z Hz. apply Himp. by right. }
    destruct (decide (P x)) as [Hp|Hp]; destruct (decide (Q x)) as [Hq|Hq]; simpl;
      try lia.
    exfalso. apply Hq, Himp; [left|done]. }
  induction l as [|x l IH]; [by apply elem_of_nil in Hy|].
  rewrite !filter_cons.
  assert (Hrec : (length (filter P l) ≤ length (filter Q l))%nat).
  { apply Hle. intros z Hz. apply Himp. by right. }
  apply elem_of_cons in Hy as [<-|Hy].
  - rewrite decide_False by done. rewrite decide_True by done. simpl. lia.
  - assert (Hlt : (length (filter P l) < length (filter Q l))%nat).
    { apply IH; [|done]. intros z Hz. apply Himp. by right. }
    destruct (decide (P x)) as [Hp|Hp]; destruct (decide (Q x)) as [Hq|Hq]; simpl;
      try lia.
    exfalso. apply Hq, Himp; [left|done].
Qed.

Lemma sum_ltb_trans a b c : sum_ltb a b = true → sum_ltb b c = true → sum_ltb a c = true.
Proof.
  unfold sum_ltb. intros [H1 H2]%andb_prop [H3 H4]%andb_prop.
  apply andb_true_intro. split.
  - by eapply float_leb_trans.
  - apply negb_true_iff. apply negb_true_iff in H2, H4.
    destruct (float_leb (centroid_sum c) (centroid_sum a)) eqn:E; [|done].
    rewrite <- H4. symmetry. by eapply float_leb_trans.
Qed.

Lemma sum_ltb_irrefl a : sum_ltb a a = false.
Proof. unfold sum_ltb. by rewrite float_leb_refl. Qed.

Lemma cell_rank_lt base_char_set gdf row1 row2 :
  row1 ∈ gdf → ReefID row1 = None →
  grid_of base_char_set row1 = grid_of base_char_set row2 →
  sum_ltb row1 row2 = true →
  (cell_rank base_char_set gdf row1 < cell_rank base_char_set gdf row2)%nat.
Proof.
  intros Hin Hnone Hgrid Hlt. unfold cell_rank.
  apply (length_filter_lt _ _ gdf row1); [|done| |].
  - intros r _. unfold before_in_cell.
    intros [[Hu Hg]%andb_prop Hs]%andb_prop.
    rewrite Hu. simpl. apply andb_true_intro. split.
    + apply bool_decide_eq_true in Hg. apply bool_decide_eq_true. congruence.
    + by eapply sum_ltb_trans.
  - unfold before_in_cell. rewrite Hlt.
    rewrite !bool_decide_eq_true_2; done.
  - unfold before_in_cell. by rewrite sum_ltb_irrefl, andb_false_r.
Qed.

(** X15.  Counters follow the sort order.  In a completed run on a frame in
    which no two unlabelled features of one grid cell have the same centroid
    sum, of two unlabelled features of the same grid cell the one with the
    smaller centroid sum receives the smaller counter. *)
Theorem counters_follow_centroid_sum (b : base_name) (prefix : string)
    (zero_padding : Z) (gdf out : list feature) (i j : nat) (row1 row2 : feature) :
  distinct_sums (BASE_CHAR_SETS b) gdf →
  process_shapefile (BASE_CHAR_SETS b) prefix zero_padding gdf = Ok out →
  gdf !! i = Some row1 → gdf !! j = Some row2 →
  ReefID row1 = None → ReefID row2 = None →
  encode_grid (BASE_CHAR_SETS b) (centroid_x row1) (centroid_y row1)
  = encode_grid (BASE_CHAR_SETS b) (centroid_x row2) (centroid_y row2) →
  sum_ltb row1 row2 = true →
  ∃ grid_scheme code1 code2 counter1 counter2,
    out !! i = Some (set_ReefID (prefix +:+ "-" +:+ grid_scheme +:+ "-" +:+ code1) row1)
    ∧ out !! j = Some (set_ReefID (prefix +:+ "-" +:+ grid_scheme +:+ "-" +:+ code2) row2)
    ∧ decode_counter (BASE_CHAR_SETS b) code1 = Ok counter1
    ∧ decode_counter (BASE_CHAR_SETS b) code2 = Ok counter2
    ∧ counter1 < counter2.
Proof.
  intros Hdist H Hi Hj Hn1 Hn2 Hgrid Hlt.
  apply process_shapefile_Ok in H as (st & log & H).
  pose proof (NoDup_BASE_CHAR_SETS b) as Hnd.
  pose proof (two_symbols_BASE_CHAR_SETS b) as Htwo.
  destruct (allocate_Ok _ prefix zero_padding Hnd Htwo (hyphen_free_BASE_CHAR_SETS b)
              _ _ _ _ H) as (st0 & gs & E0 & Egs & _).
  destruct (process_existing_Ok _ _ _ E0) as (_ & _ & Hnn & _).
  pose proof (allocate_closed _ prefix zero_padding gdf out st log st0 Hnd Htwo
                Hdist E0 H) as ->.
  destruct (encode_grids_lookup _ _ _ Egs) as (_ & Hgrids).
  destruct (Hgrids i row1 Hi) as (g & _ & Hg1).
  assert (Hg2 : grid_of (BASE_CHAR_SETS b) row2 = Ok g).
  { unfold grid_of in *. by rewrite <- Hgrid. }
  rewrite !list_lookup_fmap, Hi, Hj. simpl.
  unfold allocated_row. rewrite Hn1, Hn2, Hg1, Hg2.
  assert (Hrank : (cell_rank (BASE_CHAR_SETS b) gdf row1
                   < cell_rank (BASE_CHAR_SETS b) gdf row2)%nat).
  { apply cell_rank_lt; [by eapply list_elem_of_lookup_2|done| |done].
    by rewrite Hg1, Hg2. }
  destruct (nth_free_total (BASE_CHAR_SETS b) zero_padding Hnd Htwo
              (occupied st0 prefix g) (next_counter st0 prefix g)
              (cell_rank (BASE_CHAR_SETS b) gdf row1) (Hnn _ _)) as (c1 & e1 & F1).
  destruct (nth_free_total (BASE_CHAR_SETS b) zero_padding Hnd Htwo
              (occupied st0 prefix g) (next_counter st0 prefix g)
              (cell_rank (BASE_CHAR_SETS b) gdf row2) (Hnn _ _)) as (c2 & e2 & F2).
  rewrite F1, F2.
  pose proof (nth_free_mono _ zero_padding Hnd Htwo _ _ _ _ _ _ _ _ (Hnn _ _) Hrank F1 F2)
    as Hc.
  pose proof (nth_free_lower _ zero_padding Hnd Htwo _ _ _ _ _ (Hnn _ _) F1) as Hl1.
  pose proof (Hnn prefix g) as Hn0.
  assert (Henc : ∀ k c e, nth_free (BASE_CHAR_SETS b) zero_padding
                            (occupied st0 prefix g) (next_counter st0 prefix g) k
                          = Ok (c, e) →
                          encode_counter (BASE_CHAR_SETS b) c zero_padding = Ok e).
  { intros k. generalize (next_counter st0 prefix g) Hn0. clear -Hnd Htwo.
    induction k as [|k IH]; intros n Hn c e Hk; simpl in Hk.
    - destruct (next_free_spec _ zero_padding Hnd Htwo (occupied st0 prefix g) n Hn)
        as (c' & e' & E & _ & Henc & _).
      rewrite E in Hk. by simplify_eq.
    - inv_bind Hk. destruct a as [c0 e0].
      pose proof (next_free_lower _ zero_padding Hnd Htwo _ _ _ _ Hn E).
      apply (IH (c0 + 1)); [lia|done]. }
  exists g, e1, e2, c1, c2. split_and!; try done.
  - eapply decode_encode_counter; [done| |by eapply Henc]. lia.
  - eapply decode_encode_counter; [done| |by eapply Henc]. lia.
Qed.

Lemma counters_follow_centroid_sum_witness :
  ∃ grid_scheme code1 code2 counter1 counter2,
    [set_ReefID "R-9038-001" reef_c; set_ReefID "R-9038-000" reef_a] !! 1%nat
    = Some (set_ReefID ("R" +:+ "-" +:+ grid_scheme +:+ "-" +:+ code1) reef_a)
    ∧ [set_ReefID "R-9038-001" reef_c; set_ReefID "R-9038-000" reef_a] !! 0%nat
      = Some (set_ReefID ("R" +:+ "-" +:+ grid_scheme +:+ "-" +:+ code2) reef_c)
    ∧ decode_counter (BASE_CHAR_SETS B10) code1 = Ok counter1
    ∧ decode_counter (BASE_CHAR_SETS B10) code2 = Ok counter2
    ∧ counter1 < counter2.
Proof.
  apply (counters_follow_centroid_sum B10 "R" 3 [reef_c; reef_a]).
  - intros i j row row' Hne Hi Hj Hu Hu' _.
    destruct i as [|[|i]], j as [|[|j]]; cbv [lookup list_lookup] in Hi, Hj;
      try discriminate Hi; try discriminate Hj; try (by destruct Hne);
      injection Hi as <-; injection Hj as <-;
      vm_compute; discriminate.
  - vm_compute. reflexivity.
  - reflexivity.
  - reflexivity.
  - reflexivity.
  - reflexivity.
  - vm_compute. reflexivity.
  - vm_compute. reflexivity.
Defined.

(** X16.  The self-check fails under each of the five character sets:
    [run_tests] raises AssertionError, and so does [main] with [--test],
    whatever the other arguments are (they are not looked at). *)
Theorem self_check_fails (b : base_name) :
  run_tests (BASE_CHAR_SETS b) = Raise AssertionError
  ∧ ∀ input output prefix zero_padding gdf,
      main (Arguments input output prefix zero_padding b true) gdf
      = Tested (Raise AssertionError).
Proof.
  assert (H : run_tests (BASE_CHAR_SETS b) = Raise AssertionError)
    by (destruct b; vm_compute; reflexivity).
  split; [done|]. intros. unfold main. simpl. by rewrite H.
Qed.

(** ** Counters continue after the existing ones *)

Section NoCollision.

Variable base_char_set : string.
Variable zero_padding : Z.
Hypothesis distinct_symbols : NoDup (chars base_char_set).
Hypothesis two_symbols : 2 ≤ encoding_base base_char_set.

(** When every occupied code decodes to a counter below [n], the code of
    [n] is free and the collision loop does not run. *)
Lemma next_free_clear (occ : gset string) n :
  0 ≤ n →
  (∀ e, e ∈ occ → ∃ d, decode_counter base_char_set e = Ok d ∧ d < n) →
  ∃ enc, next_free base_char_set zero_padding occ n = Ok (n, enc)
         ∧ encode_counter base_char_set n zero_padding = Ok enc.
Proof.
  intros Hn Hocc. unfold next_free.
  destruct (encode_counter_total base_char_set n zero_padding two_symbols) as [enc Henc].
  rewrite Henc. simpl. exists enc. split; [|done].
  assert (Hfree : enc ∉ occ).
  { intros Hin. destruct (Hocc enc Hin) as (d & Hd & Hlt).
    rewrite (decode_encode_counter _ distinct_symbols _ _ _ Hn Henc) in Hd.
    simplify_eq. lia. }
  destruct (size occ); simpl; by rewrite bool_decide_eq_false_2.
Qed.

Lemma nth_free_clear (occ : gset string) n k :
  0 ≤ n →
  (∀ e, e ∈ occ → ∃ d, decode_counter base_char_set e = Ok d ∧ d < n) →
  ∃ enc, nth_free base_char_set zero_padding occ n k = Ok (n + Z.of_nat k, enc)
         ∧ encode_counter base_char_set (n + Z.of_nat k) zero_padding = Ok enc.
Proof.
  revert n. induction k as [|k IH]; intros n Hn Hocc; simpl.
  - destruct (next_free_clear occ n Hn Hocc) as (enc & E & Henc).
    exists enc. rewrite Z.add_0_r. done.
  - destruct (next_free_clear occ n Hn Hocc) as (enc0 & E & _).
    rewrite E. simpl.
    destruct (IH (n + 1)) as (enc & E' & Henc); [lia| |].
    { intros e He. destruct (Hocc e He) as (d & Hd & Hlt). exists d. split; [done|lia]. }
    exists enc. replace (n + Z.of_nat (S k)) with (n + 1 + Z.of_nat k) by lia. done.
Qed.

End NoCollision.

(** X18.  The counters of a run continue after the existing ones.  In a
    completed run on a frame in which no two unlabelled features of one grid
    cell have the same centroid sum, a feature without identifier receives
    the counter [n0 + k]: [n0] is 0 when no identifier present has the
    prefix of the run and the grid code of the feature, and otherwise one
    more than the largest counter decoded from such identifiers; [k] is the
    number of unlabelled features of the same grid cell that come before it
    in the order of [sort_values].  The collision loop never has to skip a
    code. *)
Theorem counters_continue_existing (b : base_name) (prefix : string)
    (zero_padding : Z) (gdf out : list feature) (i : nat) (row : feature) :
  distinct_sums (BASE_CHAR_SETS b) gdf →
  process_shapefile (BASE_CHAR_SETS b) prefix zero_padding gdf = Ok out →
  gdf !! i = Some row → ReefID row = None →
  ∃ grid_scheme n0 encoded_counter,
    encode_grid (BASE_CHAR_SETS b) (centroid_x row) (centroid_y row) = Ok grid_scheme
    ∧ (∀ reef_id feature_counter d,
         reef_id ∈ existing_ids gdf →
         str_split "-" reef_id = [prefix; grid_scheme; feature_counter] →
         decode_counter (BASE_CHAR_SETS b) feature_counter = Ok d → d < n0)
    ∧ (n0 = 0
       ∨ ∃ reef_id feature_counter d,
           reef_id ∈ existing_ids gdf
           ∧ str_split "-" reef_id = [prefix; grid_scheme; feature_counter]
           ∧ decode_counter (BASE_CHAR_SETS b) feature_counter = Ok d
           ∧ n0 = d + 1)
    ∧ encode_counter (BASE_CHAR_SETS b)
        (n0 + Z.of_nat (cell_rank (BASE_CHAR_SETS b) gdf row)) zero_padding
      = Ok encoded_counter
    ∧ out !! i
      = Some (set_ReefID (prefix +:+ "-" +:+ grid_scheme +:+ "-" +:+ encoded_counter) row).
Proof.
  intros Hdist H Hrow Hnone. apply process_shapefile_Ok in H as (st & log & H).
  pose proof (NoDup_BASE_CHAR_SETS b) as Hnd.
  pose proof (two_symbols_BASE_CHAR_SETS b) as Htwo.
  destruct (allocate_Ok _ prefix zero_padding Hnd Htwo (hyphen_free_BASE_CHAR_SETS b)
              _ _ _ _ H) as (st0 & gs & E0 & Egs & _).
  destruct (process_existing_Ok _ _ _ E0) as (Hwf & _ & Hnn & _).
  pose proof (allocate_closed _ prefix zero_padding gdf out st log st0 Hnd Htwo
                Hdist E0 H) as ->.
  destruct (encode_grids_lookup _ _ _ Egs) as (_ & Hgrids).
  destruct (Hgrids i row Hrow) as (g & _ & Hg).
  pose proof E0 as E0'. rewrite process_existing_register_all in E0'.
  destruct (register_all_counters _ _ _ _ initial_state_synced E0')
    as (_ & Hlt & Hval & Hocc).
  assert (Hclear : ∀ e, e ∈ occupied st0 prefix g →
                        ∃ d, decode_counter (BASE_CHAR_SETS b) e = Ok d
                             ∧ d < next_counter st0 prefix g).
  { intros e He. destruct (Hocc prefix g e He) as [Hin|(id & Hin & Hsp)].
    - unfold occupied in Hin. simpl in Hin. rewrite lookup_empty in Hin. set_solver.
    - rewrite Forall_forall in Hwf.
      destruct (Hwf id Hin) as (p' & g' & c' & d & Hsp' & Hd).
      rewrite Hsp in Hsp'. simplify_eq. exists d. split; [done|].
      by eapply Hlt. }
  destruct (nth_free_clear (BASE_CHAR_SETS b) zero_padding Hnd Htwo
              (occupied st0 prefix g) (next_counter st0 prefix g)
              (cell_rank (BASE_CHAR_SETS b) gdf row) (Hnn _ _) Hclear)
    as (enc & Hfree & Henc).
  assert (Hzero : next_counter st0 prefix g = 0
                  ∨ ∃ reef_id feature_counter d,
                      reef_id ∈ existing_ids gdf
                      ∧ str_split "-" reef_id = [prefix; g; feature_counter]
                      ∧ decode_counter (BASE_CHAR_SETS b) feature_counter = Ok d
                      ∧ next_counter st0 prefix g = d + 1).
  { destruct (Hval prefix g) as [Heq|Hex]; [left|by right].
    rewrite Heq. unfold next_counter. simpl. by rewrite lookup_empty. }
  assert (Hout : ((λ row0, allocated_row (BASE_CHAR_SETS b) prefix zero_padding st0
                             (cell_rank (BASE_CHAR_SETS b) gdf row0) row0) <$> gdf) !! i
                 = Some (set_ReefID (make_id prefix g enc) row)).
  { rewrite list_lookup_fmap, Hrow. simpl.
    unfold allocated_row. by rewrite Hnone, Hg, Hfree. }
  exists g, (next_counter st0 prefix g), enc.
  exact (conj Hg (conj (λ id c d, Hlt id prefix g c d) (conj Hzero (conj Henc Hout)))).
Qed.

Lemma counters_continue_existing_witness :
  let lab := Feature (Some "R-9038-007") (PyFloat.of_int 147) (PyFloat.of_int (-20)) in
  ∃ grid_scheme n0 encoded_counter,
    encode_grid (BASE_CHAR_SETS B10) (centroid_x reef_c) (centroid_y reef_c) = Ok grid_scheme
    ∧ (∀ reef_id feature_counter d,
         reef_id ∈ existing_ids [reef_c; lab; reef_a] →
         str_split "-" reef_id = ["R"; grid_scheme; feature_counter] →
         decode_counter (BASE_CHAR_SETS B10) feature_counter = Ok d → d < n0)
    ∧ (n0 = 0
       ∨ ∃ reef_id feature_counter d,
           reef_id ∈ existing_ids [reef_c; lab; reef_a]
           ∧ str_split "-" reef_id = ["R"; grid_scheme; feature_counter]
           ∧ decode_counter (BASE_CHAR_SETS B10) feature_counter = Ok d
           ∧ n0 = d + 1)
    ∧ encode_counter (BASE_CHAR_SETS B10)
        (n0 + Z.of_nat (cell_rank (BASE_CHAR_SETS B10) [reef_c; lab; reef_a] reef_c)) 3
      = Ok encoded_counter
    ∧ [set_ReefID "R-9038-009" reef_c; lab; set_ReefID "R-9038-008" reef_a] !! 0%nat
      = Some (set_ReefID ("R" +:+ "-" +:+ grid_scheme +:+ "-" +:+ encoded_counter) reef_c).
Proof.
  intros lab.
  apply (counters_continue_existing B10 "R" 3 [reef_c; lab; reef_a]).
  - intros i j row row' Hne Hi Hj Hu Hu' _.
    destruct i as [|[|[|i]]], j as [|[|[|j]]]; cbv [lookup list_lookup] in Hi, Hj;
      try discriminate Hi; try discriminate Hj; try (by destruct Hne);
      injection Hi as <-; injection Hj as <-;
      try discriminate Hu; try discriminate Hu';
      vm_compute; discriminate.
  - vm_compute. reflexivity.
  - reflexivity.
  - reflexivity.
Defined.
